(** * v380-4g-stream: key derivation, selective decryption, stream
      demultiplexing and RTP packetization

    A shallow embedding of [src/v380_4g/crypto.py], [src/v380_4g/stream.py]
    (the [StreamRecorder] demultiplexer), [src/v380_4g/rtsp_server.py]
    (the [RTPPacketizer] and the Annex B parser) and [src/v380_4g/client.py]
    (the packets of [V380Client] and the checks on the responses), followed
    by the properties of the specification proved or refuted on it and by
    further properties of the code.

    Conventions.
    - Python [bytes]/[bytearray] are [list byte]; a 0..255 integer read out of
      one is [Z] (or [nat] where it is only used as a size).
    - Python integers that are values ([handle], [ssrc], [sequence]) are [Z];
      sizes, positions and fragment counters are [nat].
    - A Python exception is [Raise e]; a [while] loop is a [Fixpoint] on fuel
      that answers [OutOfFuel] when the fuel is too small, and every caller
      passes a fuel that is proved sufficient.
    - The AES block cipher (PyCryptodome) is not part of the repository; it
      is a [Variable] of the sections below. *)

From Stdlib Require Import Strings.String Strings.Ascii Strings.Byte.
From Stdlib Require Import Arith NArith ZArith Lia Bool.
From Stdlib Require Import List Permutation.
Import ListNotations.

Set Implicit Arguments.

(* ================================================================== *)
(** * Part I: the embedding                                            *)
(* ================================================================== *)

(** ** Python runtime: results, slices, integers and bytes *)

Inductive exn : Type :=
| StructError   (* struct.error *)
| ValueError.

Inductive res (A : Type) : Type :=
| Ok (a : A)
| Raise (e : exn)
| OutOfFuel.

Arguments Ok {A} a.
Arguments Raise {A} e.
Arguments OutOfFuel {A}.

Definition bind {A B : Type} (m : res A) (k : A -> res B) : res B :=
  match m with
  | Ok a => k a
  | Raise e => Raise e
  | OutOfFuel => OutOfFuel
  end.

Notation "x <- m ;; k" := (bind m (fun x => k))
  (at level 61, m at next level, right associativity).
Notation "' p <- m ;; k" := (bind m (fun p => k))
  (at level 61, p pattern, m at next level, right associativity).

(** [data[a:b]] for non-negative [a], [b]: both ends are clamped to the
    length, and [b <= a] gives the empty slice. *)
Definition slice {A : Type} (data : list A) (a b : nat) : list A :=
  firstn (b - a) (skipn a data).

(** [data[i]] at an index the caller has checked to be in range. *)
Definition get (data : list byte) (i : nat) : byte := nth i data x00.

Definition int_of_byte (b : byte) : Z := Z.of_N (Byte.to_N b).

(** The byte of an integer already known to be in [0, 256). *)
Definition byte_of_int (z : Z) : byte :=
  match Byte.of_N (Z.to_N (z mod 256)) with
  | Some b => b
  | None => x00
  end.

(** [bytes([z])]: raises [ValueError] outside [range(256)]. *)
Definition bytes1 (z : Z) : res byte :=
  if ((0 <=? z) && (z <? 256))%Z then Ok (byte_of_int z) else Raise ValueError.

(** Little-endian and big-endian byte strings of a given width. *)
Fixpoint le_bytes (width : nat) (z : Z) : list byte :=
  match width with
  | O => []
  | S w => byte_of_int z :: le_bytes w (z / 256)
  end.

Definition be_bytes (width : nat) (z : Z) : list byte := rev (le_bytes width z).

Fixpoint le_value (l : list byte) : Z :=
  match l with
  | [] => 0
  | b :: l' => int_of_byte b + 256 * le_value l'
  end.

(** [struct.pack] of one unsigned field of [width] bytes: [struct.error]
    when the argument is out of range. *)
Definition pack_unsigned (big_endian : bool) (width : nat) (z : Z) : res (list byte) :=
  if ((0 <=? z) && (z <? 256 ^ Z.of_nat width))%Z
  then Ok (if big_endian then be_bytes width z else le_bytes width z)
  else Raise StructError.

(** [struct.unpack('<H', s)[0]]: [struct.error] unless [s] has two bytes. *)
Definition unpack_H (s : list byte) : res nat :=
  match s with
  | [lo; hi] => Ok (Byte.to_nat lo + 256 * Byte.to_nat hi)
  | _ => Raise StructError
  end.

(** [range(0, stop, step)] for a [stop] that Python computes as a possibly
    negative difference: the truncated subtraction of [nat] gives the same
    (empty) range there. *)
Definition range0 (stop step : nat) : list nat :=
  map (fun k => k * step) (seq 0 ((stop + step - 1) / step)).

(** ** crypto.py *)

Module Crypto.

Definition MAGIC_1 : Z := 0x618123462C14795C.
Definition MAGIC_2 : Z := 0x82800DF0.

(** [V380_KEY.encode()] *)
Definition V380_KEY : list byte := list_byte_of_string "macrovideo+*#!^@"%string.

(** [b.ljust(width, b"\x00")] *)
Definition ljust (b : list byte) (width : nat) : list byte :=
  b ++ repeat x00 (width - length b).

(** [key[i:j] = v] on a bytearray, for [i <= j <= len(key)]. *)
Definition slice_assign (key : list byte) (i j : nat) (v : list byte) : list byte :=
  firstn i key ++ v ++ skipn j key.

Definition generate_aes_key (handle : Z) : res (list byte) :=
  handle_bytes <- pack_unsigned false 4 handle ;;
  let key := firstn 16 (ljust handle_bytes 16) in
  m1 <- pack_unsigned false 8 MAGIC_1 ;;
  let key := slice_assign key 4 12 m1 in
  m2 <- pack_unsigned false 4 MAGIC_2 ;;
  let key := slice_assign key 12 16 m2 in
  Ok key.

(** [Crypto.Util.Padding.pad(data, 16)] (PKCS#7). *)
Definition pad (data : list byte) (block_size : nat) : list byte :=
  let padding_len := block_size - length data mod block_size in
  data ++ repeat (byte_of_int (Z.of_nat padding_len)) padding_len.

(** The data cut into consecutive blocks of [n] bytes (the last one may be
    shorter); [fuel] bounds the number of blocks. *)
Fixpoint blocks_fuel (fuel n : nat) (data : list byte) : list (list byte) :=
  match fuel, data with
  | _, [] => []
  | O, _ => [data]
  | S f, _ => firstn n data :: blocks_fuel f n (skipn n data)
  end.

Definition blocks (n : nat) (data : list byte) : list (list byte) :=
  blocks_fuel (length data) n data.

(** [generate_random_key]: sixteen characters drawn from [chars];
    [randbelow i n] is what the [i]-th [secrets.choice] draws below [n]. *)
Definition chars : list byte :=
  list_byte_of_string
    "abcdefghijklmnopqrstuvwxyzABCDEFGHIJKLMNOPQRSTUVWXYZ0123456789"%string.

Definition generate_random_key (randbelow : nat -> nat -> nat) : string :=
  string_of_list_byte
    (map (fun i => nth (randbelow i (length chars)) chars x00) (seq 0 16)).

Section AES.

(** The AES block primitives: key, then one 16-byte block. *)
Variable aes_encrypt_block : list byte -> list byte -> list byte.
Variable aes_decrypt_block : list byte -> list byte -> list byte.

(** [AES.new(key, AES.MODE_ECB)]: the cipher object is its key;
    [ValueError] for a key that is not 16, 24 or 32 bytes long. *)
Definition AES_new (key : list byte) : res (list byte) :=
  let n := length key in
  if (n =? 16) || (n =? 24) || (n =? 32) then Ok key else Raise ValueError.

(** [cipher.encrypt(data)] in ECB mode: [ValueError] unless the length is
    a multiple of the block size. *)
Definition ecb_encrypt (cipher : list byte) (data : list byte) : res (list byte) :=
  if length data mod 16 =? 0
  then Ok (concat (map (aes_encrypt_block cipher) (blocks 16 data)))
  else Raise ValueError.

Definition ecb_decrypt (cipher : list byte) (data : list byte) : res (list byte) :=
  if length data mod 16 =? 0
  then Ok (concat (map (aes_decrypt_block cipher) (blocks 16 data)))
  else Raise ValueError.

(** [base64.b64encode]: the alphabet and the 3-bytes-to-4-characters
    groups of RFC 4648, the last group padded with [=]. *)
Definition b64_alphabet : list byte :=
  list_byte_of_string
    "ABCDEFGHIJKLMNOPQRSTUVWXYZabcdefghijklmnopqrstuvwxyz0123456789+/"%string.

Definition b64_char (n : N) : byte := nth (N.to_nat n) b64_alphabet x00.

Definition b64_pad : byte := x3d.

Fixpoint b64encode (data : list byte) : list byte :=
  match data with
  | [] => []
  | [a] =>
      let n := (Byte.to_N a * 65536)%N in
      [b64_char (n / 262144); b64_char (n / 4096 mod 64); b64_pad; b64_pad]
  | [a; b] =>
      let n := (Byte.to_N a * 65536 + Byte.to_N b * 256)%N in
      [b64_char (n / 262144); b64_char (n / 4096 mod 64);
       b64_char (n / 64 mod 64); b64_pad]
  | a :: b :: c :: rest =>
      let n := (Byte.to_N a * 65536 + Byte.to_N b * 256 + Byte.to_N c)%N in
      b64_char (n / 262144) :: b64_char (n / 4096 mod 64)
        :: b64_char (n / 64 mod 64) :: b64_char (n mod 64) :: b64encode rest
  end.

Definition encrypt_password (password random_key : string) : res string :=
  (* First layer: encrypt with static V380 key *)
  let padded1 := pad (list_byte_of_string password) 16 in
  cipher1 <- AES_new V380_KEY ;;
  encrypted1 <- ecb_encrypt cipher1 padded1 ;;
  (* Second layer: encrypt with random key *)
  let padded2 := pad encrypted1 16 in
  cipher2 <- AES_new (list_byte_of_string random_key) ;;
  encrypted2 <- ecb_encrypt cipher2 padded2 ;;
  Ok (string_of_list_byte (b64encode encrypted2)).

End AES.

Section Cipher.

(** [cipher.decrypt] of the session's AES-ECB cipher object, on the
    16-byte blocks that the two routines below hand to it. *)
Variable cipher_decrypt : list byte -> list byte.

(** The [while pos < len(data)] loop of [decrypt_64_80]; the state is
    [(result, pos)]. *)
Fixpoint decrypt_64_80_loop (fuel : nat) (data result : list byte) (pos : nat)
  : res (list byte) :=
  if pos <? length data then
    match fuel with
    | O => OutOfFuel
    | S fuel' =>
        let remaining := length data - pos in
        if 64 <=? remaining then
          (* Decrypt 4 AES blocks (64 bytes) *)
          let result :=
            fold_left
              (fun result i =>
                 let block := slice data (pos + i * 16) (pos + i * 16 + 16) in
                 result ++ cipher_decrypt block)
              (seq 0 4) result in
          let pos := pos + 64 in
          (* Copy up to 16 bytes raw *)
          let raw_bytes := Nat.min 16 (length data - pos) in
          if 0 <? raw_bytes
          then decrypt_64_80_loop fuel' data
                 (result ++ slice data pos (pos + raw_bytes)) (pos + raw_bytes)
          else decrypt_64_80_loop fuel' data result pos
        else
          (* Remaining bytes pass through raw *)
          Ok (result ++ skipn pos data)
    end
  else Ok result.

Definition decrypt_64_80 (data : list byte) : res (list byte) :=
  decrypt_64_80_loop (length data) data [] 0.

Definition decrypt_audio (data : list byte) : list byte :=
  (* Decrypt complete 16-byte blocks *)
  let result :=
    fold_left
      (fun result i =>
         let block := slice data i (i + 16) in
         result ++ cipher_decrypt block)
      (range0 (length data - 15) 16) [] in
  (* Pass through remaining bytes *)
  let remaining := length data mod 16 in
  if 0 <? remaining
  then result ++ skipn (length data - remaining) data
  else result.

End Cipher.

End Crypto.

(** ** stream.py: the demultiplexer of [StreamRecorder] *)

Module Stream.

Definition HEADER_SIZE : nat := 12.

(** One collected fragment: [(cur_frame, payload)]. *)
Definition chunk : Type := (nat * list byte)%type.

(** The frame reassembly state of a [StreamRecorder].  The dictionary
    [_frame_chunks] is only ever read, written and popped at the literal key
    ['current']; [frame_chunks] is its entry at that key. *)
Record recorder : Type := {
  frame_chunks : option (list chunk);
  current_frame_start : option nat;
  current_total : nat;
  current_is_iframe : bool
}.

(** [StreamRecorder.__init__] *)
Definition init : recorder :=
  {| frame_chunks := None; current_frame_start := None;
     current_total := 0; current_is_iframe := false |}.

(** The local variables of [_process_stream_data] that live across the
    iterations of its loop, with the recorder's fields. *)
Record cursor : Type := {
  pos : nat;
  self : recorder;
  video_result : list byte;
  audio_result : list byte
}.

(** What an iteration of the loop ends with: falling through to the next
    test of the loop condition ([continue] included), or [break]. *)
Inductive flow : Type :=
| Next (c : cursor)
| Break (c : cursor).

(** [chunks.sort(key=lambda x: x[0])]: Python's sort is stable, so the
    result is that of a stable insertion sort on the key. *)
Fixpoint insert_chunk (c : chunk) (l : list chunk) : list chunk :=
  match l with
  | [] => [c]
  | d :: l' => if fst c <=? fst d then c :: l else d :: insert_chunk c l'
  end.

Fixpoint sort_chunks (l : list chunk) : list chunk :=
  match l with
  | [] => []
  | c :: l' => insert_chunk c (sort_chunks l')
  end.

(** The [for cur_frame, payload in chunks] loop of [_decrypt_frame]. *)
Definition reassemble (chunks : list chunk) : list byte :=
  fold_left
    (fun frame_data (c : chunk) =>
       let (cur_frame, payload) := c in
       if cur_frame =? 0
       then frame_data ++ skipn 16 payload   (* Skip metadata *)
       else frame_data ++ payload)
    chunks [].

Section Recorder.

Variable cipher_decrypt : list byte -> list byte.   (* self.client.cipher *)

(** [_decrypt_frame].  The sort is in place in the source; every caller
    pops the list from [_frame_chunks] right after the call, so the
    reordering is never observed again. *)
Definition _decrypt_frame (chunks : list chunk) (is_iframe : bool) : res (list byte) :=
  let chunks := sort_chunks chunks in
  let frame_data := reassemble chunks in
  if is_iframe || (64 <=? length frame_data)
  then Crypto.decrypt_64_80 cipher_decrypt frame_data
  else Ok frame_data.

Definition is_video_kind (b : byte) : bool := Byte.eqb b x28 || Byte.eqb b x29.

(** The body of the video branch once the whole packet is in the buffer
    (lines 190-217): the recorder and [video_result] after the packet. *)
Definition video_packet (r : recorder) (video : list byte) (at_pos : nat)
    (is_iframe : bool) (total_frame cur_frame : nat) (payload : list byte)
  : res (recorder * list byte) :=
  if cur_frame =? 0 then
    (* Process previous complete frame *)
    video <-
      match current_frame_start r, frame_chunks r with
      | Some _, Some cur =>
          if current_total r <=? length cur
          then decrypted <- _decrypt_frame cur (current_is_iframe r) ;;
               Ok (video ++ decrypted)
          else Ok video
          (* the pop that follows is overwritten by the new frame below *)
      | _, _ => Ok video
      end ;;
    (* Start new frame *)
    Ok ({| frame_chunks := Some [(cur_frame, payload)];
           current_frame_start := Some at_pos;
           current_total := total_frame;
           current_is_iframe := is_iframe |}, video)
  else
    match frame_chunks r with
    | Some cur =>
        let cur := cur ++ [(cur_frame, payload)] in
        if current_total r <=? length cur then
          decrypted <- _decrypt_frame cur (current_is_iframe r) ;;
          Ok ({| frame_chunks := None;
                 current_frame_start := None;
                 current_total := current_total r;
                 current_is_iframe := current_is_iframe r |},
              video ++ decrypted)
        else
          Ok ({| frame_chunks := Some cur;
                 current_frame_start := current_frame_start r;
                 current_total := current_total r;
                 current_is_iframe := current_is_iframe r |}, video)
    | None => Ok (r, video)
    end.

(** One iteration of [while pos < len(data)]. *)
Definition loop_body (data : list byte) (record_audio : bool) (c : cursor) : res flow :=
  let p := pos c in
  if Byte.eqb (get data p) x7f && (p + 1 <? length data)
     && is_video_kind (get data (p + 1)) then
    (* Video packet (0x7f28 = I-frame, 0x7f29 = P-frame) *)
    if length data <? p + HEADER_SIZE then Ok (Break c) else
    let is_iframe := Byte.eqb (get data (p + 1)) x28 in
    total_frame <- unpack_H (slice data (p + 3) (p + 5)) ;;
    cur_frame <- unpack_H (slice data (p + 5) (p + 7)) ;;
    pkt_len <- unpack_H (slice data (p + 7) (p + 9)) ;;
    let packet_end := p + HEADER_SIZE + pkt_len in
    if length data <? packet_end then Ok (Break c) else
    let payload := slice data (p + 12) packet_end in
    '(r, video) <-
      video_packet (self c) (video_result c) p is_iframe total_frame cur_frame payload ;;
    Ok (Next {| pos := packet_end; self := r;
                video_result := video; audio_result := audio_result c |})
  else if Byte.eqb (get data p) x7f && (p + 1 <? length data)
          && Byte.eqb (get data (p + 1)) x18 then
    (* Audio packet (0x7f18) *)
    if length data <? p + HEADER_SIZE then Ok (Break c) else
    total_frame <- unpack_H (slice data (p + 3) (p + 5)) ;;
    cur_frame <- unpack_H (slice data (p + 5) (p + 7)) ;;
    pkt_len <- unpack_H (slice data (p + 7) (p + 9)) ;;
    let packet_end := p + HEADER_SIZE + pkt_len in
    (* Sanity check for false audio headers *)
    if (1000 <? pkt_len) || (10 <? total_frame) || (length data <? packet_end) then
      Ok (Next {| pos := p + 1; self := self c;
                  video_result := video_result c; audio_result := audio_result c |})
    else if negb record_audio then
      Ok (Next {| pos := packet_end; self := self c;
                  video_result := video_result c; audio_result := audio_result c |})
    else
      let audio_payload := slice data (p + 12) packet_end in
      let audio_payload :=
        if (cur_frame =? 0) && (16 <? length audio_payload)
        then skipn 16 audio_payload   (* Skip metadata *)
        else audio_payload in
      let decrypted := Crypto.decrypt_audio cipher_decrypt audio_payload in
      Ok (Next {| pos := packet_end; self := self c;
                  video_result := video_result c;
                  audio_result := audio_result c ++ decrypted |})
  else
    Ok (Next {| pos := p + 1; self := self c;
                video_result := video_result c; audio_result := audio_result c |}).

Fixpoint process_loop (fuel : nat) (data : list byte) (record_audio : bool) (c : cursor)
  : res cursor :=
  if pos c <? length data then
    match fuel with
    | O => OutOfFuel
    | S fuel' =>
        f <- loop_body data record_audio c ;;
        match f with
        | Next c' => process_loop fuel' data record_audio c'
        | Break c' => Ok c'
        end
    end
  else Ok c.

(** Lines 251-260: process any remaining complete frame. *)
Definition final_flush (r : recorder) (video : list byte) : res (recorder * list byte) :=
  match current_frame_start r, frame_chunks r with
  | Some _, Some cur =>
      if current_total r <=? length cur then
        decrypted <- _decrypt_frame cur (current_is_iframe r) ;;
        Ok ({| frame_chunks := None;
               current_frame_start := None;
               current_total := current_total r;
               current_is_iframe := current_is_iframe r |},
            video ++ decrypted)
      else Ok (r, video)
  | _, _ => Ok (r, video)
  end.

(** [_process_stream_data]: the returned triple [(video, audio, data[pos:])]
    and the recorder after the call. *)
Definition _process_stream_data (r : recorder) (data : list byte) (record_audio : bool)
  : res ((list byte * list byte * list byte) * recorder) :=
  c <- process_loop (length data) data record_audio
         {| pos := 0; self := r; video_result := []; audio_result := [] |} ;;
  '(r', video) <- final_flush (self c) (video_result c) ;;
  Ok ((video, audio_result c, skipn (pos c) data), r').



End Recorder.

End Stream.

(** ** rtsp_server.py: [RTPPacketizer] *)

Module Rtsp.

Record RTPPacketizer : Type := {
  ssrc : Z;
  sequence : Z;
  timestamp : Z;
  payload_type : Z
}.

Definition max_payload : nat := 1400.

(** [_make_rtp_packet]: the packet, and the packetizer with its sequence
    number advanced.  [struct.pack('>BBHII', ...)] has no padding. *)
Definition _make_rtp_packet (self : RTPPacketizer) (payload : list byte) (marker : bool)
  : res (list byte * RTPPacketizer) :=
  let byte0 := 0x80%Z in
  let byte1 := Z.lor (if marker then 0x80 else 0) (payload_type self) in
  f0 <- pack_unsigned true 1 byte0 ;;
  f1 <- pack_unsigned true 1 byte1 ;;
  f2 <- pack_unsigned true 2 (Z.land (sequence self) 0xFFFF) ;;
  f3 <- pack_unsigned true 4 (Z.land (timestamp self) 0xFFFFFFFF) ;;
  f4 <- pack_unsigned true 4 (ssrc self) ;;
  let header := f0 ++ f1 ++ f2 ++ f3 ++ f4 in
  let self := {| ssrc := ssrc self;
                 sequence := Z.land (sequence self + 1) 0xFFFF;
                 timestamp := timestamp self;
                 payload_type := payload_type self |} in
  Ok (header ++ payload, self).

(** The [while offset < len(nal_data)] loop of the fragmentation branch. *)
Fixpoint fu_loop (fuel : nat) (nal_data : list byte) (is_last : bool)
    (nal_type fu_header1 fu_header2 : Z)
    (offset : nat) (first : bool) (packets : list (list byte)) (self : RTPPacketizer)
  : res (list (list byte) * RTPPacketizer) :=
  if offset <? length nal_data then
    match fuel with
    | O => OutOfFuel
    | S fuel' =>
        let chunk_size := Nat.min (max_payload - 3) (length nal_data - offset) in
        let last_fragment := length nal_data <=? offset + chunk_size in
        i1 <- bytes1 fu_header1 ;;
        i2 <- bytes1 fu_header2 ;;
        let fu_indicator := [i1; i2] in
        let fu_type := nal_type in
        let fu_header :=
          if first then Z.lor 0x80 fu_type
          else if last_fragment then Z.lor 0x40 fu_type
          else fu_type in
        h <- bytes1 fu_header ;;
        let payload :=
          fu_indicator ++ [h] ++ slice nal_data offset (offset + chunk_size) in
        '(packet, self) <- _make_rtp_packet self payload (is_last && last_fragment) ;;
        fu_loop fuel' nal_data is_last nal_type fu_header1 fu_header2
          (offset + chunk_size) false (packets ++ [packet]) self
    end
  else Ok (packets, self).

Definition packetize_nal (self : RTPPacketizer) (nal_data : list byte) (is_last : bool)
  : res (list (list byte) * RTPPacketizer) :=
  if length nal_data <=? max_payload then
    '(packet, self) <- _make_rtp_packet self nal_data is_last ;;
    Ok ([packet], self)
  else
    let nal_type := Z.land (Z.shiftr (int_of_byte (get nal_data 0)) 1) 0x3F in
    let fu_header1 := Z.lor (Z.land (int_of_byte (get nal_data 0)) 0x81) (Z.shiftl 49 1) in
    let fu_header2 := int_of_byte (get nal_data 1) in
    fu_loop (length nal_data) nal_data is_last nal_type fu_header1 fu_header2
      2 true [] self.

(** [advance_timestamp] (90 kHz clock). *)
Definition advance_timestamp (self : RTPPacketizer) (ticks : Z) : RTPPacketizer :=
  {| ssrc := ssrc self;
     sequence := sequence self;
     timestamp := Z.land (timestamp self + ticks) 0xFFFFFFFF;
     payload_type := payload_type self |}.

(** [a == b] on [bytes]. *)
Fixpoint bytes_eqb (a b : list byte) : bool :=
  match a, b with
  | [], [] => true
  | x :: a', y :: b' => Byte.eqb x y && bytes_eqb a' b'
  | _, _ => false
  end.

Definition start_code4 : list byte := [x00; x00; x00; x01].
Definition start_code3 : list byte := [x00; x00; x01].

(** The inner loop of [RTSPServer._parse_nal_units]: from [j], the first
    position that starts a start code, or [len(data)].  The source tests
    [j < len(data) - 3] on integers; [j + 3 < len(data)] is the same test
    without the negative difference. *)
Fixpoint find_end (fuel : nat) (data : list byte) (j : nat) : res nat :=
  if j + 3 <? length data then
    match fuel with
    | O => OutOfFuel
    | S fuel' =>
        if bytes_eqb (slice data j (j + 4)) start_code4
           || bytes_eqb (slice data j (j + 3)) start_code3
        then Ok j
        else find_end fuel' data (j + 1)
    end
  else Ok (length data).

(** The outer loop of [_parse_nal_units]; the state is [(i, nal_units)]. *)
Fixpoint parse_nal_loop (fuel : nat) (data : list byte) (i : nat)
    (nal_units : list (list byte)) : res (list (list byte)) :=
  if i + 4 <? length data then
    match fuel with
    | O => OutOfFuel
    | S fuel' =>
        let after (start i : nat) :=
          end_ <- find_end (length data) data i ;;
          let nal_units :=
            if start <? end_ then nal_units ++ [slice data start end_] else nal_units in
          parse_nal_loop fuel' data end_ nal_units in
        if bytes_eqb (slice data i (i + 4)) start_code4 then after (i + 4) (i + 4)
        else if bytes_eqb (slice data i (i + 3)) start_code3 then after (i + 3) (i + 3)
        else parse_nal_loop fuel' data (i + 1) nal_units
    end
  else Ok nal_units.

(** [RTSPServer._parse_nal_units] *)
Definition _parse_nal_units (data : list byte) : res (list (list byte)) :=
  parse_nal_loop (length data) data 0 [].

Section Server.

(** A streaming client, [(client_sock, rtp_sock, client_addr, rtp_port)]. *)
Variable client : Type.

(** The network: whether [rtp_sock.sendto(packet, ...)] to this client
    returns; it raises otherwise. *)
Variable sendto : client -> list byte -> bool.

(** The fields of an [RTSPServer] that [send_frame] uses. *)
Record RTSPServer : Type := {
  clients : list client;
  packetizer : RTPPacketizer
}.

(** [for packet in packets: rtp_sock.sendto(...)]: what has been sent, and
    whether the loop ran to its end. *)
Fixpoint send_packets (c : client) (packets : list (list byte))
    (sent : list (client * list byte)) : list (client * list byte) * bool :=
  match packets with
  | [] => (sent, true)
  | packet :: rest =>
      if sendto c packet then send_packets c rest (sent ++ [(c, packet)])
      else (sent, false)
  end.

(** [for j, nal in enumerate(nal_units)] for one client, inside [try]:
    [n] is [len(nal_units)].  [packetize_nal] can only raise on the first
    packet it makes, before it touches the packetizer. *)
Fixpoint send_nals (c : client) (n : nat) (nal_units : list (list byte)) (j : nat)
    (p : RTPPacketizer) (sent : list (client * list byte))
  : RTPPacketizer * list (client * list byte) * bool :=
  match nal_units with
  | [] => (p, sent, true)
  | nal :: rest =>
      let is_last := j =? n - 1 in
      match packetize_nal p nal is_last with
      | Ok (packets, p') =>
          let '(sent, ok) := send_packets c packets sent in
          if ok then send_nals c n rest (S j) p' sent else (p', sent, false)
      | _ => (p, sent, false)
      end
  end.

(** [for i, (...) in enumerate(self.clients)], with [except Exception:
    dead_clients.append(i)]. *)
Fixpoint send_clients (cs : list client) (i : nat) (nal_units : list (list byte))
    (p : RTPPacketizer) (sent : list (client * list byte)) (dead_clients : list nat)
  : RTPPacketizer * list (client * list byte) * list nat :=
  match cs with
  | [] => (p, sent, dead_clients)
  | c :: rest =>
      let '(p, sent, ok) := send_nals c (length nal_units) nal_units 0 p sent in
      send_clients rest (S i) nal_units p sent
        (if ok then dead_clients else dead_clients ++ [i])
  end.

(** [for i in reversed(dead_clients): self.clients.pop(i)] *)
Definition remove_dead (cs : list client) (dead_clients : list nat) : list client :=
  fold_left (fun cs i => firstn i cs ++ skipn (S i) cs) (rev dead_clients) cs.

(** [send_frame]: the server afterwards and the datagrams sent, in order.
    Closing the sockets of the dead clients is left out. *)
Definition send_frame (self : RTSPServer) (frame_data : list byte)
  : res (RTSPServer * list (client * list byte)) :=
  match clients self with
  | [] => Ok (self, [])
  | _ :: _ =>
      nal_units <- _parse_nal_units frame_data ;;
      let '(p, sent, dead_clients) :=
        send_clients (clients self) 0 nal_units (packetizer self) [] [] in
      Ok ({| clients := remove_dead (clients self) dead_clients;
             packetizer := advance_timestamp p 3600 |}, sent)
  end.

End Server.

End Rtsp.

(** ** client.py: the packets of [V380Client] *)

Module Client.

(** [struct.unpack('<I', s)[0]] and [struct.unpack('<i', s)[0]]:
    [struct.error] unless [s] has four bytes. *)
Definition unpack_I (s : list byte) : res Z :=
  if length s =? 4 then Ok (le_value s) else Raise StructError.

Definition unpack_i (s : list byte) : res Z :=
  if length s =? 4
  then Ok (let v := le_value s in if (v <? 2 ^ 31)%Z then v else (v - 2 ^ 32)%Z)
  else Raise StructError.

(** The decimal digits of a natural number, most significant first. *)
Fixpoint digits_fuel (fuel : nat) (n : N) : list byte :=
  match fuel with
  | O => []
  | S f =>
      if (n <? 10)%N then [byte_of_int (48 + Z.of_N n)]
      else digits_fuel f (n / 10) ++ [byte_of_int (48 + Z.of_N (n mod 10))]
  end.

(** [str(z).encode()] for an integer [z]; a number has no more decimal
    digits than binary ones. *)
Definition str_of_int (z : Z) : list byte :=
  if (z <? 0)%Z
  then x2d :: digits_fuel (S (N.to_nat (N.size (Z.to_N (- z))))) (Z.to_N (- z))
  else digits_fuel (S (N.to_nat (N.size (Z.to_N z)))) (Z.to_N z).

(** The fields of a [V380Client] that the packets are built from; the
    cipher object is its key, as in [Crypto.AES_new]. *)
Record V380Client : Type := {
  device_id : Z;
  stream_port : Z;
  session : option Z;
  handle : option Z;
  aes_key : option (list byte);
  cipher : option (list byte)
}.

(** [self.domain.encode()] *)
Definition domain (self : V380Client) : list byte :=
  str_of_int (device_id self) ++ list_byte_of_string ".nvdvr.net"%string.

Definition is_connected (self : V380Client) : bool :=
  match session self, handle self with
  | Some _, Some _ => true
  | _, _ => false
  end.

(** The packet that [register] sends (lines 105-109). *)
Definition register_packet (self : V380Client) : res (list byte) :=
  let domain := Crypto.ljust (domain self) 48 in
  a <- pack_unsigned false 4 0x00ac ;;
  b <- pack_unsigned false 4 0x03f4 ;;
  let packet := (a ++ b) ++ domain in
  p <- pack_unsigned false 4 (stream_port self) ;;
  let packet := packet ++ p in
  d <- pack_unsigned false 4 (device_id self) ;;
  let packet := packet ++ d in
  Ok (Crypto.ljust packet 64).

(** What [register] makes of the response (lines 115-122, 130). *)
Definition register_reply (response : list byte) : res bool :=
  if 8 <=? length response then
    status <- unpack_I (slice response 4 8) ;;
    if (status =? 1)%Z then Ok true else Ok false
  else Ok false.

(** [register], given the bytes that [recv] returns: the packet sent, if
    any, and the result.  Any exception in the [try] block gives [False];
    those of the socket calls are not modelled. *)
Definition register (self : V380Client) (response : list byte)
  : option (list byte) * bool :=
  match register_packet self with
  | Ok packet =>
      (Some packet,
       match register_reply response with
       | Ok b => b
       | _ => false
       end)
  | _ => (None, false)
  end.

(** The first two lines of [login]: the random key and the encrypted
    password that go into the request. *)
Definition login_password (randbelow : nat -> nat -> nat)
    (aes_encrypt_block : list byte -> list byte -> list byte) (password : string)
  : res (string * string) :=
  let random_key := Crypto.generate_random_key randbelow in
  encrypted_pass <- Crypto.encrypt_password aes_encrypt_block password random_key ;;
  Ok (encrypted_pass, random_key).

(** [set_handle], and lines 166-167 of [login]. *)
Definition set_handle (self : V380Client) (handle : Z) : res V380Client :=
  aes_key <- Crypto.generate_aes_key handle ;;
  cipher <- Crypto.AES_new aes_key ;;
  Ok {| device_id := device_id self; stream_port := stream_port self;
        session := session self; handle := Some handle;
        aes_key := Some aes_key; cipher := Some cipher |}.

(** The frame of [_send_json_rpc] around the serialized request
    (lines 207-208). *)
Definition json_rpc_packet (json_bytes : list byte) : res (list byte) :=
  let length := length json_bytes in
  l <- pack_unsigned false 2 (Z.of_nat length) ;;
  Ok ([x00; x03; x00; xfe] ++ l ++ [x00; x00] ++ json_bytes).

(** Decoded text is a list of code points. *)
Definition open_brace : N := 123.
Definition close_brace : N := 125.

(** [text.find('{')] *)
Fixpoint find_open (text : list N) (i : nat) : option nat :=
  match text with
  | [] => None
  | c :: rest => if (c =? open_brace)%N then Some i else find_open rest (S i)
  end.

(** The [for i, c in enumerate(text[start:])] loop of [_send_json_rpc]:
    the index [i] at which the depth comes back to 0. *)
Fixpoint match_brace (rest : list N) (i : nat) (depth : Z) : option nat :=
  match rest with
  | [] => None
  | c :: rest' =>
      if (c =? open_brace)%N then match_brace rest' (S i) (depth + 1)
      else if (c =? close_brace)%N then
        let depth := (depth - 1)%Z in
        if (depth =? 0)%Z then Some i else match_brace rest' (S i) depth
      else match_brace rest' (S i) depth
  end.

(** The text handed to [json.loads], if any (lines 215-224). *)
Definition json_text (text : list N) : option (list N) :=
  match find_open text 0 with
  | Some start =>
      match match_brace (skipn start text) 0 0 with
      | Some i => Some (slice text start (start + i + 1))
      | None => None
      end
  | None => None
  end.

(** The device request of [create_stream_socket] (lines 249-253). *)
Definition stream_request (self : V380Client) : res (list byte) :=
  match handle self, session self with
  | Some handle, Some session =>
      let domain := Crypto.ljust (domain self) 48 in
      a <- pack_unsigned false 4 0x012d ;;
      b <- pack_unsigned false 4 0x03ea ;;
      let packet := (a ++ b) ++ domain in
      h1 <- pack_unsigned false 2 0x0000 ;;
      h2 <- pack_unsigned false 2 0x13ba ;;
      h3 <- pack_unsigned false 2 0x0000 ;;
      let packet := packet ++ (h1 ++ h2 ++ h3) in
      d <- pack_unsigned false 4 (device_id self) ;;
      h <- pack_unsigned false 4 handle ;;
      s <- pack_unsigned false 4 session ;;
      let packet := packet ++ (d ++ h ++ s) in
      Ok (Crypto.ljust packet 256)
  | _, _ => Raise StructError   (* struct.pack of None *)
  end.

(** Whether the response passes the two checks (lines 258-267). *)
Definition stream_reply (response : list byte) : res bool :=
  if (length response <? 12) || negb (Rtsp.bytes_eqb (slice response 0 2) [x91; x01])
  then Ok false
  else
    status <- unpack_i (slice response 8 12) ;;
    if negb (status =? 4)%Z then Ok false else Ok true.

Definition init_packet : list byte :=
  [x2f; x01; x00; x00; x01; x30; x00; x00; x00; x00; x00; x00; x00; x00; x00; x00]
    ++ repeat x00 (256 - 16).

Definition keepalive : list byte :=
  [x01; x21; x00; x00; x00; x00; x00; x00; x00; x10; x00; x00; x00; x00; x00; x00].

(** [create_stream_socket], given the bytes that [recv] returns: the
    packets sent, and whether a socket is returned. *)
Definition create_stream_socket (self : V380Client) (response : list byte)
  : list (list byte) * bool :=
  if negb (is_connected self) then ([], false)
  else
    match stream_request self with
    | Ok packet =>
        match stream_reply response with
        | Ok true => ([packet; init_packet; keepalive], true)
        | _ => ([packet], false)
        end
    | _ => ([], false)
    end.

End Client.

(** ** Definitions used to state the properties

    They describe the other side of each interface: the camera's wire format
    (section 3 of the specification), the receiver of the password and of the
    RTP packets, and a stand-in block cipher for the closed examples. *)

Module Spec.

Import Crypto.

(** *** The 64/80 pattern as the specification words it *)

Section Windows.

Variable cipher_decrypt : list byte -> list byte.

(** AES-ECB decryption of 64 bytes: four 16-byte blocks. *)
Definition ecb4 (d : list byte) : list byte :=
  cipher_decrypt (slice d 0 16) ++ cipher_decrypt (slice d 16 32)
    ++ cipher_decrypt (slice d 32 48) ++ cipher_decrypt (slice d 48 64).

(** For every 80-byte window, decrypt the first 64 bytes as four ECB blocks
    and leave the next 16 bytes untouched; a final window of fewer than 64
    bytes passes through unchanged. *)
Fixpoint windows_fuel (fuel : nat) (data : list byte) : list byte :=
  match fuel with
  | O => data
  | S f =>
      if 64 <=? length data
      then ecb4 (firstn 64 data) ++ firstn 16 (skipn 64 data)
             ++ windows_fuel f (skipn 80 data)
      else data
  end.

Definition windows (data : list byte) : list byte :=
  windows_fuel (length data) data.

End Windows.

(** A block function that stands for the cipher in closed examples: it
    reverses the block (a length-preserving involution). *)
Definition demo_cipher (block : list byte) : list byte := rev block.

Definition demo_block (key block : list byte) : list byte := rev block.

(** *** The camera's packets on the wire *)

Definition byte_of_nat (n : nat) : byte :=
  match Byte.of_nat n with
  | Some b => b
  | None => x00
  end.

(** A little-endian u16. *)
Definition pack_H (n : nat) : list byte :=
  [byte_of_nat (n mod 256); byte_of_nat (n / 256)].

Record packet : Type := {
  kind : byte;                 (* 0x28 I-frame, 0x29 P-frame, 0x18 audio *)
  reserved2 : byte;
  total_fragments : nat;
  fragment_index : nat;
  reserved9 : byte;
  reserved10 : byte;
  reserved11 : byte;
  payload : list byte
}.

(** The 12-byte header followed by the payload. *)
Definition encode (p : packet) : list byte :=
  [x7f; kind p; reserved2 p]
    ++ pack_H (total_fragments p) ++ pack_H (fragment_index p)
    ++ pack_H (length (payload p))
    ++ [reserved9 p; reserved10 p; reserved11 p]
    ++ payload p.

(** The three u16 fields fit. *)
Definition fits (p : packet) : bool :=
  (total_fragments p <? 256 * 256) && (fragment_index p <? 256 * 256)
  && (length (payload p) <? 256 * 256).

Definition is_video (p : packet) : bool :=
  fits p && Stream.is_video_kind (kind p).

(** An audio packet that passes the parser's sanity gate. *)
Definition is_audio (p : packet) : bool :=
  fits p && Byte.eqb (kind p) x18
  && (length (payload p) <=? 1000) && (total_fragments p <=? 10).

(** The bytes look like the start of a video packet, but the 12-byte header
    or the payload it declares extends past the end of the buffer. *)
Definition truncated_video (tl : list byte) : bool :=
  match tl with
  | b0 :: b1 :: _ =>
      Byte.eqb b0 x7f && Stream.is_video_kind b1
      && ((length tl <? 12)
          || (length tl <? 12 + (Byte.to_nat (get tl 7) + 256 * Byte.to_nat (get tl 8))))
  | _ => false
  end.

(** The payload of the fragment numbered [i]. *)
Definition payload_at (frags : list packet) (i : nat) : list byte :=
  match find (fun p => fragment_index p =? i) frags with
  | Some p => payload p
  | None => []
  end.

(** The bytes of a frame given by its fragment 0 and its other fragments
    (numbered 1, 2, ...): the payloads in the order of [fragment_index],
    with the 16-byte metadata prefix of fragment 0 removed. *)
Definition frame_data (first : packet) (others : list packet) : list byte :=
  skipn 16 (payload first)
    ++ concat (map (payload_at others) (seq 1 (length others))).

(** The decryption rule of a reassembled frame. *)
Definition emit (cipher_decrypt : list byte -> list byte)
    (is_iframe : bool) (frame : list byte) : list byte :=
  if is_iframe || (64 <=? length frame)
  then windows cipher_decrypt frame
  else frame.

(** What closing the recorder's open frame emits: the frame when it has
    all its fragments, nothing otherwise (or when no frame is open). *)
Definition pending (cipher_decrypt : list byte -> list byte)
    (r : Stream.recorder) : list byte :=
  match Stream.current_frame_start r, Stream.frame_chunks r with
  | Some _, Some cur =>
      if Stream.current_total r <=? length cur
      then emit cipher_decrypt (Stream.current_is_iframe r)
             (Stream.reassemble (Stream.sort_chunks cur))
      else []
  | _, _ => []
  end.

(** The recorder once a frame has been emitted. *)
Definition closed (total : nat) (is_iframe : bool) : Stream.recorder :=
  {| Stream.frame_chunks := None;
     Stream.current_frame_start := None;
     Stream.current_total := total;
     Stream.current_is_iframe := is_iframe |}.

(** *** The receiver of the password *)

(** [Crypto.Util.Padding.unpad(padded, block_size)] (PKCS#7). *)
Definition unpad (padded : list byte) (block_size : nat) : res (list byte) :=
  let n := length padded in
  if n =? 0 then Raise ValueError
  else if negb (n mod block_size =? 0) then Raise ValueError
  else
    let padding_len := Byte.to_nat (last padded x00) in
    if (padding_len <? 1) || (Nat.min block_size n <? padding_len)
    then Raise ValueError
    else if negb (forallb (Byte.eqb (last padded x00)) (skipn (n - padding_len) padded))
    then Raise ValueError
    else Ok (firstn (n - padding_len) padded).

Fixpoint b64_find (c : byte) (alphabet : list byte) (i : N) : option N :=
  match alphabet with
  | [] => None
  | x :: rest => if Byte.eqb c x then Some i else b64_find c rest (N.succ i)
  end.

Definition b64_index (c : byte) : option N := b64_find c b64_alphabet 0%N.

Definition byte_of_N (n : N) : byte := byte_of_int (Z.of_N n).

(** [base64.b64decode] on well-padded input: groups of four characters give
    three bytes; the last group may end in one or two [=]. *)
Fixpoint b64decode (s : list byte) : res (list byte) :=
  match s with
  | [] => Ok []
  | c0 :: c1 :: c2 :: c3 :: rest =>
      match b64_index c0, b64_index c1 with
      | Some s0, Some s1 =>
          if Byte.eqb c3 b64_pad then
            match rest with
            | [] =>
                if Byte.eqb c2 b64_pad then
                  let m := (s0 * 262144 + s1 * 4096)%N in
                  Ok [byte_of_N (m / 65536)]
                else
                  match b64_index c2 with
                  | Some s2 =>
                      let m := (s0 * 262144 + s1 * 4096 + s2 * 64)%N in
                      Ok [byte_of_N (m / 65536); byte_of_N (m / 256 mod 256)]
                  | None => Raise ValueError
                  end
            | _ :: _ => Raise ValueError
            end
          else
            match b64_index c2, b64_index c3 with
            | Some s2, Some s3 =>
                let m := (s0 * 262144 + s1 * 4096 + s2 * 64 + s3)%N in
                tail <- b64decode rest ;;
                Ok (byte_of_N (m / 65536) :: byte_of_N (m / 256 mod 256)
                      :: byte_of_N (m mod 256) :: tail)
            | _, _ => Raise ValueError
            end
      | _, _ => Raise ValueError
      end
  | _ => Raise ValueError
  end.

(** What the specification does with the output of [encrypt_password]: base64
    decoding, AES-ECB decryption under the random key, PKCS#7 unpadding,
    AES-ECB decryption under the fixed key, PKCS#7 unpadding. *)
Definition decrypt_password
    (aes_decrypt_block : list byte -> list byte -> list byte)
    (encrypted random_key : string) : res (list byte) :=
  encrypted2 <- b64decode (list_byte_of_string encrypted) ;;
  cipher2 <- AES_new (list_byte_of_string random_key) ;;
  padded2 <- ecb_decrypt aes_decrypt_block cipher2 encrypted2 ;;
  encrypted1 <- unpad padded2 16 ;;
  cipher1 <- AES_new V380_KEY ;;
  padded1 <- ecb_decrypt aes_decrypt_block cipher1 encrypted1 ;;
  unpad padded1 16.

(** *** The receiver of the RTP packets *)

(** The payload of an RTP packet: what follows the 12-byte header. *)
Definition rtp_payload (packet : list byte) : list byte := skipn 12 packet.

(** A fragmentation unit with indicator bytes [i1], [i2] and NAL type [t]:
    the two indicator bytes, the FU header carrying the type in its low six
    bits, then at most 1397 bytes of data. *)
Definition is_fu_fragment (i1 i2 : byte) (t : Z) (payload : list byte) : Prop :=
  exists h data,
    payload = i1 :: i2 :: h :: data
    /\ Z.land (int_of_byte h) 0x3F = t
    /\ length data <= 1397.

(** Depacketizing the fragmentation units of one NAL unit: the first two
    NAL bytes are rebuilt from the F and layer bits of the FU indicator and
    the NAL type of the FU header, then the data of the fragments follows in
    order. *)
Definition depacketize_fu (payloads : list (list byte)) : list byte :=
  match payloads with
  | [] => []
  | p :: _ =>
      let indicator0 := int_of_byte (get p 0) in
      let indicator1 := get p 1 in
      let nal_type := Z.land (int_of_byte (get p 2)) 0x3F in
      byte_of_int (Z.lor (Z.land indicator0 0x81) (Z.shiftl nal_type 1))
        :: indicator1 :: concat (map (skipn 3) payloads)
  end.

(** *** Reading RTP packets and Annex B streams *)

Definition be_value (l : list byte) : Z := le_value (rev l).

(** The sequence number field of an RTP packet (bytes 2..4, big-endian). *)
Definition rtp_sequence (packet : list byte) : Z := be_value (slice packet 2 4).

(** The marker bit of an RTP packet (the top bit of byte 1). *)
Definition rtp_marker (packet : list byte) : bool :=
  Z.testbit (int_of_byte (get packet 1)) 7.

(** The S and E bits of the FU header (the third payload byte). *)
Definition fu_start_bit (packet : list byte) : bool :=
  Z.testbit (int_of_byte (get (rtp_payload packet) 2)) 7.

Definition fu_end_bit (packet : list byte) : bool :=
  Z.testbit (int_of_byte (get (rtp_payload packet) 2)) 6.

(** The number of fragments of a NAL unit of [len > 1400] bytes: the bytes
    after the two header bytes, 1397 at a time. *)
Definition fu_count (len : nat) : nat := (len - 2 + 1396) / 1397.

(** The 12-byte header of the packet sent with sequence number [sequence]. *)
Definition rtp_header (self : Rtsp.RTPPacketizer) (sequence : Z) (marker : bool)
  : list byte :=
  [x80; if marker then xe0 else x60]
    ++ be_bytes 2 (sequence mod 65536)
    ++ be_bytes 4 (Rtsp.timestamp self mod 4294967296)
    ++ be_bytes 4 (Rtsp.ssrc self).

(** Fragment [k] of the [n] fragments of [nal_data], as
    [packetize_nal] sends it. *)
Definition fu_packet (self : Rtsp.RTPPacketizer) (nal_data : list byte)
    (is_last : bool) (n k : nat) : list byte :=
  let b0 := int_of_byte (get nal_data 0) in
  let nal_type := Z.land (Z.shiftr b0 1) 0x3F in
  rtp_header self (Rtsp.sequence self + Z.of_nat k) (is_last && (k =? n - 1))
    ++ [byte_of_int (Z.lor (Z.land b0 0x81) (Z.shiftl 49 1)); get nal_data 1;
        byte_of_int (if k =? 0 then Z.lor 0x80 nal_type
                     else if k =? n - 1 then Z.lor 0x40 nal_type
                     else nal_type)]
    ++ slice nal_data (2 + 1397 * k) (2 + 1397 * (k + 1)).

(** No [00 00 01] anywhere in the NAL unit. *)
Definition has_no_start_code (nal : list byte) : bool :=
  forallb (fun k => negb (Rtsp.bytes_eqb (slice nal k (k + 3)) Rtsp.start_code3))
    (seq 0 (length nal)).

(** A start code ([00 00 00 01] or [00 00 01]) begins at position [k]. *)
Definition starts_code (data : list byte) (k : nat) : bool :=
  Rtsp.bytes_eqb (slice data k (k + 4)) Rtsp.start_code4
  || Rtsp.bytes_eqb (slice data k (k + 3)) Rtsp.start_code3.

(** NAL units as an Annex B stream with four-byte start codes. *)
Definition annexb (nals : list (list byte)) : list byte :=
  concat (map (fun nal => Rtsp.start_code4 ++ nal) nals).

(** The packetizer after [k] packets have been made. *)
Definition after_packets (self : Rtsp.RTPPacketizer) (k : nat) : Rtsp.RTPPacketizer :=
  match k with
  | O => self
  | S _ =>
      {| Rtsp.ssrc := Rtsp.ssrc self;
         Rtsp.sequence := (Rtsp.sequence self + Z.of_nat k) mod 65536;
         Rtsp.timestamp := Rtsp.timestamp self;
         Rtsp.payload_type := Rtsp.payload_type self |}
  end.

(** *** Concrete packets for the closed examples *)

(** A P-frame in two fragments: 16 bytes of metadata and [0A 0B], then
    [0C 0D]. *)
Definition example_fragment_0 : packet :=
  {| kind := x29; reserved2 := x00; total_fragments := 2; fragment_index := 0;
     reserved9 := x00; reserved10 := x00; reserved11 := x00;
     payload := repeat x4d 16 ++ [x0a; x0b] |}.

Definition example_fragment_1 : packet :=
  {| kind := x29; reserved2 := x00; total_fragments := 2; fragment_index := 1;
     reserved9 := x00; reserved10 := x00; reserved11 := x00;
     payload := [x0c; x0d] |}.

(** An I-frame in three fragments of one byte each after the metadata. *)
Definition example_iframe_0 : packet :=
  {| kind := x28; reserved2 := x00; total_fragments := 3; fragment_index := 0;
     reserved9 := x00; reserved10 := x00; reserved11 := x00;
     payload := repeat x4d 16 ++ [x01] |}.

Definition example_iframe_1 : packet :=
  {| kind := x28; reserved2 := x00; total_fragments := 3; fragment_index := 1;
     reserved9 := x00; reserved10 := x00; reserved11 := x00;
     payload := [x02] |}.

Definition example_iframe_2 : packet :=
  {| kind := x28; reserved2 := x00; total_fragments := 3; fragment_index := 2;
     reserved9 := x00; reserved10 := x00; reserved11 := x00;
     payload := [x03] |}.

(** An audio packet, fragment 0, whose payload is exactly 16 bytes. *)
Definition example_audio_16 : packet :=
  {| kind := x18; reserved2 := x00; total_fragments := 1; fragment_index := 0;
     reserved9 := x00; reserved10 := x00; reserved11 := x00;
     payload := [x00; x01; x02; x03; x04; x05; x06; x07;
                 x08; x09; x0a; x0b; x0c; x0d; x0e; x0f] |}.

(** *** Whole streams *)

(** The payload of an audio packet after the metadata rule. *)
Definition audio_payload (p : packet) : list byte :=
  if (fragment_index p =? 0) && (16 <? length (payload p))
  then skipn 16 (payload p)
  else payload p.

(** What a buffer is made of: a whole video frame (fragment 0, then the
    other fragments), an audio packet, or bytes between packets. *)
Inductive item : Type :=
| Frame (first : packet) (others : list packet)
| Audio (p : packet)
| Junk (g : list byte).

Definition item_ok (i : item) : Prop :=
  match i with
  | Frame first others =>
      is_video first = true
      /\ fragment_index first = 0
      /\ total_fragments first = S (length others)
      /\ Forall (fun p => is_video p = true) others
      /\ Permutation (map fragment_index others) (seq 1 (length others))
  | Audio p => is_audio p = true
  | Junk g => Forall (fun b => b <> x7f) g
  end.

Definition item_bytes (i : item) : list byte :=
  match i with
  | Frame first others => concat (map encode (first :: others))
  | Audio p => encode p
  | Junk g => g
  end.

Definition item_video (cipher_decrypt : list byte -> list byte) (i : item)
  : list byte :=
  match i with
  | Frame first others =>
      emit cipher_decrypt (Byte.eqb (kind first) x28) (frame_data first others)
  | _ => []
  end.

Definition item_audio (cipher_decrypt : list byte -> list byte) (i : item)
  : list byte :=
  match i with
  | Audio p => Crypto.decrypt_audio cipher_decrypt (audio_payload p)
  | _ => []
  end.

(** The two tests [_current_frame_start is not None] and
    ['current' in _frame_chunks] agree, and an open frame starts with its
    fragment 0 and holds no other fragment 0. *)
Definition consistent (r : Stream.recorder) : Prop :=
  match Stream.frame_chunks r, Stream.current_frame_start r with
  | None, None => True
  | Some cur, Some _ =>
      exists pl rest, cur = (0, pl) :: rest /\ Forall (fun c : Stream.chunk => fst c <> 0) rest
  | _, _ => False
  end.

(** A frame is open and has all its fragments. *)
Definition open_complete (r : Stream.recorder) : bool :=
  match Stream.current_frame_start r, Stream.frame_chunks r with
  | Some _, Some cur => Stream.current_total r <=? length cur
  | _, _ => false
  end.

(** The start of an audio packet whose 12-byte header is incomplete. *)
Definition truncated_audio_header (tl : list byte) : bool :=
  match tl with
  | b0 :: b1 :: _ => Byte.eqb b0 x7f && Byte.eqb b1 x18 && (length tl <? 12)
  | _ => false
  end.

(** *** Reading a decimal number *)

Definition digits_value (l : list byte) : N :=
  fold_left (fun acc b => (10 * acc + (Byte.to_N b - 48))%N) l 0%N.

(** *** Braces in a decoded response *)

(** Opening braces minus closing braces. *)
Fixpoint balance (s : list N) : Z :=
  match s with
  | [] => 0
  | c :: s' =>
      (if (c =? Client.open_brace)%N then 1
       else if (c =? Client.close_brace)%N then -1 else 0)
      + balance s'
  end.

(** *** The demultiplexer packet by packet *)

(** A recorder without the position of its open frame, which is only ever
    tested against [None]. *)
Definition norm (r : Stream.recorder) : Stream.recorder :=
  {| Stream.frame_chunks := Stream.frame_chunks r;
     Stream.current_frame_start :=
       match Stream.current_frame_start r with
       | Some _ => Some 0
       | None => None
       end;
     Stream.current_total := Stream.current_total r;
     Stream.current_is_iframe := Stream.current_is_iframe r |}.

(** What one whole packet does to the recorder and to the two outputs. *)
Definition feed (cipher_decrypt : list byte -> list byte) (record_audio : bool)
    (s : Stream.recorder * list byte * list byte) (p : packet)
  : Stream.recorder * list byte * list byte :=
  let '(r, video, audio) := s in
  if Stream.is_video_kind (kind p) then
    match Stream.video_packet cipher_decrypt r video 0 (Byte.eqb (kind p) x28)
            (total_fragments p) (fragment_index p) (payload p) with
    | Ok (r', video') => (norm r', video', audio)
    | _ => s
    end
  else
    (r, video,
     if record_audio
     then audio ++ Crypto.decrypt_audio cipher_decrypt (audio_payload p)
     else audio).

Definition feed_all (cipher_decrypt : list byte -> list byte) (record_audio : bool)
    (s : Stream.recorder * list byte * list byte) (pkts : list packet)
  : Stream.recorder * list byte * list byte :=
  fold_left (feed cipher_decrypt record_audio) pkts s.

(** A frame announced by a fragment 0 has at least two fragments. *)
Definition long_frame (p : packet) : Prop :=
  is_video p = true -> fragment_index p = 0 -> 2 <= total_fragments p.


(** *** Frames as RTP packets *)

(** The timestamp field of an RTP packet (bytes 4..8, big-endian). *)
Definition rtp_timestamp (packet : list byte) : Z := be_value (slice packet 4 8).

(** The number of RTP packets of a NAL unit, and of a frame. *)
Definition nal_packet_count (nal : list byte) : nat :=
  if length nal <=? 1400 then 1 else fu_count (length nal).

Definition frame_packet_count (nal_units : list (list byte)) : nat :=
  list_sum (map nal_packet_count nal_units).



End Spec.

(* ================================================================== *)
(** * Part II: properties                                              *)
(* ================================================================== *)

(** ** Bytes and slices *)

Lemma int_of_byte_of_int (z : Z) : int_of_byte (byte_of_int z) = (z mod 256)%Z.
Proof.
  unfold int_of_byte, byte_of_int.
  assert (Hr : (0 <= z mod 256 < 256)%Z) by (apply Z.mod_pos_bound; lia).
  destruct (Byte.of_N (Z.to_N (z mod 256))) as [b|] eqn:E.
  - apply Byte.to_of_N in E. rewrite E. lia.
  - apply Byte.of_N_None_iff in E. lia.
Qed.

Lemma int_of_byte_range (b : byte) : (0 <= int_of_byte b < 256)%Z.
Proof.
  unfold int_of_byte. pose proof (Byte.to_N_bounded b). lia.
Qed.

Lemma byte_of_int_of_byte (b : byte) : byte_of_int (int_of_byte b) = b.
Proof.
  unfold byte_of_int, int_of_byte.
  pose proof (Byte.to_N_bounded b).
  rewrite Z.mod_small by lia.
  rewrite N2Z.id, Byte.of_to_N. reflexivity.
Qed.

Lemma le_value_le_bytes (width : nat) (z : Z) :
  le_value (le_bytes width z) = (z mod 256 ^ Z.of_nat width)%Z.
Proof.
  revert z. induction width as [|w IH]; intro z.
  - cbn. now rewrite Z.mod_1_r.
  - cbn [le_bytes le_value]. rewrite int_of_byte_of_int, IH.
    rewrite Nat2Z.inj_succ, Z.pow_succ_r by lia.
    assert (Hp : (0 < 256 ^ Z.of_nat w)%Z) by (apply Z.pow_pos_nonneg; lia).
    rewrite Z.rem_mul_r by lia. lia.
Qed.

Lemma length_le_bytes (width : nat) (z : Z) : length (le_bytes width z) = width.
Proof.
  revert z. induction width; intro z; cbn; [reflexivity | now rewrite IHwidth].
Qed.

Lemma length_be_bytes (width : nat) (z : Z) : length (be_bytes width z) = width.
Proof.
  unfold be_bytes. now rewrite length_rev, length_le_bytes.
Qed.

Lemma pack_unsigned_ok (be : bool) (width : nat) (z : Z) :
  (0 <= z < 256 ^ Z.of_nat width)%Z ->
  pack_unsigned be width z = Ok (if be then be_bytes width z else le_bytes width z).
Proof.
  intros [H0 H1]. unfold pack_unsigned.
  apply Z.leb_le in H0. apply Z.ltb_lt in H1. now rewrite H0, H1.
Qed.

Lemma length_slice {A : Type} (data : list A) (a b : nat) :
  b <= length data -> length (slice data a b) = b - a.
Proof.
  intro H. unfold slice. rewrite length_firstn, length_skipn. lia.
Qed.

Lemma slice_app_skip {A : Type} (pre l : list A) (a b : nat) :
  slice (pre ++ l) (length pre + a) (length pre + b) = slice l a b.
Proof.
  unfold slice. rewrite skipn_app.
  replace (length pre + a - length pre) with a by lia.
  rewrite skipn_all2 by lia. cbn [app].
  f_equal. lia.
Qed.

Lemma slice_app_skip' {A : Type} (pre l : list A) (n a b : nat) :
  length pre = n -> slice (pre ++ l) (n + a) (n + b) = slice l a b.
Proof. intros <-. apply slice_app_skip. Qed.

Lemma slice_app_l {A : Type} (l1 l2 : list A) (a b : nat) :
  b <= length l1 -> slice (l1 ++ l2) a b = slice l1 a b.
Proof.
  intro H. unfold slice. rewrite skipn_app, firstn_app, length_skipn.
  replace (b - a - (length l1 - a)) with 0 by lia.
  cbn [firstn]. now rewrite app_nil_r.
Qed.

Lemma slice_0 {A : Type} (l : list A) (n : nat) : slice l 0 n = firstn n l.
Proof. unfold slice. now rewrite Nat.sub_0_r, skipn_0. Qed.

Lemma slice_all {A : Type} (l : list A) (n : nat) :
  length l <= n -> slice l 0 n = l.
Proof. intro H. rewrite slice_0. now apply firstn_all2. Qed.

Lemma slice_skipn {A : Type} (l : list A) (n a b : nat) :
  slice (skipn n l) a b = slice l (n + a) (n + b).
Proof.
  unfold slice. rewrite skipn_skipn.
  rewrite (Nat.add_comm a n). f_equal. lia.
Qed.

Lemma slice_slice {A : Type} (l : list A) (n m a b : nat) :
  n + b <= m ->
  slice (slice l n m) a b = slice l (n + a) (n + b).
Proof.
  intro H. unfold slice.
  rewrite skipn_firstn_comm, firstn_firstn, skipn_skipn.
  rewrite (Nat.add_comm a n). f_equal. lia.
Qed.

(** ** crypto.py: key derivation (C2) *)

Module CryptoFacts.

Import Crypto.

(** C2.  For every 32-bit handle [h] the derived key is exactly 16 bytes:
    bytes 0..4 are [h] as a little-endian u32, bytes 4..12 are
    5C 79 14 2C 46 23 81 61 (the little-endian u64 of 0x618123462C14795C) and
    bytes 12..16 are F0 0D 80 82 (the little-endian u32 of 0x82800DF0).  The
    key is a function of the handle alone. *)
Theorem generate_aes_key_layout (h : Z) :
  (0 <= h < 2 ^ 32)%Z ->
  exists key,
    generate_aes_key h = Ok key
    /\ length key = 16
    /\ slice key 0 4 = le_bytes 4 h
    /\ le_value (slice key 0 4) = h
    /\ slice key 4 12 = [x5c; x79; x14; x2c; x46; x23; x81; x61]
    /\ le_value (slice key 4 12) = 0x618123462C14795C%Z
    /\ slice key 12 16 = [xf0; x0d; x80; x82]
    /\ le_value (slice key 12 16) = 0x82800DF0%Z
    /\ (forall h', h' = h -> generate_aes_key h' = Ok key).
Proof.
  intro Hh.
  assert (Hk : generate_aes_key h
               = Ok (le_bytes 4 h ++ [x5c; x79; x14; x2c; x46; x23; x81; x61]
                       ++ [xf0; x0d; x80; x82])).
  { unfold generate_aes_key.
    rewrite pack_unsigned_ok by (cbn; lia).
    cbn [bind]. reflexivity. }
  eexists. split; [exact Hk|].
  assert (Hv : le_value (le_bytes 4 h) = h).
  { rewrite le_value_le_bytes. apply Z.mod_small. cbn. lia. }
  repeat split; try reflexivity.
  - exact Hv.
  - intros h' ->. exact Hk.
Qed.

Lemma generate_aes_key_layout_witness :
  exists key, generate_aes_key 222 = Ok key /\ length key = 16.
Proof.
  destruct (generate_aes_key_layout (h := 222)) as (key & H1 & H2 & _).
  - lia.
  - exists key. split; assumption.
Defined.

End CryptoFacts.

(** ** crypto.py: the two decryption routines (C4, C9) *)

Module DecryptFacts.

Import Crypto Spec.

Section WithCipher.

Variable cipher_decrypt : list byte -> list byte.

Lemma windows_fuel_nil (fuel : nat) : windows_fuel cipher_decrypt fuel [] = [].
Proof. destruct fuel; reflexivity. Qed.

Lemma windows_fuel_short (fuel : nat) (d : list byte) :
  length d < 64 -> windows_fuel cipher_decrypt fuel d = d.
Proof.
  intro H. destruct fuel; [reflexivity|]. cbn [windows_fuel].
  destruct (Nat.leb_spec 64 (length d)); [lia | reflexivity].
Qed.

Lemma windows_fuel_long (fuel : nat) (d : list byte) :
  64 <= length d ->
  windows_fuel cipher_decrypt (S fuel) d
  = ecb4 cipher_decrypt (firstn 64 d) ++ firstn 16 (skipn 64 d) ++ windows_fuel cipher_decrypt fuel (skipn 80 d).
Proof.
  intro H. cbn [windows_fuel].
  destruct (Nat.leb_spec 64 (length d)); [reflexivity | lia].
Qed.

(** The four blocks the [for i in range(4)] loop decrypts are those of
    the first 64 bytes at [pos]. *)
Lemma four_blocks (data result : list byte) (pos : nat) :
  fold_left
    (fun result i =>
       result ++ cipher_decrypt (slice data (pos + i * 16) (pos + i * 16 + 16)))
    (seq 0 4) result
  = result ++ ecb4 cipher_decrypt (firstn 64 (skipn pos data)).
Proof.
  cbn [seq fold_left Nat.mul Nat.add]. unfold ecb4.
  assert (E : forall a,
             a + 16 <= 64 ->
             slice (firstn 64 (skipn pos data)) a (a + 16)
             = slice data (pos + a) (pos + a + 16)).
  { intros a Ha. unfold slice.
    rewrite skipn_firstn_comm, firstn_firstn, skipn_skipn.
    replace (Nat.min (a + 16 - a) (64 - a)) with (pos + a + 16 - (pos + a)) by lia.
    now rewrite (Nat.add_comm a pos). }
  rewrite <- (E 0), <- (E 16), <- (E 32), <- (E 48) by lia.
  now rewrite <- !app_assoc.
Qed.

(** The loop computes the windows of the rest of the buffer. *)
Lemma decrypt_64_80_loop_windows (fuel : nat) :
  forall data result pos,
    length data - pos <= fuel ->
    decrypt_64_80_loop cipher_decrypt fuel data result pos = Ok (result ++ windows_fuel cipher_decrypt fuel (skipn pos data)).
Proof.
  induction fuel as [|f IH]; intros data result pos Hfuel.
  - cbn [decrypt_64_80_loop].
    destruct (Nat.ltb_spec pos (length data)); [lia|].
    rewrite skipn_all2 by lia. cbn. now rewrite app_nil_r.
  - cbn [decrypt_64_80_loop].
    destruct (Nat.ltb_spec pos (length data)) as [Hpos|Hpos].
    2:{ rewrite skipn_all2 by lia. rewrite windows_fuel_nil. now rewrite app_nil_r. }
    destruct (Nat.leb_spec 64 (length data - pos)) as [Hrem|Hrem].
    2:{ rewrite windows_fuel_short by (rewrite length_skipn; lia). reflexivity. }
    rewrite four_blocks.
    rewrite windows_fuel_long by (rewrite length_skipn; lia).
    rewrite !skipn_skipn.
    destruct (Nat.ltb_spec 0 (Nat.min 16 (length data - (pos + 64)))) as [Hraw|Hraw].
    + rewrite IH by lia. rewrite <- !app_assoc. f_equal. f_equal.
      unfold slice.
      replace (pos + 64 + Nat.min 16 (length data - (pos + 64)) - (pos + 64))
        with (Nat.min 16 (length data - (pos + 64))) by lia.
      rewrite (Nat.add_comm 64 pos).
      destruct (Nat.le_gt_cases 16 (length data - (pos + 64))) as [H16|H16].
      * rewrite Nat.min_l by lia. f_equal. f_equal.
        replace (pos + 64 + 16) with (80 + pos) by lia. reflexivity.
      * rewrite Nat.min_r by lia.
        rewrite (skipn_all2 (n := pos + 64 + _)) by lia.
        rewrite (skipn_all2 (n := 80 + pos)) by lia.
        rewrite !windows_fuel_nil.
        rewrite (firstn_all2 (n := length data - (pos + 64)))
          by (rewrite length_skipn; lia).
        rewrite (firstn_all2 (n := 16)) by (rewrite length_skipn; lia).
        reflexivity.
    + rewrite IH by lia. rewrite <- !app_assoc. f_equal. f_equal.
      rewrite (Nat.add_comm 64 pos).
      rewrite (skipn_all2 (n := pos + 64)) by lia.
      rewrite (skipn_all2 (n := 80 + pos)) by lia.
      rewrite windows_fuel_nil. reflexivity.
Qed.

(** [decrypt_64_80] returns, and what it returns is the 64/80 pattern. *)
Lemma decrypt_64_80_windows (data : list byte) :
  decrypt_64_80 cipher_decrypt data = Ok (windows cipher_decrypt data).
Proof.
  unfold decrypt_64_80, windows.
  rewrite decrypt_64_80_loop_windows by lia. reflexivity.
Qed.

(** From here on the cipher maps 16-byte blocks to 16-byte blocks. *)
Hypothesis cipher_decrypt_block :
  forall block, length block = 16 -> length (cipher_decrypt block) = 16.

Lemma length_ecb4 (d : list byte) :
  length d = 64 -> length (ecb4 cipher_decrypt d) = 64.
Proof.
  intro H. unfold ecb4.
  rewrite !length_app, !cipher_decrypt_block by (rewrite length_slice; lia).
  reflexivity.
Qed.

Lemma length_windows_fuel (fuel : nat) :
  forall d, length (windows_fuel cipher_decrypt fuel d) = length d.
Proof.
  induction fuel as [|f IH]; intro d; [reflexivity|].
  destruct (Nat.le_gt_cases 64 (length d)) as [H|H].
  - rewrite windows_fuel_long by assumption.
    rewrite !length_app, IH, length_ecb4 by (rewrite length_firstn; lia).
    rewrite length_firstn, !length_skipn. lia.
  - now rewrite windows_fuel_short.
Qed.

(** Window [k]: 64 decrypted bytes, then up to 16 bytes as they were. *)
Lemma windows_fuel_window (fuel : nat) :
  forall d k,
    length d <= fuel ->
    80 * k + 64 <= length d ->
    slice (windows_fuel cipher_decrypt fuel d) (80 * k) (80 * k + 64)
    = ecb4 cipher_decrypt (slice d (80 * k) (80 * k + 64))
    /\ slice (windows_fuel cipher_decrypt fuel d) (80 * k + 64) (80 * k + 80)
       = slice d (80 * k + 64) (80 * k + 80).
Proof.
  induction fuel as [|f IH]; intros d k Hfuel Hk; [lia|].
  rewrite windows_fuel_long by lia.
  assert (HA : length (ecb4 cipher_decrypt (firstn 64 d)) = 64)
    by (apply length_ecb4; rewrite length_firstn; lia).
  destruct k as [|k].
  - change (80 * 0) with 0. cbn [Nat.add]. split.
    + rewrite slice_app_l by lia. rewrite slice_all by lia.
      now rewrite (slice_0 d).
    + change 64 with (64 + 0) at 1. change 80 with (64 + 16) at 1.
      rewrite (@slice_app_skip' _ _ _ 64 0 16 HA).
      change (64 + 16) with 80.
      change (slice d 64 80) with (slice d (64 + 0) (64 + 16)).
      rewrite <- (slice_skipn d 64 0 16). rewrite (slice_0 (skipn 64 d)).
      destruct (Nat.le_gt_cases 80 (length d)) as [H80|H80].
      * rewrite slice_app_l by (rewrite length_firstn, length_skipn; lia).
        rewrite slice_0. now rewrite firstn_firstn.
      * rewrite (skipn_all2 (n := 80)) by lia.
        rewrite windows_fuel_nil, app_nil_r.
        rewrite slice_0. now rewrite firstn_firstn.
  - assert (HB : length (firstn 16 (skipn 64 d)) = 16)
      by (rewrite length_firstn, length_skipn; lia).
    assert (Hd : length (skipn 80 d) <= f) by (rewrite length_skipn; lia).
    assert (Hk' : 80 * k + 64 <= length (skipn 80 d)) by (rewrite length_skipn; lia).
    destruct (IH (skipn 80 d) k Hd Hk') as [IH1 IH2].
    assert (Shift : forall a b,
               slice (ecb4 cipher_decrypt (firstn 64 d) ++ firstn 16 (skipn 64 d)
                        ++ windows_fuel cipher_decrypt f (skipn 80 d)) (80 + a) (80 + b)
               = slice (windows_fuel cipher_decrypt f (skipn 80 d)) a b).
    { intros a b. rewrite app_assoc.
      apply slice_app_skip'. rewrite length_app. lia. }
    assert (Shift' : forall a b, slice d (80 + a) (80 + b) = slice (skipn 80 d) a b).
    { intros a b. now rewrite slice_skipn. }
    replace (80 * S k) with (80 + 80 * k) by lia.
    rewrite <- !Nat.add_assoc, !Shift, !Shift'.
    split; assumption.
Qed.

(** The last window when it has fewer than 64 bytes. *)
Lemma windows_fuel_tail (fuel : nat) :
  forall d,
    length d <= fuel ->
    length d mod 80 < 64 ->
    skipn (length d - length d mod 80) (windows_fuel cipher_decrypt fuel d)
    = skipn (length d - length d mod 80) d.
Proof.
  induction fuel as [|f IH]; intros d Hfuel Hr; [reflexivity|].
  destruct (Nat.le_gt_cases 64 (length d)) as [H|H].
  2:{ now rewrite windows_fuel_short. }
  assert (H80 : 80 <= length d).
  { destruct (Nat.le_gt_cases 80 (length d)); [assumption|].
    rewrite Nat.mod_small in Hr; lia. }
  rewrite windows_fuel_long by lia.
  assert (HA : length (ecb4 cipher_decrypt (firstn 64 d)) = 64)
    by (apply length_ecb4; rewrite length_firstn; lia).
  assert (HB : length (firstn 16 (skipn 64 d)) = 16)
    by (rewrite length_firstn, length_skipn; lia).
  assert (Hm : length (skipn 80 d) mod 80 = length d mod 80).
  { rewrite length_skipn.
    replace (length d) with ((length d - 80) + 1 * 80) at 2 by lia.
    now rewrite Nat.Div0.mod_add. }
  assert (Hl : length d - length d mod 80
               = 80 + (length (skipn 80 d) - length (skipn 80 d) mod 80)).
  { rewrite Hm, length_skipn.
    pose proof (Nat.Div0.mod_le (length d - 80) 80).
    rewrite length_skipn in Hm. lia. }
  rewrite Hl. rewrite app_assoc.
  rewrite skipn_app, length_app, HA, HB.
  rewrite skipn_all2 by (rewrite length_app; lia). cbn [app].
  replace (80 + (length (skipn 80 d) - length (skipn 80 d) mod 80) - (64 + 16))
    with (length (skipn 80 d) - length (skipn 80 d) mod 80) by lia.
  rewrite IH by (rewrite ?Hm, ?length_skipn; lia).
  rewrite skipn_skipn. f_equal. lia.
Qed.

Lemma fold_left_blocks_length (f : nat -> list byte) (l : list nat) :
  (forall i, In i l -> length (f i) = 16) ->
  forall acc,
    length (fold_left (fun result i => result ++ f i) l acc)
    = length acc + 16 * length l.
Proof.
  induction l as [|i l IH]; intros Hf acc; cbn [fold_left length].
  - lia.
  - rewrite IH by (intros j Hj; apply Hf; now right).
    rewrite length_app, Hf by now left. lia.
Qed.

Lemma length_decrypt_audio (data : list byte) :
  length (decrypt_audio cipher_decrypt data) = length data.
Proof.
  unfold decrypt_audio, range0.
  replace ((length data - 15 + 16 - 1) / 16) with (length data / 16).
  2:{ destruct (Nat.le_gt_cases 15 (length data)) as [H|H].
      - f_equal. lia.
      - rewrite !Nat.div_small; lia. }
  pose proof (Nat.div_mod_eq (length data) 16) as Hdm.
  assert (Hlen :
    length
      (fold_left
         (fun result i => result ++ cipher_decrypt (slice data i (i + 16)))
         (map (fun k => k * 16) (seq 0 (length data / 16))) [])
    = 16 * (length data / 16)).
  { rewrite fold_left_blocks_length.
    - now rewrite length_map, length_seq.
    - intros i Hi. apply in_map_iff in Hi. destruct Hi as (k & <- & Hk).
      apply in_seq in Hk. apply cipher_decrypt_block.
      rewrite length_slice; lia. }
  destruct (Nat.ltb_spec 0 (length data mod 16)) as [Hr|Hr].
  - rewrite length_app, Hlen, length_skipn.
    pose proof (Nat.mod_upper_bound (length data) 16). lia.
  - rewrite Hlen. lia.
Qed.

End WithCipher.

(** C4.  [decrypt_64_80] works window by window: in every 80-byte window
    that has its 64 bytes, these are replaced by their AES-ECB decryption as
    four 16-byte blocks and the following up-to-16 bytes are copied through;
    a final partial window of fewer than 64 bytes is copied through.  In
    particular this holds for every window of a buffer that is a whole
    number of 80-byte windows. *)
Theorem decrypt_64_80_by_windows
    (cipher_decrypt : list byte -> list byte)
    (cipher_decrypt_block :
       forall block, length block = 16 -> length (cipher_decrypt block) = 16)
    (data : list byte) :
  exists out,
    decrypt_64_80 cipher_decrypt data = Ok out
    /\ length out = length data
    /\ (forall k,
          80 * k + 64 <= length data ->
          slice out (80 * k) (80 * k + 64)
          = cipher_decrypt (slice data (80 * k) (80 * k + 16))
              ++ cipher_decrypt (slice data (80 * k + 16) (80 * k + 32))
              ++ cipher_decrypt (slice data (80 * k + 32) (80 * k + 48))
              ++ cipher_decrypt (slice data (80 * k + 48) (80 * k + 64))
          /\ slice out (80 * k + 64) (80 * k + 80)
             = slice data (80 * k + 64) (80 * k + 80))
    /\ (length data mod 80 < 64 ->
        skipn (length data - length data mod 80) out
        = skipn (length data - length data mod 80) data).
Proof.
  exists (windows cipher_decrypt data).
  split; [apply decrypt_64_80_windows|].
  split; [apply length_windows_fuel; assumption|].
  split.
  - intros k Hk.
    destruct (@windows_fuel_window cipher_decrypt cipher_decrypt_block
                (length data) data k (le_n _) Hk) as [H1 H2].
    split; [|exact H2].
    unfold windows. rewrite H1. unfold ecb4.
    assert (E : forall a b, b <= 64 ->
               slice (slice data (80 * k) (80 * k + 64)) a b
               = slice data (80 * k + a) (80 * k + b)).
    { intros a b Hb. apply slice_slice. lia. }
    rewrite !E by lia. now rewrite Nat.add_0_r.
  - intro Hr. apply windows_fuel_tail; [assumption | lia | assumption].
Qed.

Lemma decrypt_64_80_by_windows_witness :
  exists out,
    decrypt_64_80 demo_cipher (map byte_of_nat (seq 0 150)) = Ok out
    /\ length out = 150.
Proof.
  destruct (decrypt_64_80_by_windows demo_cipher
              (fun block H => eq_trans (length_rev block) H)
              (map byte_of_nat (seq 0 150))) as (out & H1 & H2 & _).
  exists out. split; [exact H1 | exact H2].
Defined.

(** C9.  Both decryption routines preserve length: whatever the buffer, the
    output of [decrypt_64_80] and the output of [decrypt_audio] have as many
    bytes as the input. *)
Theorem decrypt_preserves_length
    (cipher_decrypt : list byte -> list byte)
    (cipher_decrypt_block :
       forall block, length block = 16 -> length (cipher_decrypt block) = 16)
    (data : list byte) :
  (exists out, decrypt_64_80 cipher_decrypt data = Ok out /\ length out = length data)
  /\ length (decrypt_audio cipher_decrypt data) = length data.
Proof.
  split.
  - exists (windows cipher_decrypt data). split.
    + apply decrypt_64_80_windows.
    + apply length_windows_fuel. assumption.
  - apply length_decrypt_audio. assumption.
Qed.

Lemma decrypt_preserves_length_witness :
  (exists out, decrypt_64_80 demo_cipher (repeat x41 100) = Ok out /\ length out = 100)
  /\ length (decrypt_audio demo_cipher (repeat x41 37)) = 37.
Proof.
  split.
  - exact (proj1 (decrypt_preserves_length demo_cipher
                    (fun block H => eq_trans (length_rev block) H) (repeat x41 100))).
  - exact (proj2 (decrypt_preserves_length demo_cipher
                    (fun block H => eq_trans (length_rev block) H) (repeat x41 37))).
Defined.

End DecryptFacts.

(** ** stream.py: the demultiplexer *)

Module StreamFacts.

Import Crypto Stream Spec.

Lemma unpack_H_slice (data : list byte) (a : nat) :
  a + 2 <= length data ->
  exists n, unpack_H (slice data a (a + 2)) = Ok n.
Proof.
  intro H.
  assert (L : length (slice data a (a + 2)) = 2) by (rewrite length_slice; lia).
  destruct (slice data a (a + 2)) as [|lo [|hi [|x l]]]; try discriminate.
  eexists. reflexivity.
Qed.

Lemma byte_of_nat_to_nat (n : nat) : n < 256 -> Byte.to_nat (byte_of_nat n) = n.
Proof.
  intro H. unfold byte_of_nat.
  destruct (Byte.of_nat n) as [b|] eqn:E.
  - now apply Byte.to_of_nat.
  - apply Byte.of_nat_None_iff in E. lia.
Qed.

Lemma unpack_pack_H (n : nat) : n < 256 * 256 -> unpack_H (pack_H n) = Ok n.
Proof.
  intro H. unfold pack_H, unpack_H.
  rewrite !byte_of_nat_to_nat.
  - f_equal. pose proof (Nat.div_mod_eq n 256). lia.
  - apply Nat.Div0.div_lt_upper_bound. lia.
  - apply Nat.mod_upper_bound. lia.
Qed.

(** *** Sorting and concatenating the collected fragments *)

Lemma insert_chunk_comm (x y : chunk) (l : list chunk) :
  fst x <> fst y ->
  insert_chunk x (insert_chunk y l) = insert_chunk y (insert_chunk x l).
Proof.
  intro Hxy. induction l as [|d l IH]; cbn [insert_chunk].
  - destruct (Nat.leb_spec (fst x) (fst y)), (Nat.leb_spec (fst y) (fst x));
      (lia || reflexivity).
  - destruct (Nat.leb_spec (fst y) (fst d)), (Nat.leb_spec (fst x) (fst d));
      cbn [insert_chunk];
      repeat match goal with
             | |- context [Nat.leb ?a ?b] => destruct (Nat.leb_spec a b)
             end; try lia; try reflexivity.
    now rewrite IH.
Qed.

(** Fragments with pairwise different indices are sorted into the same
    list whatever the order they were collected in. *)
Lemma sort_chunks_permutation (l1 l2 : list chunk) :
  Permutation l1 l2 -> NoDup (map fst l1) -> sort_chunks l1 = sort_chunks l2.
Proof.
  induction 1 as [|x l l' HP IH|x y l|l l' l'' HP1 IH1 HP2 IH2]; intro Hnd.
  - reflexivity.
  - cbn [sort_chunks]. cbn [map] in Hnd. inversion Hnd; subst. now rewrite IH.
  - cbn [sort_chunks]. cbn [map] in Hnd. inversion Hnd as [|? ? Hin _]; subst.
    apply insert_chunk_comm. intro E. apply Hin. left. now symmetry.
  - rewrite IH1 by assumption. apply IH2.
    eapply Permutation_NoDup; [|exact Hnd]. now apply Permutation_map.
Qed.

Lemma insert_chunk_zero (pl : list byte) (l : list chunk) :
  insert_chunk (0, pl) l = (0, pl) :: l.
Proof. destruct l; reflexivity. Qed.

Lemma sort_chunks_increasing (g : nat -> list byte) (n : nat) :
  forall a,
    sort_chunks (map (fun i => (i, g i)) (seq a n)) = map (fun i => (i, g i)) (seq a n).
Proof.
  induction n as [|n IH]; intro a; [reflexivity|].
  cbn [seq map sort_chunks]. rewrite IH.
  destruct n; [reflexivity|]. cbn [seq map insert_chunk fst].
  destruct (Nat.leb_spec a (S a)); [reflexivity | lia].
Qed.

Lemma reassemble_concat (l : list chunk) :
  reassemble l
  = concat (map (fun c : chunk => if fst c =? 0 then skipn 16 (snd c) else snd c) l).
Proof.
  unfold reassemble.
  enough (G : forall acc,
             fold_left
               (fun frame_data (c : chunk) =>
                  let (cur_frame, payload) := c in
                  if cur_frame =? 0
                  then frame_data ++ skipn 16 payload
                  else frame_data ++ payload) l acc
             = acc ++ concat
                        (map (fun c : chunk =>
                                if fst c =? 0 then skipn 16 (snd c) else snd c) l))
    by apply G.
  induction l as [|[i pl] l IH]; intro acc; cbn [fold_left map concat fst snd].
  - now rewrite app_nil_r.
  - rewrite IH. destruct (i =? 0); now rewrite <- app_assoc.
Qed.

Lemma payload_at_In (frags : list packet) (p : packet) :
  NoDup (map fragment_index frags) ->
  In p frags ->
  payload_at frags (fragment_index p) = payload p.
Proof.
  unfold payload_at.
  induction frags as [|q frags IH]; intros Hnd Hin; [contradiction|].
  cbn [map] in Hnd. inversion Hnd as [|? ? Hq Hnd']; subst.
  cbn [find]. destruct (Nat.eqb_spec (fragment_index q) (fragment_index p)) as [E|E].
  - destruct Hin as [->|Hin]; [reflexivity|].
    exfalso. apply Hq. rewrite E. now apply in_map.
  - destruct Hin as [->|Hin]; [contradiction|]. now apply IH.
Qed.

(** The collected fragments of a frame, in any order after fragment 0,
    sort and concatenate to the frame. *)
Lemma reassemble_frame (first : packet) (others : list packet) :
  fragment_index first = 0 ->
  Permutation (map fragment_index others) (seq 1 (length others)) ->
  reassemble (sort_chunks ((0, payload first) :: map (fun p => (fragment_index p, payload p)) others))
  = frame_data first others.
Proof.
  intros H0 HP.
  assert (Hnd : NoDup (map fragment_index others)).
  { eapply Permutation_NoDup; [symmetry; exact HP | apply seq_NoDup]. }
  assert (E : map (fun p => (fragment_index p, payload p)) others
              = map (fun i => (i, payload_at others i)) (map fragment_index others)).
  { rewrite map_map. apply map_ext_in. intros p Hp.
    now rewrite payload_at_In. }
  assert (HP' : Permutation (map (fun p => (fragment_index p, payload p)) others)
                  (map (fun i => (i, payload_at others i)) (seq 1 (length others)))).
  { rewrite E. now apply Permutation_map. }
  cbn [sort_chunks].
  rewrite (sort_chunks_permutation HP').
  2:{ rewrite map_map. cbn [fst]. exact Hnd. }
  rewrite sort_chunks_increasing, insert_chunk_zero.
  rewrite reassemble_concat. cbn [map concat fst snd Nat.eqb].
  unfold frame_data. f_equal. rewrite map_map. f_equal.
  apply map_ext_in. intros i Hi. apply in_seq in Hi. cbn [fst snd].
  destruct (Nat.eqb_spec i 0); [lia | reflexivity].
Qed.

Section WithCipher.

Variable cipher_decrypt : list byte -> list byte.

(** *** [_decrypt_frame] and the frame state machine *)

Lemma _decrypt_frame_emit (chunks : list chunk) (is_iframe : bool) :
  _decrypt_frame cipher_decrypt chunks is_iframe
  = Ok (emit cipher_decrypt is_iframe (reassemble (sort_chunks chunks))).
Proof.
  unfold _decrypt_frame, emit.
  destruct (is_iframe || (64 <=? length (reassemble (sort_chunks chunks))));
    [apply DecryptFacts.decrypt_64_80_windows | reflexivity].
Qed.

(** A fragment 0 closes the open frame and opens its own. *)
Lemma video_packet_first (r : recorder) (video : list byte) (p : nat)
    (is_iframe : bool) (total : nat) (pl : list byte) :
  video_packet cipher_decrypt r video p is_iframe total 0 pl
  = Ok ({| frame_chunks := Some [(0, pl)];
           current_frame_start := Some p;
           current_total := total;
           current_is_iframe := is_iframe |},
        video ++ pending cipher_decrypt r).
Proof.
  unfold video_packet, pending. cbn [Nat.eqb].
  destruct (current_frame_start r), (frame_chunks r);
    cbn [bind]; rewrite ?app_nil_r; try reflexivity.
  destruct (current_total r <=? length l); cbn [bind].
  - now rewrite _decrypt_frame_emit.
  - now rewrite app_nil_r.
Qed.

(** A later fragment is appended to the open frame... *)
Lemma video_packet_more (r : recorder) (video : list byte) (p : nat)
    (is_iframe : bool) (total cur : nat) (pl : list byte) (acc : list chunk) :
  cur <> 0 ->
  frame_chunks r = Some acc ->
  S (length acc) < current_total r ->
  video_packet cipher_decrypt r video p is_iframe total cur pl
  = Ok ({| frame_chunks := Some (acc ++ [(cur, pl)]);
           current_frame_start := current_frame_start r;
           current_total := current_total r;
           current_is_iframe := current_is_iframe r |}, video).
Proof.
  intros Hc Ha Hl. unfold video_packet. rewrite Ha.
  destruct (Nat.eqb_spec cur 0); [contradiction|].
  rewrite length_app. cbn [length].
  destruct (Nat.leb_spec (current_total r) (length acc + 1)); [lia | reflexivity].
Qed.

(** ... and the one that completes the count emits the frame. *)
Lemma video_packet_last (r : recorder) (video : list byte) (p : nat)
    (is_iframe : bool) (total cur : nat) (pl : list byte) (acc : list chunk) :
  cur <> 0 ->
  frame_chunks r = Some acc ->
  current_total r <= S (length acc) ->
  video_packet cipher_decrypt r video p is_iframe total cur pl
  = Ok (closed (current_total r) (current_is_iframe r),
        video ++ emit cipher_decrypt (current_is_iframe r)
                   (reassemble (sort_chunks (acc ++ [(cur, pl)])))).
Proof.
  intros Hc Ha Hl. unfold video_packet. rewrite Ha.
  destruct (Nat.eqb_spec cur 0); [contradiction|].
  rewrite length_app. cbn [length].
  destruct (Nat.leb_spec (current_total r) (length acc + 1)); [|lia].
  rewrite _decrypt_frame_emit. reflexivity.
Qed.

Lemma video_packet_total (r : recorder) (video : list byte) (p : nat)
    (is_iframe : bool) (total cur : nat) (pl : list byte) :
  exists r' video',
    video_packet cipher_decrypt r video p is_iframe total cur pl = Ok (r', video').
Proof.
  destruct (Nat.eq_dec cur 0) as [->|Hc].
  - rewrite video_packet_first. eauto.
  - destruct (frame_chunks r) as [acc|] eqn:Ha.
    + destruct (Nat.le_gt_cases (current_total r) (S (length acc))).
      * erewrite video_packet_last by eassumption. eauto.
      * erewrite video_packet_more by eassumption. eauto.
    + unfold video_packet. rewrite Ha.
      destruct (Nat.eqb_spec cur 0); [contradiction|]. eauto.
Qed.

Lemma final_flush_pending (r : recorder) (video : list byte) :
  exists r',
    final_flush cipher_decrypt r video = Ok (r', video ++ pending cipher_decrypt r).
Proof.
  unfold final_flush, pending.
  destruct (current_frame_start r), (frame_chunks r);
    rewrite ?app_nil_r; eauto.
  destruct (current_total r <=? length l).
  - rewrite _decrypt_frame_emit. cbn [bind]. eauto.
  - rewrite app_nil_r. eauto.
Qed.

(** *** The loop: it never raises, and every iteration moves forward *)

Lemma header_fields (data : list byte) (p : nat) :
  p + 12 <= length data ->
  exists t c l,
    unpack_H (slice data (p + 3) (p + 5)) = Ok t
    /\ unpack_H (slice data (p + 5) (p + 7)) = Ok c
    /\ unpack_H (slice data (p + 7) (p + 9)) = Ok l.
Proof.
  intro H.
  destruct (@unpack_H_slice data (p + 3)) as [t Ht]; [lia|].
  destruct (@unpack_H_slice data (p + 5)) as [c Hc]; [lia|].
  destruct (@unpack_H_slice data (p + 7)) as [l Hl]; [lia|].
  replace (p + 3 + 2) with (p + 5) in Ht by lia.
  replace (p + 5 + 2) with (p + 7) in Hc by lia.
  replace (p + 7 + 2) with (p + 9) in Hl by lia.
  eauto 6.
Qed.

Lemma loop_body_cases (data : list byte) (record_audio : bool) (c : cursor) :
  loop_body cipher_decrypt data record_audio c = Ok (Break c)
  \/ exists c',
       loop_body cipher_decrypt data record_audio c = Ok (Next c')
       /\ pos c < pos c'.
Proof.
  unfold loop_body, HEADER_SIZE.
  destruct (Byte.eqb (get data (pos c)) x7f && (pos c + 1 <? length data)
            && is_video_kind (get data (pos c + 1))).
  { destruct (Nat.ltb_spec (length data) (pos c + 12)) as [Hh|Hh]; [now left|].
    destruct (header_fields data (pos c) Hh) as (t & cf & l & -> & -> & ->).
    cbn [bind].
    destruct (Nat.ltb_spec (length data) (pos c + 12 + l)); [now left|].
    destruct (video_packet_total (self c) (video_result c) (pos c)
                (Byte.eqb (get data (pos c + 1)) x28) t cf
                (slice data (pos c + 12) (pos c + 12 + l))) as (r' & v' & ->).
    cbn [bind]. right. eexists. split; [reflexivity|]. cbn [pos]. lia. }
  destruct (Byte.eqb (get data (pos c)) x7f && (pos c + 1 <? length data)
            && Byte.eqb (get data (pos c + 1)) x18).
  { destruct (Nat.ltb_spec (length data) (pos c + 12)) as [Hh|Hh]; [now left|].
    destruct (header_fields data (pos c) Hh) as (t & cf & l & -> & -> & ->).
    cbn [bind].
    destruct ((1000 <? l) || (10 <? t) || (length data <? pos c + 12 + l)).
    { right. eexists. split; [reflexivity|]. cbn [pos]. lia. }
    destruct record_audio; cbn [negb];
      right; eexists; (split; [reflexivity|]); cbn [pos]; lia. }
  right. eexists. split; [reflexivity|]. cbn [pos]. lia.
Qed.

Lemma process_loop_done (fuel : nat) (data : list byte) (ra : bool) (c : cursor) :
  length data <= pos c -> process_loop cipher_decrypt fuel data ra c = Ok c.
Proof.
  intro H. destruct fuel; cbn [process_loop];
    destruct (Nat.ltb_spec (pos c) (length data)); (lia || reflexivity).
Qed.

Lemma process_loop_S (fuel : nat) (data : list byte) (ra : bool) (c : cursor) :
  pos c < length data ->
  process_loop cipher_decrypt (S fuel) data ra c
  = (f <- loop_body cipher_decrypt data ra c ;;
     match f with
     | Next c' => process_loop cipher_decrypt fuel data ra c'
     | Break c' => Ok c'
     end).
Proof.
  intro H. cbn [process_loop].
  destruct (Nat.ltb_spec (pos c) (length data)); [reflexivity | lia].
Qed.

Lemma process_loop_break (fuel : nat) (data : list byte) (ra : bool) (c : cursor) :
  length data - pos c <= fuel ->
  loop_body cipher_decrypt data ra c = Ok (Break c) ->
  process_loop cipher_decrypt fuel data ra c = Ok c.
Proof.
  intros Hf Hb.
  destruct (Nat.le_gt_cases (length data) (pos c)) as [H|H].
  - now apply process_loop_done.
  - destruct fuel; [lia|]. cbn [process_loop].
    destruct (Nat.ltb_spec (pos c) (length data)); [|lia].
    now rewrite Hb.
Qed.

(** With enough fuel the result does not depend on the fuel. *)
Lemma process_loop_fuel (f1 : nat) :
  forall f2 data ra c,
    length data - pos c <= f1 ->
    length data - pos c <= f2 ->
    process_loop cipher_decrypt f1 data ra c = process_loop cipher_decrypt f2 data ra c.
Proof.
  induction f1 as [|f1 IH]; intros f2 data ra c H1 H2.
  - rewrite !process_loop_done by lia. reflexivity.
  - destruct (Nat.le_gt_cases (length data) (pos c)) as [H|H].
    { rewrite !process_loop_done by lia. reflexivity. }
    destruct f2 as [|f2]; [lia|]. cbn [process_loop].
    destruct (Nat.ltb_spec (pos c) (length data)); [|lia].
    destruct (loop_body_cases data ra c) as [->|(c' & -> & Hp)]; [reflexivity|].
    cbn [bind]. apply IH; lia.
Qed.

Lemma process_loop_next (fuel : nat) (data : list byte) (ra : bool) (c c' : cursor) :
  pos c < length data ->
  length data - pos c <= fuel ->
  loop_body cipher_decrypt data ra c = Ok (Next c') ->
  process_loop cipher_decrypt fuel data ra c
  = process_loop cipher_decrypt fuel data ra c'.
Proof.
  intros Hp Hf Hb.
  destruct (loop_body_cases data ra c) as [E|(c'' & E & Hlt)];
    rewrite E in Hb; inversion Hb; subst c''.
  destruct fuel; [lia|]. rewrite process_loop_S by assumption.
  rewrite E. cbn [bind]. apply process_loop_fuel; lia.
Qed.

Lemma process_loop_total (fuel : nat) :
  forall data ra c,
    length data - pos c <= fuel ->
    exists c', process_loop cipher_decrypt fuel data ra c = Ok c'.
Proof.
  induction fuel as [|f IH]; intros data ra c Hf.
  - rewrite process_loop_done by lia. eauto.
  - destruct (Nat.le_gt_cases (length data) (pos c)) as [H|H].
    { rewrite process_loop_done by lia. eauto. }
    cbn [process_loop].
    destruct (Nat.ltb_spec (pos c) (length data)); [|lia].
    destruct (loop_body_cases data ra c) as [->|(c' & -> & Hp)]; cbn [bind].
    + eauto.
    + apply IH. lia.
Qed.

(** *** A whole packet under the cursor *)

Lemma length_encode (p : packet) : length (encode p) = 12 + length (payload p).
Proof. reflexivity. Qed.

Lemma get_app_skip (pre l : list byte) (k : nat) :
  get (pre ++ l) (length pre + k) = get l k.
Proof. unfold get. apply app_nth2_plus. Qed.

Lemma fits_true (p : packet) :
  fits p = true ->
  total_fragments p < 256 * 256 /\ fragment_index p < 256 * 256
  /\ length (payload p) < 256 * 256.
Proof.
  unfold fits. rewrite !andb_true_iff, !Nat.ltb_lt. tauto.
Qed.

(** What the parser reads at the start of an encoded packet. *)
Lemma read_packet (pre post : list byte) (p : packet) :
  fits p = true ->
  let data := pre ++ encode p ++ post in
  get data (length pre) = x7f
  /\ get data (length pre + 1) = kind p
  /\ unpack_H (slice data (length pre + 3) (length pre + 5)) = Ok (total_fragments p)
  /\ unpack_H (slice data (length pre + 5) (length pre + 7)) = Ok (fragment_index p)
  /\ unpack_H (slice data (length pre + 7) (length pre + 9)) = Ok (length (payload p))
  /\ slice data (length pre + 12) (length pre + 12 + length (payload p)) = payload p
  /\ length data = length pre + 12 + length (payload p) + length post.
Proof.
  intros Hfits data. apply fits_true in Hfits. destruct Hfits as (Ht & Hi & Hl).
  subst data.
  rewrite <- (Nat.add_0_r (length pre)) at 1.
  rewrite !get_app_skip, !slice_app_skip.
  rewrite <- !Nat.add_assoc, slice_app_skip.
  repeat split.
  - change (slice (encode p ++ post) 3 5) with (pack_H (total_fragments p)).
    now apply unpack_pack_H.
  - change (slice (encode p ++ post) 5 7) with (pack_H (fragment_index p)).
    now apply unpack_pack_H.
  - change (slice (encode p ++ post) 7 9) with (pack_H (length (payload p))).
    now apply unpack_pack_H.
  - change (encode p ++ post)
      with ((firstn 12 (encode p)) ++ (payload p ++ post)).
    rewrite (@slice_app_skip' _ (firstn 12 (encode p)) _ 12 0 (length (payload p)))
      by reflexivity.
    rewrite slice_app_l by lia. apply slice_all. lia.
  - rewrite !length_app, length_encode. lia.
Qed.

Lemma loop_body_video_at (pre post : list byte) (p : packet) (ra : bool) (c : cursor) :
  is_video p = true ->
  pos c = length pre ->
  loop_body cipher_decrypt (pre ++ encode p ++ post) ra c
  = ('(r, video) <-
       video_packet cipher_decrypt (self c) (video_result c) (length pre)
         (Byte.eqb (kind p) x28) (total_fragments p) (fragment_index p) (payload p) ;;
     Ok (Next {| pos := length pre + 12 + length (payload p); self := r;
                 video_result := video; audio_result := audio_result c |})).
Proof.
  intros Hv Hp. unfold is_video in Hv. apply andb_true_iff in Hv.
  destruct Hv as [Hfits Hkind].
  destruct (read_packet pre post p Hfits) as (G0 & G1 & Ut & Ui & Ul & Pl & Len).
  unfold loop_body, HEADER_SIZE. cbv zeta.
  rewrite Hp, G0, G1, Hkind, Len, Ut, Ui, Ul. cbn [Byte.eqb bind andb].
  rewrite Pl.
  destruct (Nat.ltb_spec (length pre + 1)
              (length pre + 12 + length (payload p) + length post)); [|lia].
  cbn [andb].
  destruct (Nat.ltb_spec (length pre + 12 + length (payload p) + length post)
              (length pre + 12)); [lia|].
  destruct (Nat.ltb_spec (length pre + 12 + length (payload p) + length post)
              (length pre + 12 + length (payload p))); [lia|].
  reflexivity.
Qed.

(** The payload of an audio packet after the metadata rule of line 241. *)
Lemma loop_body_audio_at (pre post : list byte) (p : packet) (ra : bool) (c : cursor) :
  is_audio p = true ->
  pos c = length pre ->
  loop_body cipher_decrypt (pre ++ encode p ++ post) ra c
  = Ok (Next {| pos := length pre + 12 + length (payload p); self := self c;
                video_result := video_result c;
                audio_result :=
                  if ra
                  then audio_result c
                         ++ decrypt_audio cipher_decrypt
                              (if (fragment_index p =? 0) && (16 <? length (payload p))
                               then skipn 16 (payload p)
                               else payload p)
                  else audio_result c |}).
Proof.
  intros Ha Hp. unfold is_audio in Ha. rewrite !andb_true_iff in Ha.
  destruct Ha as [[[Hfits Hkind] Hlen] Htot].
  apply Byte.byte_dec_bl in Hkind.
  apply Nat.leb_le in Hlen. apply Nat.leb_le in Htot.
  destruct (read_packet pre post p Hfits) as (G0 & G1 & Ut & Ui & Ul & Pl & Len).
  unfold loop_body, HEADER_SIZE. cbv zeta.
  rewrite Hp, G0, G1, Hkind, Len, Ut, Ui, Ul.
  cbn [Byte.eqb bind andb is_video_kind orb].
  rewrite Pl.
  rewrite andb_false_r.
  destruct (Nat.ltb_spec (length pre + 1)
              (length pre + 12 + length (payload p) + length post)); [|lia].
  cbn [andb].
  destruct (Nat.ltb_spec (length pre + 12 + length (payload p) + length post)
              (length pre + 12)); [lia|].
  destruct (Nat.ltb_spec 1000 (length (payload p))); [lia|].
  destruct (Nat.ltb_spec 10 (total_fragments p)); [lia|].
  destruct (Nat.ltb_spec (length pre + 12 + length (payload p) + length post)
              (length pre + 12 + length (payload p))); [lia|].
  cbn [orb]. destruct ra; reflexivity.
Qed.

(** *** A frame delivered fragment 0 first *)

Lemma final_flush_complete (r : recorder) (video : list byte)
    (s : nat) (cur : list chunk) :
  current_frame_start r = Some s ->
  frame_chunks r = Some cur ->
  current_total r <= length cur ->
  final_flush cipher_decrypt r video
  = Ok (closed (current_total r) (current_is_iframe r),
        video ++ emit cipher_decrypt (current_is_iframe r)
                   (reassemble (sort_chunks cur))).
Proof.
  intros Hs Hc Hl. unfold final_flush. rewrite Hs, Hc.
  destruct (Nat.leb_spec (current_total r) (length cur)); [|lia].
  now rewrite _decrypt_frame_emit.
Qed.

(** The fragments after fragment 0: all but the last are appended, the
    last one completes the count and the frame is emitted. *)
Lemma process_loop_collect (ra : bool) (fuel : nat) (post : list byte)
    (others : list packet) :
  forall pre c acc,
    others <> [] ->
    Forall (fun p => is_video p = true /\ fragment_index p <> 0) others ->
    pos c = length pre ->
    frame_chunks (self c) = Some acc ->
    current_total (self c) = length acc + length others ->
    length (pre ++ concat (map encode others) ++ post) - pos c <= fuel ->
    process_loop cipher_decrypt fuel (pre ++ concat (map encode others) ++ post) ra c
    = process_loop cipher_decrypt fuel (pre ++ concat (map encode others) ++ post) ra
        {| pos := length pre + length (concat (map encode others));
           self := closed (current_total (self c)) (current_is_iframe (self c));
           video_result :=
             video_result c
               ++ emit cipher_decrypt (current_is_iframe (self c))
                    (reassemble
                       (sort_chunks
                          (acc ++ map (fun p => (fragment_index p, payload p)) others)));
           audio_result := audio_result c |}.
Proof.
  induction others as [|o rest IH]; intros pre c acc Hne HF Hp Ha Ht Hf;
    [contradiction|].
  inversion HF as [|? ? [Hv Hi] HF']; subst.
  cbn [map concat] in *.
  assert (D : pre ++ (encode o ++ concat (map encode rest)) ++ post
              = pre ++ encode o ++ (concat (map encode rest) ++ post))
    by now rewrite <- app_assoc.
  rewrite D in *.
  assert (Len : length (pre ++ encode o ++ concat (map encode rest) ++ post)
                = length pre + 12 + length (payload o)
                  + length (concat (map encode rest) ++ post)).
  { rewrite !length_app, length_encode. lia. }
  destruct rest as [|o' rest].
  - erewrite process_loop_next; [reflexivity | lia | lia |].
    rewrite loop_body_video_at by assumption.
    erewrite video_packet_last; [| exact Hi | exact Ha | cbn [length] in Ht; lia].
    cbn [bind map concat]. rewrite app_nil_r, length_encode, Nat.add_assoc.
    reflexivity.
  - erewrite process_loop_next; [| lia | lia |].
    2:{ rewrite loop_body_video_at by assumption.
        erewrite video_packet_more; [| exact Hi | exact Ha | cbn [length] in Ht; lia].
        cbn [bind]. reflexivity. }
    rewrite app_assoc.
    rewrite (IH (pre ++ encode o) _ (acc ++ [(fragment_index o, payload o)])).
    + rewrite <- app_assoc. f_equal. cbn [self pos video_result audio_result
        current_total current_is_iframe].
      f_equal.
      * rewrite !length_app, length_encode.
        change (concat (map encode (o' :: rest)))
          with (encode o' ++ concat (map encode rest)).
        rewrite !length_app. lia.
      * now rewrite <- app_assoc.
    + discriminate.
    + assumption.
    + cbn [pos]. rewrite length_app, length_encode. lia.
    + reflexivity.
    + cbn [self current_total]. rewrite Ht, length_app. cbn [length]. lia.
    + rewrite <- app_assoc. cbn [pos]. rewrite Len. lia.
Qed.

(** Fragment 0 at the start of the buffer closes whatever frame was open
    and opens its own. *)
Lemma process_loop_first (r : recorder) (ra : bool) (fuel : nat)
    (first : packet) (post : list byte) :
  is_video first = true ->
  fragment_index first = 0 ->
  length (encode first ++ post) <= fuel ->
  process_loop cipher_decrypt fuel (encode first ++ post) ra
    {| pos := 0; self := r; video_result := []; audio_result := [] |}
  = process_loop cipher_decrypt fuel (encode first ++ post) ra
      {| pos := 12 + length (payload first);
         self := {| frame_chunks := Some [(0, payload first)];
                    current_frame_start := Some 0;
                    current_total := total_fragments first;
                    current_is_iframe := Byte.eqb (kind first) x28 |};
         video_result := pending cipher_decrypt r;
         audio_result := [] |}.
Proof.
  intros Hv H0 Hf.
  apply process_loop_next.
  - cbn [pos]. rewrite length_app, length_encode. lia.
  - cbn [pos]. lia.
  - change (encode first ++ post) with ([] ++ encode first ++ post).
    rewrite loop_body_video_at by (assumption || reflexivity).
    cbn [length self video_result audio_result Nat.add].
    rewrite H0, video_packet_first. reflexivity.
Qed.

(** A frame whose fragments are numbered 0..m, delivered fragment 0 first
    and the others in any order, is emitted whole. *)
Lemma deliver_frame (r : recorder) (ra : bool) (first : packet) (others : list packet) :
  is_video first = true ->
  fragment_index first = 0 ->
  total_fragments first = S (length others) ->
  Forall (fun p => is_video p = true) others ->
  Permutation (map fragment_index others) (seq 1 (length others)) ->
  _process_stream_data cipher_decrypt r (concat (map encode (first :: others))) ra
  = Ok ((pending cipher_decrypt r
           ++ emit cipher_decrypt (Byte.eqb (kind first) x28) (frame_data first others),
         [], []),
        closed (S (length others)) (Byte.eqb (kind first) x28)).
Proof.
  intros Hv H0 Ht HF HP.
  assert (HF' : Forall (fun p => is_video p = true /\ fragment_index p <> 0) others).
  { rewrite Forall_forall in *. intros p Hp. split; [now apply HF|].
    assert (Hi : In (fragment_index p) (seq 1 (length others))).
    { eapply Permutation_in; [exact HP | now apply in_map]. }
    apply in_seq in Hi. lia. }
  rewrite <- (@reassemble_frame first others H0 HP).
  unfold _process_stream_data. cbn [map concat].
  rewrite process_loop_first by (assumption || lia). rewrite Ht.
  destruct others as [|o others'].
  - rewrite process_loop_done
      by (cbn [pos map concat]; rewrite length_app, length_encode; cbn [length]; lia).
    cbn [bind self video_result].
    erewrite final_flush_complete; [| reflexivity | reflexivity | cbn; lia].
    cbn [bind current_total current_is_iframe audio_result pos map concat].
    rewrite skipn_all2 by (rewrite length_app, length_encode; cbn [length]; lia).
    reflexivity.
  - set (others := o :: others') in *.
    rewrite <- (app_nil_r (concat (map encode others))).
    erewrite (@process_loop_collect ra _ [] others (encode first) _ [(0, payload first)]).
    + rewrite process_loop_done
        by (cbn [pos]; rewrite !length_app; cbn [length]; lia).
      cbn [bind self video_result audio_result pos current_total current_is_iframe].
      unfold final_flush, closed at 1 2. cbn [current_frame_start bind].
      rewrite skipn_all2 by (rewrite !length_app; cbn [length]; lia).
      reflexivity.
    + discriminate.
    + assumption.
    + cbn [pos]. rewrite length_encode. reflexivity.
    + reflexivity.
    + cbn [self current_total length]. lia.
    + cbn [pos]. lia.
Qed.

(** *** Whole packets, then a truncated one *)

Lemma process_loop_packets (ra : bool) (fuel : nat) (post : list byte)
    (pkts : list packet) :
  forall pre c,
    Forall (fun p => is_video p = true \/ is_audio p = true) pkts ->
    pos c = length pre ->
    length (pre ++ concat (map encode pkts) ++ post) - pos c <= fuel ->
    exists c',
      process_loop cipher_decrypt fuel (pre ++ concat (map encode pkts) ++ post) ra c
      = process_loop cipher_decrypt fuel (pre ++ concat (map encode pkts) ++ post) ra c'
      /\ pos c' = length pre + length (concat (map encode pkts)).
Proof.
  induction pkts as [|p rest IH]; intros pre c HF Hp Hf.
  - exists c. split; [reflexivity|]. cbn [map concat length]. lia.
  - inversion HF as [|? ? Hk HF']; subst.
    cbn [map concat] in *.
    assert (D : pre ++ (encode p ++ concat (map encode rest)) ++ post
                = pre ++ encode p ++ (concat (map encode rest) ++ post))
      by now rewrite <- app_assoc.
    assert (D' : pre ++ (encode p ++ concat (map encode rest)) ++ post
                 = (pre ++ encode p) ++ concat (map encode rest) ++ post)
      by now rewrite <- !app_assoc.
    assert (Len : length (pre ++ (encode p ++ concat (map encode rest)) ++ post)
                  = length pre + 12 + length (payload p)
                    + length (concat (map encode rest) ++ post)).
    { rewrite !length_app, length_encode. lia. }
    assert (Step : exists c1,
               loop_body cipher_decrypt
                 (pre ++ (encode p ++ concat (map encode rest)) ++ post) ra c
               = Ok (Next c1)
               /\ pos c1 = length (pre ++ encode p)).
    { rewrite D. destruct Hk as [Hv|Ha].
      - rewrite loop_body_video_at by assumption.
        destruct (video_packet_total (self c) (video_result c) (length pre)
                    (Byte.eqb (kind p) x28) (total_fragments p) (fragment_index p)
                    (payload p)) as (r' & v' & ->).
        cbn [bind]. eexists. split; [reflexivity|].
        cbn [pos]. rewrite length_app, length_encode. lia.
      - rewrite loop_body_audio_at by assumption.
        eexists. split; [reflexivity|].
        cbn [pos]. rewrite length_app, length_encode. lia. }
    destruct Step as (c1 & Hb & Hp1).
    erewrite process_loop_next; [| lia | lia | exact Hb].
    rewrite D' in *.
    destruct (IH (pre ++ encode p) c1 HF' Hp1) as (c' & E & Hp');
      [rewrite length_app in Hp1; lia|].
    exists c'. split; [exact E|].
    rewrite Hp', !length_app. lia.
Qed.

Lemma slice_two (l : list byte) :
  forall a, a + 2 <= length l -> slice l a (a + 2) = [get l a; get l (a + 1)].
Proof.
  unfold slice, get.
  induction l as [|x l IH]; intros a H; [cbn in H; lia|].
  destruct a as [|a].
  - destruct l as [|y l]; [cbn in H; lia | reflexivity].
  - cbn [length] in H. replace (S a + 2 - S a) with (a + 2 - a) by lia.
    cbn [skipn Nat.add nth]. apply IH. lia.
Qed.

(** The cursor does not move from the start of a truncated video packet. *)
Lemma loop_body_truncated (pre tl : list byte) (ra : bool) (c : cursor) :
  truncated_video tl = true ->
  pos c = length pre ->
  loop_body cipher_decrypt (pre ++ tl) ra c = Ok (Break c).
Proof.
  intros Ht Hp. unfold truncated_video in Ht.
  destruct tl as [|b0 [|b1 rest]]; try discriminate.
  set (tl := b0 :: b1 :: rest) in *.
  rewrite !andb_true_iff in Ht. destruct Ht as [[H0 H1] H2].
  apply Byte.byte_dec_bl in H0.
  assert (G0 : get (pre ++ tl) (length pre) = x7f).
  { rewrite <- (Nat.add_0_r (length pre)), get_app_skip. now rewrite <- H0. }
  assert (G1 : get (pre ++ tl) (length pre + 1) = b1)
    by (now rewrite get_app_skip).
  unfold loop_body, HEADER_SIZE. cbv zeta.
  rewrite Hp, G0, G1, H1, length_app.
  change (Byte.eqb x7f x7f) with true. cbn [andb].
  destruct (Nat.ltb_spec (length pre + 1) (length pre + length tl));
    [|cbn [tl length] in *; lia].
  destruct (Nat.ltb_spec (length pre + length tl) (length pre + 12)) as [|H12];
    [reflexivity|].
  destruct (Nat.ltb_spec (length tl) 12) as [|_]; [lia|].
  cbn [orb] in H2. apply Nat.ltb_lt in H2.
  destruct (@header_fields (pre ++ tl) (length pre)) as (t & cf & l & Et & Ec & El);
    [rewrite length_app; lia|].
  rewrite Et, Ec. cbn [bind]. clear El.
  rewrite slice_app_skip.
  change (slice tl 7 9) with (slice tl 7 (7 + 2)). rewrite slice_two by lia.
  cbn [unpack_H bind]. change (7 + 1) with 8.
  destruct (Nat.ltb_spec (length pre + length tl)
              (length pre + 12
               + (Byte.to_nat (get tl 7) + 256 * Byte.to_nat (get tl 8))));
    [reflexivity | lia].
Qed.

(** *** [record_audio] only decides whether audio bytes are produced *)

Lemma loop_body_record_audio (data : list byte) (c1 c2 : cursor) :
  pos c1 = pos c2 -> self c1 = self c2 -> video_result c1 = video_result c2 ->
  (loop_body cipher_decrypt data true c1 = Ok (Break c1)
   /\ loop_body cipher_decrypt data false c2 = Ok (Break c2))
  \/ exists a b,
       loop_body cipher_decrypt data true c1 = Ok (Next a)
       /\ loop_body cipher_decrypt data false c2 = Ok (Next b)
       /\ pos a = pos b /\ self a = self b /\ video_result a = video_result b
       /\ audio_result b = audio_result c2
       /\ pos c2 < pos b.
Proof.
  intros Hp Hs Hv. unfold loop_body, HEADER_SIZE. rewrite Hp, Hs, Hv.
  destruct (Byte.eqb (get data (pos c2)) x7f && (pos c2 + 1 <? length data)
            && is_video_kind (get data (pos c2 + 1))).
  { destruct (Nat.ltb_spec (length data) (pos c2 + 12)) as [Hh|Hh]; [now left|].
    destruct (header_fields data (pos c2) Hh) as (t & cf & l & -> & -> & ->).
    cbn [bind].
    destruct (Nat.ltb_spec (length data) (pos c2 + 12 + l)); [now left|].
    destruct (video_packet_total (self c2) (video_result c2) (pos c2)
                (Byte.eqb (get data (pos c2 + 1)) x28) t cf
                (slice data (pos c2 + 12) (pos c2 + 12 + l))) as (r' & v' & ->).
    cbn [bind]. right. do 2 eexists.
    repeat (split; [reflexivity|]). cbn [pos]. lia. }
  destruct (Byte.eqb (get data (pos c2)) x7f && (pos c2 + 1 <? length data)
            && Byte.eqb (get data (pos c2 + 1)) x18).
  { destruct (Nat.ltb_spec (length data) (pos c2 + 12)) as [Hh|Hh]; [now left|].
    destruct (header_fields data (pos c2) Hh) as (t & cf & l & -> & -> & ->).
    cbn [bind].
    destruct ((1000 <? l) || (10 <? t) || (length data <? pos c2 + 12 + l));
      cbn [negb]; right; do 2 eexists;
      repeat (split; [reflexivity|]); cbn [pos]; lia. }
  right. do 2 eexists. repeat (split; [reflexivity|]). cbn [pos]. lia.
Qed.

Lemma process_loop_record_audio (fuel : nat) :
  forall data c1 c2,
    pos c1 = pos c2 -> self c1 = self c2 -> video_result c1 = video_result c2 ->
    length data - pos c2 <= fuel ->
    exists a b,
      process_loop cipher_decrypt fuel data true c1 = Ok a
      /\ process_loop cipher_decrypt fuel data false c2 = Ok b
      /\ pos a = pos b /\ self a = self b /\ video_result a = video_result b
      /\ audio_result b = audio_result c2.
Proof.
  induction fuel as [|f IH]; intros data c1 c2 Hp Hs Hv Hf.
  - rewrite !process_loop_done by lia. eauto 10.
  - destruct (Nat.le_gt_cases (length data) (pos c2)) as [H|H].
    { rewrite !process_loop_done by lia. eauto 10. }
    rewrite !process_loop_S by lia.
    destruct (loop_body_record_audio data c1 c2 Hp Hs Hv)
      as [[-> ->]|(a & b & -> & -> & Hp' & Hs' & Hv' & Ha & Hlt)]; cbn [bind].
    + eauto 10.
    + destruct (IH data a b Hp' Hs' Hv') as (a' & b' & E1 & E2 & ? & ? & ? & ?);
        [lia|].
      exists a', b'. rewrite E1, E2. repeat split; congruence.
Qed.

End WithCipher.

(** C10.  Whatever the buffer and the recorder, the video bytes, the
    recorder after the call and the unconsumed remainder returned by
    [_process_stream_data] are the same with [record_audio] set or not; with
    it unset no audio bytes are produced. *)
Theorem record_audio_changes_audio_only
    (cipher_decrypt : list byte -> list byte) (r : recorder) (data : list byte) :
  exists video audio remaining r',
    _process_stream_data cipher_decrypt r data true = Ok ((video, audio, remaining), r')
    /\ _process_stream_data cipher_decrypt r data false = Ok ((video, [], remaining), r').
Proof.
  unfold _process_stream_data.
  destruct (@process_loop_record_audio cipher_decrypt (length data) data
              {| pos := 0; self := r; video_result := []; audio_result := [] |}
              {| pos := 0; self := r; video_result := []; audio_result := [] |}
              eq_refl eq_refl eq_refl)
    as (a & b & -> & -> & Hp & Hs & Hv & Ha); [cbn [pos]; lia|].
  cbn [bind]. rewrite Hp, Hs, Hv, Ha. cbn [audio_result].
  destruct (final_flush_pending cipher_decrypt (self b) (video_result b)) as (r' & ->).
  cbn [bind]. eauto 10.
Qed.

Lemma frame_data_permutation (first : packet) (others others' : list packet) :
  fragment_index first = 0 ->
  Permutation (map fragment_index others) (seq 1 (length others)) ->
  Permutation others others' ->
  frame_data first others' = frame_data first others.
Proof.
  intros H0 HP Hperm.
  assert (HP' : Permutation (map fragment_index others') (seq 1 (length others'))).
  { rewrite <- (Permutation_length Hperm).
    eapply Permutation_trans; [|exact HP].
    apply Permutation_map. now symmetry. }
  rewrite <- (@reassemble_frame first others H0 HP).
  rewrite <- (@reassemble_frame first others' H0 HP').
  f_equal. symmetry. apply sort_chunks_permutation.
  - apply perm_skip. now apply Permutation_map.
  - cbn [map fst]. rewrite map_map. cbn [fst].
    eapply Permutation_NoDup; [|apply (seq_NoDup (S (length others)) 0)].
    cbn [seq]. apply perm_skip. now symmetry.
Qed.

(** C1, as the code has it.  For every video frame whose fragments carry
    the indices 0..total_fragments-1, delivering fragment 0 first and the
    other fragments in any permutation yields the same reassembled frame
    bytes: the payloads in ascending order of [fragment_index], fragment 0
    contributing only [payload[16:]] and every other fragment its whole
    payload (then the decryption rule of the frame). *)
Theorem frame_bytes_any_order_after_fragment_0
    (cipher_decrypt : list byte -> list byte) (r : recorder) (ra : bool)
    (first : packet) (others others' : list packet) :
  is_video first = true ->
  fragment_index first = 0 ->
  total_fragments first = S (length others) ->
  Forall (fun p => is_video p = true) others ->
  Permutation (map fragment_index others) (seq 1 (length others)) ->
  Permutation others others' ->
  exists r',
    _process_stream_data cipher_decrypt r (concat (map encode (first :: others))) ra
    = Ok ((pending cipher_decrypt r
             ++ emit cipher_decrypt (Byte.eqb (kind first) x28) (frame_data first others),
           [], []), r')
    /\ _process_stream_data cipher_decrypt r (concat (map encode (first :: others'))) ra
       = Ok ((pending cipher_decrypt r
                ++ emit cipher_decrypt (Byte.eqb (kind first) x28) (frame_data first others),
              [], []), r').
Proof.
  intros Hv H0 Ht HF HP Hperm.
  exists (closed (S (length others)) (Byte.eqb (kind first) x28)).
  split; [now apply deliver_frame|].
  rewrite <- (@frame_data_permutation first others others' H0 HP Hperm).
  rewrite (Permutation_length Hperm).
  apply deliver_frame; try assumption.
  - rewrite <- (Permutation_length Hperm). exact Ht.
  - eapply Permutation_Forall; eassumption.
  - rewrite <- (Permutation_length Hperm).
    eapply Permutation_trans; [|exact HP].
    apply Permutation_map. now symmetry.
Qed.

Lemma frame_bytes_any_order_after_fragment_0_witness :
  exists r',
    _process_stream_data demo_cipher init
      (concat (map encode [example_iframe_0; example_iframe_1; example_iframe_2])) true
    = Ok ((pending demo_cipher init
             ++ emit demo_cipher true
                  (frame_data example_iframe_0 [example_iframe_1; example_iframe_2]),
           [], []), r')
    /\ _process_stream_data demo_cipher init
         (concat (map encode [example_iframe_0; example_iframe_2; example_iframe_1])) true
       = Ok ((pending demo_cipher init
                ++ emit demo_cipher true
                     (frame_data example_iframe_0 [example_iframe_1; example_iframe_2]),
              [], []), r').
Proof.
  exact (@frame_bytes_any_order_after_fragment_0 demo_cipher init true
           example_iframe_0
           [example_iframe_1; example_iframe_2]
           [example_iframe_2; example_iframe_1]
           eq_refl eq_refl eq_refl
           (Forall_cons example_iframe_1
              (eq_refl : is_video example_iframe_1 = true)
              (Forall_cons example_iframe_2
                 (eq_refl : is_video example_iframe_2 = true) (Forall_nil _)))
           (Permutation_refl _)
           (perm_swap example_iframe_2 example_iframe_1 [])).
Defined.

(** C1 as stated fails: with fragment 1 delivered before fragment 0 the
    demultiplexer discards fragment 1 (no frame is open), and the frame that
    the in-order delivery emits is never emitted. *)
Lemma frame_bytes_any_permutation_counterexample :
  encode example_fragment_0
  = [x7f; x29; x00; x02; x00; x00; x00; x12; x00; x00; x00; x00]
      ++ repeat x4d 16 ++ [x0a; x0b]
  /\ encode example_fragment_1
     = [x7f; x29; x00; x02; x00; x01; x00; x02; x00; x00; x00; x00; x0c; x0d]
  /\ _process_stream_data demo_cipher init
       (encode example_fragment_0 ++ encode example_fragment_1) true
     = Ok (([x0a; x0b; x0c; x0d], [], []), closed 2 false)
  /\ _process_stream_data demo_cipher init
       (encode example_fragment_1 ++ encode example_fragment_0) true
     = Ok (([], [], []),
           {| frame_chunks := Some [(0, repeat x4d 16 ++ [x0a; x0b])];
              current_frame_start := Some 14;
              current_total := 2;
              current_is_iframe := false |})
  /\ _process_stream_data demo_cipher init
       (encode example_fragment_1 ++ encode example_fragment_0) true
     <> _process_stream_data demo_cipher init
          (encode example_fragment_0 ++ encode example_fragment_1) true.
Proof.
  repeat split; try (vm_compute; reflexivity).
  vm_compute. discriminate.
Qed.

(** C3.  [_decrypt_frame] applies [decrypt_64_80] to the reassembled payload
    of an I-frame, and to that of any frame of 64 bytes or more; a P-frame
    payload shorter than 64 bytes is returned unchanged.  In the
    demultiplexer the I-frame flag is that of the kind byte 0x28 of
    fragment 0, so this is the rule of every emitted frame. *)
Theorem decrypt_frame_rule
    (cipher_decrypt : list byte -> list byte) (r : recorder) (ra : bool)
    (first : packet) (others : list packet) (chunks : list chunk) :
  is_video first = true ->
  fragment_index first = 0 ->
  total_fragments first = S (length others) ->
  Forall (fun p => is_video p = true) others ->
  Permutation (map fragment_index others) (seq 1 (length others)) ->
  (* the function *)
  _decrypt_frame cipher_decrypt chunks true
  = decrypt_64_80 cipher_decrypt (reassemble (sort_chunks chunks))
  /\ _decrypt_frame cipher_decrypt chunks false
     = (if 64 <=? length (reassemble (sort_chunks chunks))
        then decrypt_64_80 cipher_decrypt (reassemble (sort_chunks chunks))
        else Ok (reassemble (sort_chunks chunks)))
  (* the frame the demultiplexer emits *)
  /\ exists out r',
       _process_stream_data cipher_decrypt r (concat (map encode (first :: others))) ra
       = Ok ((pending cipher_decrypt r ++ out, [], []), r')
       /\ (if Byte.eqb (kind first) x28 || (64 <=? length (frame_data first others))
           then decrypt_64_80 cipher_decrypt (frame_data first others) = Ok out
           else out = frame_data first others).
Proof.
  intros Hv H0 Ht HF HP. repeat split.
  eexists. eexists. split; [now apply deliver_frame|].
  unfold emit.
  destruct (Byte.eqb (kind first) x28 || (64 <=? length (frame_data first others)));
    [apply DecryptFacts.decrypt_64_80_windows | reflexivity].
Qed.

Lemma decrypt_frame_rule_witness :
  _decrypt_frame demo_cipher [(0, repeat x4d 16 ++ repeat x01 70)] false
  = decrypt_64_80 demo_cipher (repeat x01 70).
Proof.
  destruct (@decrypt_frame_rule demo_cipher init true
              example_fragment_0 [example_fragment_1]
              [(0, repeat x4d 16 ++ repeat x01 70)]
              eq_refl eq_refl eq_refl
              (Forall_cons example_fragment_1
                 (eq_refl : is_video example_fragment_1 = true) (Forall_nil _))
              (Permutation_refl _)) as (_ & H & _).
  exact H.
Defined.

(** C5, as the code has it.  For every audio packet with
    [fragment_index == 0], the 16-byte metadata prefix is stripped before
    decryption only when the payload is strictly longer than 16 bytes; a
    payload of exactly 16 bytes (or fewer) is decrypted whole and its bytes
    are appended to the audio output. *)
Theorem audio_metadata_rule
    (cipher_decrypt : list byte -> list byte) (r : recorder)
    (p : packet) (pre post : list byte) (c : cursor) :
  is_audio p = true ->
  fragment_index p = 0 ->
  pos c = length pre ->
  (* the packet anywhere in a buffer *)
  loop_body cipher_decrypt (pre ++ encode p ++ post) true c
  = Ok (Next {| pos := length pre + 12 + length (payload p);
                self := self c;
                video_result := video_result c;
                audio_result :=
                  audio_result c
                    ++ decrypt_audio cipher_decrypt
                         (if 16 <? length (payload p)
                          then skipn 16 (payload p)
                          else payload p) |})
  (* the packet alone in the buffer *)
  /\ (exists r',
        _process_stream_data cipher_decrypt r (encode p) true
        = Ok ((pending cipher_decrypt r,
               decrypt_audio cipher_decrypt
                 (if 16 <? length (payload p) then skipn 16 (payload p) else payload p),
               []), r'))
  (* a payload of exactly 16 bytes is one decrypted block *)
  /\ (length (payload p) = 16 ->
      decrypt_audio cipher_decrypt (payload p) = cipher_decrypt (payload p)).
Proof.
  intros Ha H0 Hp. split; [|split].
  - rewrite loop_body_audio_at by assumption. rewrite H0. reflexivity.
  - unfold _process_stream_data.
    erewrite process_loop_next.
    2:{ cbn [pos]. rewrite length_encode. lia. }
    2:{ cbn [pos]. lia. }
    2:{ rewrite <- (app_nil_r (encode p)) at 1.
        change (encode p ++ []) with ([] ++ encode p ++ []).
        rewrite loop_body_audio_at by (assumption || reflexivity).
        rewrite H0. reflexivity. }
    rewrite process_loop_done by (cbn [pos length]; rewrite length_encode; lia).
    cbn [bind self video_result audio_result pos length app].
    destruct (final_flush_pending cipher_decrypt r []) as (r' & ->).
    cbn [bind app Nat.eqb andb].
    rewrite (@skipn_all2 _ _ (encode p)) by (rewrite length_encode; lia).
    eauto.
  - intro H16. unfold decrypt_audio, range0. rewrite H16.
    cbn [Nat.sub Nat.add Nat.div Nat.divmod fst seq map fold_left Nat.mul
         Nat.modulo snd Nat.ltb Nat.leb app].
    rewrite slice_all by lia. reflexivity.
Qed.

Lemma audio_metadata_rule_witness :
  exists r',
    _process_stream_data demo_cipher init (encode example_audio_16) true
    = Ok ((pending demo_cipher init,
           decrypt_audio demo_cipher (payload example_audio_16), []), r').
Proof.
  destruct (@audio_metadata_rule demo_cipher init example_audio_16 [] []
              {| pos := 0; self := init; video_result := []; audio_result := [] |}
              eq_refl eq_refl eq_refl) as (_ & H & _).
  exact H.
Defined.

(** C5 as stated fails: an audio packet, fragment 0, with a payload of
    exactly 16 bytes is not dropped; its 16 bytes are decrypted and appended
    to the audio output. *)
Lemma audio_16_byte_packet_counterexample :
  encode example_audio_16
  = [x7f; x18; x00; x01; x00; x00; x00; x10; x00; x00; x00; x00;
     x00; x01; x02; x03; x04; x05; x06; x07; x08; x09; x0a; x0b; x0c; x0d; x0e; x0f]
  /\ _process_stream_data demo_cipher init (encode example_audio_16) true
     = Ok (([], demo_cipher (payload example_audio_16), []), init)
  /\ length (demo_cipher (payload example_audio_16)) = 16
  /\ demo_cipher (payload example_audio_16) <> [].
Proof.
  repeat split; try (vm_compute; reflexivity).
  vm_compute. discriminate.
Qed.

(** C6.  When the cursor stands at the start of a truncated video packet
    (0x7F, then 0x28 or 0x29, with the 12-byte header or the declared payload
    running past the end of the buffer) the loop stops there without moving
    the cursor; so a buffer of whole packets followed by a truncated video
    packet returns exactly the truncated packet as its remainder. *)
Theorem truncated_video_packet_is_kept
    (cipher_decrypt : list byte -> list byte) (r : recorder) (ra : bool)
    (pkts : list packet) (tl : list byte) :
  Forall (fun p => is_video p = true \/ is_audio p = true) pkts ->
  truncated_video tl = true ->
  (forall pre c fuel,
     pos c = length pre ->
     length tl <= fuel ->
     process_loop cipher_decrypt fuel (pre ++ tl) ra c = Ok c)
  /\ exists video audio r',
       _process_stream_data cipher_decrypt r (concat (map encode pkts) ++ tl) ra
       = Ok ((video, audio, tl), r').
Proof.
  intros HF Ht. split.
  - intros pre c fuel Hp Hf. apply process_loop_break.
    + rewrite length_app. lia.
    + now apply loop_body_truncated.
  - unfold _process_stream_data.
    set (data := concat (map encode pkts) ++ tl).
    destruct (@process_loop_packets cipher_decrypt ra (length data) tl pkts []
                {| pos := 0; self := r; video_result := []; audio_result := [] |}
                HF eq_refl) as (c' & E & Hp').
    { cbn [app pos]. fold data. lia. }
    cbn [app length Nat.add] in E, Hp'. fold data in E. rewrite E.
    rewrite process_loop_break.
    + cbn [bind].
      destruct (final_flush_pending cipher_decrypt (self c') (video_result c'))
        as (r' & ->).
      cbn [bind]. unfold data. rewrite Hp'.
      rewrite skipn_app, skipn_all, Nat.sub_diag. cbn [skipn app]. eauto.
    + lia.
    + unfold data. now apply loop_body_truncated.
Qed.

Lemma truncated_video_packet_is_kept_witness :
  exists video audio r',
    _process_stream_data demo_cipher init
      (concat (map encode [example_audio_16]) ++ [x7f; x28; x00; x01; x00]) true
    = Ok ((video, audio, [x7f; x28; x00; x01; x00]), r').
Proof.
  exact (proj2 (@truncated_video_packet_is_kept demo_cipher init true
                  [example_audio_16] [x7f; x28; x00; x01; x00]
                  (Forall_cons example_audio_16
                     (or_intror (eq_refl : is_audio example_audio_16 = true))
                     (Forall_nil _)) eq_refl)).
Defined.

End StreamFacts.

(** ** rtsp_server.py: RTP packetization (C8) *)

Module RtspFacts.

Import Rtsp Spec.

(** The packetizer states that [RTPPacketizer.__init__] builds and that
    [_make_rtp_packet] preserves. *)
Lemma make_rtp_packet_ok (self : RTPPacketizer) (payload : list byte) (marker : bool) :
  (0 <= ssrc self < 2 ^ 32)%Z ->
  payload_type self = 96%Z ->
  exists header self',
    _make_rtp_packet self payload marker = Ok (header ++ payload, self')
    /\ length header = 12
    /\ (0 <= ssrc self' < 2 ^ 32)%Z
    /\ payload_type self' = 96%Z.
Proof.
  intros Hs Hp. unfold _make_rtp_packet. rewrite Hp.
  rewrite (pack_unsigned_ok true 1) by (cbn; lia). cbn [bind].
  rewrite (pack_unsigned_ok true 1) by (destruct marker; cbn; lia). cbn [bind].
  rewrite (pack_unsigned_ok true 2).
  2:{ change 0xFFFF%Z with (Z.ones 16). rewrite Z.land_ones by lia.
      apply Z.mod_pos_bound. cbn. lia. }
  cbn [bind].
  rewrite (pack_unsigned_ok true 4).
  2:{ change 0xFFFFFFFF%Z with (Z.ones 32). rewrite Z.land_ones by lia.
      apply Z.mod_pos_bound. cbn. lia. }
  cbn [bind].
  rewrite (pack_unsigned_ok true 4) by (cbn; lia). cbn [bind].
  do 2 eexists. split; [reflexivity|]. split.
  - rewrite !length_app, !length_be_bytes. reflexivity.
  - cbn [ssrc payload_type]. split; first [assumption | reflexivity].
Qed.

Lemma rtp_payload_app (header payload : list byte) :
  length header = 12 -> rtp_payload (header ++ payload) = payload.
Proof.
  intro H. unfold rtp_payload. rewrite skipn_app, H.
  rewrite skipn_all2 by lia. reflexivity.
Qed.

(** The bit manipulations of the FU indicator and header, for each of the
    256 values of the first NAL byte. *)
Lemma fu_bytes (b0 : byte) :
  let nal_type := Z.land (Z.shiftr (int_of_byte b0) 1) 0x3F in
  let fu_header1 := Z.lor (Z.land (int_of_byte b0) 0x81) (Z.shiftl 49 1) in
  bytes1 fu_header1 = Ok (byte_of_int fu_header1)
  /\ bytes1 (Z.lor 0x80 nal_type) = Ok (byte_of_int (Z.lor 0x80 nal_type))
  /\ bytes1 (Z.lor 0x40 nal_type) = Ok (byte_of_int (Z.lor 0x40 nal_type))
  /\ bytes1 nal_type = Ok (byte_of_int nal_type)
  /\ Z.land (int_of_byte (byte_of_int (Z.lor 0x80 nal_type))) 0x3F = nal_type
  /\ Z.land (int_of_byte (byte_of_int (Z.lor 0x40 nal_type))) 0x3F = nal_type
  /\ Z.land (int_of_byte (byte_of_int nal_type)) 0x3F = nal_type
  /\ byte_of_int (Z.lor (Z.land (int_of_byte (byte_of_int fu_header1)) 0x81)
                    (Z.shiftl nal_type 1)) = b0.
Proof.
  destruct b0; vm_compute; repeat split; reflexivity.
Qed.

Lemma bytes1_of_byte (b : byte) : bytes1 (int_of_byte b) = Ok b.
Proof.
  unfold bytes1. pose proof (int_of_byte_range b) as [H0 H1].
  apply Z.leb_le in H0. apply Z.ltb_lt in H1. rewrite H0, H1.
  cbn [andb]. now rewrite byte_of_int_of_byte.
Qed.

Lemma fu_loop_done (fuel : nat) (nal_data : list byte) (is_last : bool)
    (nal_type fu1 fu2 : Z) (offset : nat) (first : bool)
    (packets : list (list byte)) (self : RTPPacketizer) :
  length nal_data <= offset ->
  fu_loop fuel nal_data is_last nal_type fu1 fu2 offset first packets self
  = Ok (packets, self).
Proof.
  intro H. destruct fuel; cbn [fu_loop];
    destruct (Nat.ltb_spec offset (length nal_data)); (lia || reflexivity).
Qed.

(** The fragments of the rest of the NAL unit from [offset] on. *)
Lemma fu_loop_fragments (nal_data : list byte) (is_last : bool) (b0 b1 : byte)
    (fuel : nat) :
  forall offset first packets self,
    length nal_data - offset <= fuel ->
    (0 <= ssrc self < 2 ^ 32)%Z ->
    payload_type self = 96%Z ->
    exists new self',
      fu_loop fuel nal_data is_last
        (Z.land (Z.shiftr (int_of_byte b0) 1) 0x3F)
        (Z.lor (Z.land (int_of_byte b0) 0x81) (Z.shiftl 49 1))
        (int_of_byte b1) offset first packets self
      = Ok (packets ++ new, self')
      /\ Forall
           (fun p =>
              is_fu_fragment
                (byte_of_int (Z.lor (Z.land (int_of_byte b0) 0x81) (Z.shiftl 49 1)))
                b1 (Z.land (Z.shiftr (int_of_byte b0) 1) 0x3F) (rtp_payload p))
           new
      /\ concat (map (fun p => skipn 3 (rtp_payload p)) new) = skipn offset nal_data.
Proof.
  destruct (fu_bytes b0) as (B1 & B80 & B40 & B00 & T80 & T40 & T00 & _).
  induction fuel as [|f IH]; intros offset first packets self Hf Hs Hp.
  - exists [], self. rewrite fu_loop_done by lia.
    rewrite app_nil_r, skipn_all2 by lia. repeat split. constructor.
  - destruct (Nat.le_gt_cases (length nal_data) offset) as [Hdone|Hlt].
    { exists [], self. rewrite fu_loop_done by lia.
      rewrite app_nil_r, skipn_all2 by lia. repeat split. constructor. }
    cbn [fu_loop].
    destruct (Nat.ltb_spec offset (length nal_data)); [|lia].
    change (max_payload - 3) with 1397.
    set (chunk_size := Nat.min 1397 (length nal_data - offset)).
    assert (Hc : 1 <= chunk_size <= 1397) by (unfold chunk_size; lia).
    assert (Hc' : offset + chunk_size <= length nal_data) by (unfold chunk_size; lia).
    rewrite B1, bytes1_of_byte. cbn [bind].
    set (h := if first
              then Z.lor 128 (Z.land (Z.shiftr (int_of_byte b0) 1) 63)
              else if length nal_data <=? offset + chunk_size
                   then Z.lor 64 (Z.land (Z.shiftr (int_of_byte b0) 1) 63)
                   else Z.land (Z.shiftr (int_of_byte b0) 1) 63).
    assert (Hh : bytes1 h = Ok (byte_of_int h)
                 /\ Z.land (int_of_byte (byte_of_int h)) 0x3F
                    = Z.land (Z.shiftr (int_of_byte b0) 1) 0x3F).
    { unfold h. destruct first; [|destruct (length nal_data <=? offset + chunk_size)];
        split; assumption. }
    destruct Hh as [Hh1 Hh2]. rewrite Hh1. cbn [bind].
    match goal with
    | |- context [_make_rtp_packet self ?pl ?m] =>
        destruct (make_rtp_packet_ok self pl m Hs Hp)
          as (header & self1 & -> & Hhl & Hs1 & Hp1)
    end.
    cbn [bind].
    destruct (IH (offset + chunk_size) false
                (packets ++ [header ++
                   [byte_of_int (Z.lor (Z.land (int_of_byte b0) 129) (Z.shiftl 49 1)); b1]
                   ++ [byte_of_int h] ++ slice nal_data offset (offset + chunk_size)])
                self1) as (new & self' & -> & HF & HC); try assumption; [lia|].
    eexists (_ :: new), self'. split; [now rewrite <- app_assoc|]. split.
    + constructor; [|exact HF].
      rewrite rtp_payload_app by assumption.
      exists (byte_of_int h), (slice nal_data offset (offset + chunk_size)).
      split; [reflexivity|]. split; [exact Hh2|].
      rewrite length_slice by lia. lia.
    + cbn [map concat]. rewrite rtp_payload_app by assumption.
      match goal with
      | |- context [skipn 3 ([?a; ?b] ++ [?c] ++ ?x)] =>
          change (skipn 3 ([a; b] ++ [c] ++ x)) with x
      end.
      rewrite HC. unfold slice.
      replace (offset + chunk_size - offset) with chunk_size by lia.
      rewrite (Nat.add_comm offset chunk_size).
      rewrite <- (skipn_skipn chunk_size offset nal_data).
      apply firstn_skipn.
Qed.

(** C8.  RTP packetization round-trips.  A NAL unit of at most 1400 bytes
    goes into exactly one RTP packet whose payload is the NAL unit; a longer
    one goes into fragmentation units that each carry at most 1397 bytes of
    data after the 2-byte FU indicator and the 1-byte FU header, and
    depacketizing them rebuilds the NAL unit exactly.  (No bound on the
    length is needed; in particular it holds up to 1 MiB.) *)
Theorem packetize_nal_round_trip
    (self : RTPPacketizer) (nal_data : list byte) (is_last : bool) :
  (0 <= ssrc self < 2 ^ 32)%Z ->
  payload_type self = 96%Z ->
  (length nal_data <= 1400 ->
   exists packet self',
     packetize_nal self nal_data is_last = Ok ([packet], self')
     /\ rtp_payload packet = nal_data)
  /\ (1400 < length nal_data ->
      exists packets self',
        packetize_nal self nal_data is_last = Ok (packets, self')
        /\ Forall (fun p => 3 <= length (rtp_payload p)
                            /\ length (skipn 3 (rtp_payload p)) <= 1397) packets
        /\ depacketize_fu (map rtp_payload packets) = nal_data).
Proof.
  intros Hs Hp. split; intro Hlen; unfold packetize_nal, max_payload.
  - destruct (Nat.leb_spec (length nal_data) 1400); [|lia].
    destruct (make_rtp_packet_ok self nal_data is_last Hs Hp)
      as (header & self' & -> & Hhl & _).
    cbn [bind]. do 2 eexists. split; [reflexivity|].
    now apply rtp_payload_app.
  - destruct (Nat.leb_spec (length nal_data) 1400); [lia|].
    destruct nal_data as [|b0 [|b1 rest]]; try (cbn [length] in Hlen; lia).
    set (nal_data := b0 :: b1 :: rest) in *.
    change (get nal_data 0) with b0. change (get nal_data 1) with b1.
    destruct (@fu_loop_fragments nal_data is_last b0 b1 (length nal_data)
                2 true [] self) as (new & self' & -> & HF & HC); try assumption; [lia|].
    exists new, self'. split; [reflexivity|]. split.
    + eapply Forall_impl; [|exact HF].
      intros p (h & data & -> & _ & Hd). cbn [length skipn]. lia.
    + destruct new as [|p new'].
      { cbn [map concat] in HC. unfold nal_data in HC. cbn [skipn] in HC.
        unfold nal_data in Hlen. rewrite <- HC in Hlen.
        cbn [length] in Hlen. lia. }
      inversion HF as [|? ? (h & data & E & Ht & _) _]; subst.
      cbn [map depacketize_fu]. rewrite E.
      change (get (_ :: _ :: h :: data) 0)
        with (byte_of_int (Z.lor (Z.land (int_of_byte b0) 0x81) (Z.shiftl 49 1))).
      change (get (_ :: b1 :: h :: data) 1) with b1.
      change (get (_ :: _ :: h :: data) 2) with h.
      rewrite Ht.
      destruct (fu_bytes b0) as (_ & _ & _ & _ & _ & _ & _ & ->).
      rewrite <- E. rewrite <- (map_map rtp_payload (skipn 3)) in HC.
      cbn [map] in HC. rewrite HC. reflexivity.
Qed.

Lemma packetize_nal_round_trip_witness :
  exists packets self',
    packetize_nal {| ssrc := 1; sequence := 65535; timestamp := 7; payload_type := 96 |}
      (x40 :: x01 :: repeat x02 2900) true = Ok (packets, self')
    /\ depacketize_fu (map rtp_payload packets) = x40 :: x01 :: repeat x02 2900.
Proof.
  destruct (proj2 (@packetize_nal_round_trip
                     {| ssrc := 1; sequence := 65535; timestamp := 7; payload_type := 96 |}
                     (x40 :: x01 :: repeat x02 2900) true
                     (conj (proj1 (Z.leb_le 0 1) eq_refl) eq_refl) eq_refl))
    as (packets & self' & H1 & _ & H2).
  - rewrite length_cons, length_cons, repeat_length. lia.
  - exists packets, self'. split; assumption.
Defined.

End RtspFacts.

(** ** crypto.py: the password obfuscation (C7) *)

Module PasswordFacts.

Import Crypto Spec.

Ltac lia_div := zify; Z.to_euclidean_division_equations; lia.

(** *** Base64 *)

Lemma sextet_in_range (n : N) : (n < 64)%N -> In n (map N.of_nat (seq 0 64)).
Proof.
  intro H. apply in_map_iff. exists (N.to_nat n). split.
  - apply N2Nat.id.
  - apply in_seq. lia.
Qed.

Lemma b64_index_char (n : N) :
  (n < 64)%N ->
  b64_index (b64_char n) = Some n /\ Byte.eqb (b64_char n) b64_pad = false.
Proof.
  intro H.
  assert (C : forallb
                (fun i =>
                   match b64_index (b64_char i) with
                   | Some j => N.eqb i j
                   | None => false
                   end && negb (Byte.eqb (b64_char i) b64_pad))
                (map N.of_nat (seq 0 64)) = true) by (vm_compute; reflexivity).
  rewrite forallb_forall in C. specialize (C n (sextet_in_range H)).
  apply andb_true_iff in C. destruct C as [C1 C2].
  destruct (b64_index (b64_char n)) as [j|]; [|discriminate].
  apply N.eqb_eq in C1. subst j. split; [reflexivity|].
  now apply negb_true_iff.
Qed.

Lemma byte_of_N_to_N (b : byte) : byte_of_N (Byte.to_N b) = b.
Proof. apply byte_of_int_of_byte. Qed.

Lemma b64_group (a b c : N) :
  (a < 256)%N -> (b < 256)%N -> (c < 256)%N ->
  let n := (a * 65536 + b * 256 + c)%N in
  (n / 262144 < 64)%N /\ (n / 4096 mod 64 < 64)%N
  /\ (n / 64 mod 64 < 64)%N /\ (n mod 64 < 64)%N
  /\ (n / 262144 * 262144 + n / 4096 mod 64 * 4096 + n / 64 mod 64 * 64 + n mod 64 = n)%N
  /\ (n / 65536 = a)%N /\ (n / 256 mod 256 = b)%N /\ (n mod 256 = c)%N.
Proof.
  intros Ha Hb Hc n. subst n. repeat split; lia_div.
Qed.

Lemma b64_group_1 (a : N) :
  (a < 256)%N ->
  let n := (a * 65536)%N in
  (n / 262144 < 64)%N /\ (n / 4096 mod 64 < 64)%N
  /\ ((n / 262144 * 262144 + n / 4096 mod 64 * 4096) / 65536 = a)%N.
Proof.
  intros Ha n. subst n. repeat split; lia_div.
Qed.

Lemma b64_group_2 (a b : N) :
  (a < 256)%N -> (b < 256)%N ->
  let n := (a * 65536 + b * 256)%N in
  (n / 262144 < 64)%N /\ (n / 4096 mod 64 < 64)%N /\ (n / 64 mod 64 < 64)%N
  /\ (n / 262144 * 262144 + n / 4096 mod 64 * 4096 + n / 64 mod 64 * 64 = n)%N
  /\ (n / 65536 = a)%N /\ (n / 256 mod 256 = b)%N.
Proof.
  intros Ha Hb n. subst n. repeat split; lia_div.
Qed.

Lemma to_N_lt (b : byte) : (Byte.to_N b < 256)%N.
Proof. pose proof (Byte.to_N_bounded b). lia. Qed.

Lemma b64decode_b64encode_bounded (n : nat) :
  forall data, length data <= n -> b64decode (b64encode data) = Ok data.
Proof.
  induction n as [|n IH]; intros data Hn.
  - destruct data; [reflexivity | cbn in Hn; lia].
  - destruct data as [|a [|b [|c rest]]].
    + reflexivity.
    + cbn [b64encode].
      destruct (b64_group_1 (to_N_lt a)) as (H0 & H1 & E).
      cbn [b64decode].
      rewrite (proj1 (b64_index_char H0)), (proj1 (b64_index_char H1)).
      change (Byte.eqb b64_pad b64_pad) with true. cbv iota.
      rewrite E, byte_of_N_to_N. reflexivity.
    + cbn [b64encode].
      destruct (b64_group_2 (to_N_lt a) (to_N_lt b)) as (H0 & H1 & H2 & E & Ea & Eb).
      cbn [b64decode].
      rewrite (proj1 (b64_index_char H0)), (proj1 (b64_index_char H1)).
      change (Byte.eqb b64_pad b64_pad) with true. cbv iota.
      rewrite (proj2 (b64_index_char H2)), (proj1 (b64_index_char H2)).
      rewrite E, Ea, Eb, !byte_of_N_to_N. reflexivity.
    + cbn [b64encode].
      destruct (b64_group (to_N_lt a) (to_N_lt b) (to_N_lt c))
        as (H0 & H1 & H2 & H3 & E & Ea & Eb & Ec).
      cbn [b64decode].
      rewrite (proj1 (b64_index_char H0)), (proj1 (b64_index_char H1)).
      rewrite (proj2 (b64_index_char H3)).
      rewrite (proj1 (b64_index_char H2)), (proj1 (b64_index_char H3)).
      rewrite IH by (cbn [length] in Hn; lia). cbn [bind].
      rewrite E, Ea, Eb, Ec, !byte_of_N_to_N. reflexivity.
Qed.

Lemma b64decode_b64encode (data : list byte) : b64decode (b64encode data) = Ok data.
Proof. now apply (@b64decode_b64encode_bounded (length data)). Qed.

(** *** PKCS#7 *)

Lemma to_nat_byte_of_int (k : nat) :
  k < 256 -> Byte.to_nat (byte_of_int (Z.of_nat k)) = k.
Proof.
  intro H. rewrite Byte.to_nat_via_N.
  pose proof (int_of_byte_of_int (Z.of_nat k)) as E.
  unfold int_of_byte in E. rewrite Z.mod_small in E by lia. lia.
Qed.

Lemma forallb_eqb_repeat (x : byte) (k : nat) :
  forallb (Byte.eqb x) (repeat x k) = true.
Proof.
  induction k as [|k IH]; [reflexivity|].
  cbn [repeat forallb]. rewrite IH, Byte.byte_dec_lb; reflexivity.
Qed.

Lemma last_app_repeat (d : list byte) (x : byte) (k : nat) :
  1 <= k -> last (d ++ repeat x k) x00 = x.
Proof.
  intro H. destruct k as [|k]; [lia|].
  change (repeat x (S k)) with (x :: repeat x k).
  rewrite repeat_cons, app_assoc. apply last_last.
Qed.

Lemma unpad_app (d : list byte) (k : nat) :
  1 <= k <= 16 ->
  (length d + k) mod 16 = 0 ->
  unpad (d ++ repeat (byte_of_int (Z.of_nat k)) k) 16 = Ok d.
Proof.
  intros Hk Hm. unfold unpad. cbv zeta.
  rewrite last_app_repeat by lia.
  rewrite to_nat_byte_of_int by lia.
  rewrite length_app, repeat_length, Hm.
  destruct (Nat.eqb_spec (length d + k) 0); [lia|].
  cbn [Nat.eqb negb].
  destruct (Nat.ltb_spec k 1); [lia|].
  destruct (Nat.ltb_spec (Nat.min 16 (length d + k)) k); [lia|].
  cbn [orb].
  replace (length d + k - k) with (length d) by lia.
  rewrite skipn_app, skipn_all, Nat.sub_diag. cbn [skipn app].
  rewrite forallb_eqb_repeat. cbn [negb].
  rewrite firstn_app, firstn_all, Nat.sub_diag. cbn [firstn].
  now rewrite app_nil_r.
Qed.

Lemma pad_16 (d : list byte) :
  length (pad d 16) mod 16 = 0 /\ unpad (pad d 16) 16 = Ok d.
Proof.
  unfold pad. cbv zeta.
  assert (Hk : 1 <= 16 - length d mod 16 <= 16)
    by (pose proof (Nat.mod_upper_bound (length d) 16); lia).
  assert (Hm : (length d + (16 - length d mod 16)) mod 16 = 0).
  { pose proof (Nat.div_mod_eq (length d) 16).
    replace (length d + (16 - length d mod 16)) with ((length d / 16 + 1) * 16) by lia.
    apply Nat.Div0.mod_mul. }
  split.
  - now rewrite length_app, repeat_length.
  - now apply unpad_app.
Qed.

(** *** ECB over whole blocks *)

Lemma blocks_fuel_concat (L : list (list byte)) :
  forall fuel,
    Forall (fun b => length b = 16) L ->
    length L <= fuel ->
    blocks_fuel fuel 16 (concat L) = L.
Proof.
  induction L as [|b L IH]; intros fuel HF Hf.
  - destruct fuel; reflexivity.
  - inversion HF as [|? ? Hb HF']; subst.
    destruct fuel as [|fuel]; [cbn in Hf; lia|].
    cbn [concat]. destruct b as [|x b]; [discriminate|].
    cbn [app blocks_fuel].
    change (x :: b ++ concat L) with ((x :: b) ++ concat L).
    rewrite firstn_app, skipn_app, Hb, Nat.sub_diag.
    rewrite firstn_all2, skipn_all2 by lia.
    cbn [firstn skipn app]. rewrite app_nil_r.
    rewrite IH by (assumption || (cbn in Hf; lia)). reflexivity.
Qed.

Lemma length_concat_blocks (L : list (list byte)) :
  Forall (fun b => length b = 16) L -> length (concat L) = 16 * length L.
Proof.
  induction 1 as [|b L Hb _ IH]; [reflexivity|].
  cbn [concat length]. rewrite length_app, Hb, IH. lia.
Qed.

Lemma blocks_concat (L : list (list byte)) :
  Forall (fun b => length b = 16) L -> blocks 16 (concat L) = L.
Proof.
  intro HF. unfold blocks. apply blocks_fuel_concat; [assumption|].
  rewrite length_concat_blocks by assumption. lia.
Qed.

Lemma blocks_fuel_whole (fuel : nat) :
  forall d,
    length d <= fuel ->
    length d mod 16 = 0 ->
    Forall (fun b => length b = 16) (blocks_fuel fuel 16 d)
    /\ concat (blocks_fuel fuel 16 d) = d.
Proof.
  induction fuel as [|fuel IH]; intros d Hf Hm.
  - destruct d; [split; [constructor | reflexivity] | cbn in Hf; lia].
  - destruct d as [|x d]; [split; [constructor | reflexivity]|].
    set (l := x :: d) in *.
    assert (H16 : 16 <= length l).
    { destruct (Nat.le_gt_cases 16 (length l)); [assumption|].
      rewrite Nat.mod_small in Hm by lia. cbn [l length] in Hm. lia. }
    change (blocks_fuel (S fuel) 16 l)
      with (firstn 16 l :: blocks_fuel fuel 16 (skipn 16 l)).
    destruct (IH (skipn 16 l)) as [IH1 IH2].
    + rewrite length_skipn. lia.
    + rewrite length_skipn.
      pose proof (Nat.div_mod_eq (length l) 16).
      replace (length l - 16) with ((length l / 16 - 1) * 16) by lia.
      apply Nat.Div0.mod_mul.
    + split.
      * constructor; [|exact IH1]. rewrite length_firstn. lia.
      * cbn [concat]. rewrite IH2. apply firstn_skipn.
Qed.

Section WithAES.

Variable aes_encrypt_block aes_decrypt_block : list byte -> list byte -> list byte.

(** The two facts about AES that the round trip rests on, for 16-byte keys:
    a block encrypts to a block, and decryption inverts encryption. *)
Hypothesis aes_block_length :
  forall key block,
    length key = 16 -> length block = 16 ->
    length (aes_encrypt_block key block) = 16.
Hypothesis aes_decrypt_encrypt :
  forall key block,
    length key = 16 -> length block = 16 ->
    aes_decrypt_block key (aes_encrypt_block key block) = block.

Lemma ecb_round_trip (key data : list byte) :
  length key = 16 ->
  length data mod 16 = 0 ->
  exists encrypted,
    ecb_encrypt aes_encrypt_block key data = Ok encrypted
    /\ ecb_decrypt aes_decrypt_block key encrypted = Ok data.
Proof.
  intros Hkey Hm. unfold ecb_encrypt, ecb_decrypt. rewrite Hm. cbn [Nat.eqb].
  eexists. split; [reflexivity|].
  destruct (@blocks_fuel_whole (length data) data (le_n _) Hm) as [HF HC].
  fold (blocks 16 data) in HF, HC.
  assert (HF' : Forall (fun b => length b = 16)
                  (map (aes_encrypt_block key) (blocks 16 data))).
  { apply Forall_map. eapply Forall_impl; [|exact HF].
    intros b Hb. now apply aes_block_length. }
  rewrite length_concat_blocks by assumption.
  replace ((16 * length (map (aes_encrypt_block key) (blocks 16 data))) mod 16) with 0
    by (rewrite Nat.mul_comm, Nat.Div0.mod_mul; reflexivity).
  cbn [Nat.eqb]. rewrite blocks_concat by assumption.
  rewrite map_map. f_equal. rewrite <- HC at 2. f_equal.
  rewrite <- (map_id (blocks 16 data)) at 2.
  apply map_ext_in. intros b Hb. apply aes_decrypt_encrypt; [assumption|].
  rewrite Forall_forall in HF. now apply HF.
Qed.

End WithAES.

Lemma length_list_byte_of_string (s : string) :
  length (list_byte_of_string s) = String.length s.
Proof.
  induction s as [|a s IH]; [reflexivity|].
  change (list_byte_of_string (String a s))
    with (byte_of_ascii a :: list_byte_of_string s).
  cbn [length String.length]. now rewrite IH.
Qed.

(** C7.  For every password [p] and 16-character (ASCII) random key [r],
    [encrypt_password p r] returns a string, and base64-decoding it,
    AES-ECB-decrypting under [r], stripping the PKCS#7 padding,
    AES-ECB-decrypting under the fixed key and stripping the padding again
    yields exactly the bytes of [p]. *)
Theorem encrypt_password_round_trip
    (aes_encrypt_block aes_decrypt_block : list byte -> list byte -> list byte)
    (aes_block_length :
       forall key block,
         length key = 16 -> length block = 16 ->
         length (aes_encrypt_block key block) = 16)
    (aes_decrypt_encrypt :
       forall key block,
         length key = 16 -> length block = 16 ->
         aes_decrypt_block key (aes_encrypt_block key block) = block)
    (password random_key : string) :
  String.length random_key = 16 ->
  exists encrypted,
    encrypt_password aes_encrypt_block password random_key = Ok encrypted
    /\ decrypt_password aes_decrypt_block encrypted random_key
       = Ok (list_byte_of_string password).
Proof.
  intro Hr. rewrite <- length_list_byte_of_string in Hr.
  assert (Hv : length V380_KEY = 16) by reflexivity.
  destruct (pad_16 (list_byte_of_string password)) as [Hm1 Hu1].
  destruct (@ecb_round_trip aes_encrypt_block aes_decrypt_block
              aes_block_length aes_decrypt_encrypt
              V380_KEY (pad (list_byte_of_string password) 16) Hv Hm1)
    as (e1 & He1 & Hd1).
  destruct (pad_16 e1) as [Hm2 Hu2].
  destruct (@ecb_round_trip aes_encrypt_block aes_decrypt_block
              aes_block_length aes_decrypt_encrypt
              (list_byte_of_string random_key) (pad e1 16) Hr Hm2)
    as (e2 & He2 & Hd2).
  assert (Hnew : AES_new (list_byte_of_string random_key)
                 = Ok (list_byte_of_string random_key)).
  { unfold AES_new. cbv zeta. rewrite Hr. reflexivity. }
  exists (string_of_list_byte (b64encode e2)). split.
  - unfold encrypt_password. cbv zeta.
    change (AES_new V380_KEY) with (Ok (A := list byte) V380_KEY). cbn [bind].
    rewrite He1. cbn [bind]. rewrite Hnew. cbn [bind].
    rewrite He2. reflexivity.
  - unfold decrypt_password.
    rewrite list_byte_of_string_of_list_byte, b64decode_b64encode. cbn [bind].
    rewrite Hnew. cbn [bind]. rewrite Hd2. cbn [bind].
    rewrite Hu2. cbn [bind].
    change (AES_new V380_KEY) with (Ok (A := list byte) V380_KEY). cbn [bind].
    rewrite Hd1. cbn [bind]. exact Hu1.
Qed.

Lemma encrypt_password_round_trip_witness :
  exists encrypted,
    encrypt_password demo_block "secret" "abcdefghijklmnop" = Ok encrypted
    /\ decrypt_password demo_block encrypted "abcdefghijklmnop"
       = Ok (list_byte_of_string "secret").
Proof.
  exact (@encrypt_password_round_trip demo_block demo_block
           (fun key block _ H => eq_trans (length_rev block) H)
           (fun key block _ _ => rev_involutive block)
           "secret" "abcdefghijklmnop" eq_refl).
Defined.

End PasswordFacts.

(* ================================================================== *)
(** * Part III: further properties of the code                         *)
(* ================================================================== *)

(** ** rtsp_server.py: what [packetize_nal] sends *)

Module PacketizerFacts.

Import Rtsp Spec.

Lemma slice_clamp {A : Type} (data : list A) (a b b' : nat) :
  length data <= b -> length data <= b' -> slice data a b = slice data a b'.
Proof.
  intros H H'. unfold slice.
  rewrite !firstn_all2 by (rewrite length_skipn; lia). reflexivity.
Qed.

Lemma land_ffff (z : Z) : Z.land z 0xFFFF = (z mod 65536)%Z.
Proof. change 0xFFFF%Z with (Z.ones 16). now rewrite Z.land_ones by lia. Qed.

Lemma land_ffffffff (z : Z) : Z.land z 0xFFFFFFFF = (z mod 4294967296)%Z.
Proof. change 0xFFFFFFFF%Z with (Z.ones 32). now rewrite Z.land_ones by lia. Qed.

(** [_make_rtp_packet] in closed form. *)
Lemma make_rtp_packet_explicit (self : RTPPacketizer) (payload : list byte)
    (marker : bool) :
  (0 <= ssrc self < 2 ^ 32)%Z ->
  payload_type self = 96%Z ->
  _make_rtp_packet self payload marker
  = Ok (rtp_header self (sequence self) marker ++ payload,
        {| ssrc := ssrc self;
           sequence := ((sequence self + 1) mod 65536)%Z;
           timestamp := timestamp self;
           payload_type := 96 |}).
Proof.
  intros Hs Hp. unfold _make_rtp_packet. rewrite Hp, !land_ffff, land_ffffffff.
  rewrite (pack_unsigned_ok true 1) by (cbn; lia). cbn [bind].
  rewrite (pack_unsigned_ok true 1) by (destruct marker; cbn; lia). cbn [bind].
  rewrite (pack_unsigned_ok true 2)
    by (pose proof (Z.mod_pos_bound (sequence self) 65536); cbn; lia).
  cbn [bind].
  rewrite (pack_unsigned_ok true 4)
    by (pose proof (Z.mod_pos_bound (timestamp self) 4294967296); cbn; lia).
  cbn [bind].
  rewrite (pack_unsigned_ok true 4) by (cbn; lia). cbn [bind].
  unfold rtp_header. do 2 f_equal.
  destruct marker; reflexivity.
Qed.

Lemma rtp_header_eq (s1 s2 : RTPPacketizer) (q1 q2 : Z) (marker : bool) :
  ssrc s1 = ssrc s2 -> timestamp s1 = timestamp s2 ->
  (q1 mod 65536 = q2 mod 65536)%Z ->
  rtp_header s1 q1 marker = rtp_header s2 q2 marker.
Proof. intros H1 H2 H3. unfold rtp_header. now rewrite H1, H2, H3. Qed.

Lemma length_rtp_header (self : RTPPacketizer) (q : Z) (marker : bool) :
  length (rtp_header self q marker) = 12.
Proof.
  unfold rtp_header. rewrite !length_app, !length_be_bytes. reflexivity.
Qed.

(** The fragment count is the one that puts [len] in its last bracket. *)
Lemma fu_count_bounds (len : nat) :
  2 < len ->
  1 <= fu_count len
  /\ 2 + 1397 * (fu_count len - 1) < len <= 2 + 1397 * fu_count len.
Proof.
  intro H. unfold fu_count.
  pose proof (Nat.div_mod_eq (len - 2 + 1396) 1397).
  pose proof (Nat.mod_upper_bound (len - 2 + 1396) 1397).
  lia.
Qed.

(** The fragmentation loop in closed form, from fragment [k] on. *)
Lemma fu_loop_explicit (self : RTPPacketizer) (nal_data : list byte) (is_last : bool)
    (n : nat) (fuel : nat) :
  (0 <= ssrc self < 2 ^ 32)%Z ->
  payload_type self = 96%Z ->
  1 <= n ->
  2 + 1397 * (n - 1) < length nal_data <= 2 + 1397 * n ->
  forall k packets sq,
    k < n ->
    length nal_data - (2 + 1397 * k) <= fuel ->
    (sq mod 65536 = (sequence self + Z.of_nat k) mod 65536)%Z ->
    fu_loop fuel nal_data is_last
      (Z.land (Z.shiftr (int_of_byte (get nal_data 0)) 1) 0x3F)
      (Z.lor (Z.land (int_of_byte (get nal_data 0)) 0x81) (Z.shiftl 49 1))
      (int_of_byte (get nal_data 1))
      (2 + 1397 * k) (k =? 0) packets
      {| ssrc := ssrc self; sequence := sq;
         timestamp := timestamp self; payload_type := 96 |}
    = Ok (packets ++ map (fu_packet self nal_data is_last n) (seq k (n - k)),
          after_packets self n).
Proof.
  intros Hs Hp Hn1 Hn.
  destruct (RtspFacts.fu_bytes (get nal_data 0))
    as (B1 & B80 & B40 & B00 & _).
  induction fuel as [|f IH]; intros k packets sq Hk Hf Hsq.
  { exfalso. nia. }
  cbn [fu_loop].
  destruct (Nat.ltb_spec (2 + 1397 * k) (length nal_data)); [|nia].
  change (max_payload - 3) with 1397.
  rewrite B1, RtspFacts.bytes1_of_byte. cbn [bind].
  set (chunk_size := Nat.min 1397 (length nal_data - (2 + 1397 * k))).
  assert (Hlast : (length nal_data <=? 2 + 1397 * k + chunk_size) = (k =? n - 1)).
  { unfold chunk_size.
    destruct (Nat.eqb_spec k (n - 1)), (Nat.leb_spec (length nal_data)
      (2 + 1397 * k + Nat.min 1397 (length nal_data - (2 + 1397 * k))));
      try reflexivity; exfalso; nia. }
  rewrite Hlast.
  set (h := if k =? 0
            then Z.lor 128 (Z.land (Z.shiftr (int_of_byte (get nal_data 0)) 1) 63)
            else if k =? n - 1
                 then Z.lor 64 (Z.land (Z.shiftr (int_of_byte (get nal_data 0)) 1) 63)
                 else Z.land (Z.shiftr (int_of_byte (get nal_data 0)) 1) 63).
  assert (Hh : bytes1 h = Ok (byte_of_int h)).
  { unfold h. destruct (k =? 0); [|destruct (k =? n - 1)]; assumption. }
  rewrite Hh. cbn [bind].
  rewrite make_rtp_packet_explicit by (cbn [ssrc payload_type]; (assumption || reflexivity)).
  cbn [bind ssrc sequence timestamp payload_type].
  assert (Hpkt :
    rtp_header {| ssrc := ssrc self; sequence := sq;
                  timestamp := timestamp self; payload_type := 96 |}
      sq (is_last && (k =? n - 1))
      ++ [byte_of_int (Z.lor (Z.land (int_of_byte (get nal_data 0)) 129) (Z.shiftl 49 1));
          get nal_data 1]
      ++ [byte_of_int h]
      ++ slice nal_data (2 + 1397 * k) (2 + 1397 * k + chunk_size)
    = fu_packet self nal_data is_last n k).
  { unfold fu_packet. cbv zeta. fold h.
    rewrite (@rtp_header_eq _ self sq (sequence self + Z.of_nat k))
      by (reflexivity || assumption).
    f_equal. cbn [app]. do 3 f_equal.
    unfold chunk_size.
    destruct (Nat.le_gt_cases 1397 (length nal_data - (2 + 1397 * k))).
    - rewrite Nat.min_l by lia. f_equal. lia.
    - rewrite Nat.min_r by lia. apply slice_clamp; lia. }
  rewrite Hpkt.
  assert (Hsq' : (((sq + 1) mod 65536) mod 65536
                  = (sequence self + Z.of_nat (S k)) mod 65536)%Z).
  { rewrite Z.mod_mod by lia.
    rewrite <- Z.add_mod_idemp_l by lia. rewrite Hsq.
    rewrite Z.add_mod_idemp_l by lia. f_equal. lia. }
  destruct (Nat.eq_dec k (n - 1)) as [Ek|Ek].
  - rewrite RtspFacts.fu_loop_done by (unfold chunk_size; nia).
    replace (n - k) with 1 by lia. cbn [seq map].
    do 2 f_equal. unfold after_packets.
    destruct n as [|n']; [lia|]. rewrite Hp. f_equal.
    rewrite Z.mod_mod in Hsq' by lia. rewrite <- Z.add_mod_idemp_l by lia.
    rewrite Hsq. rewrite Z.add_mod_idemp_l by lia. f_equal. lia.
  - replace (2 + 1397 * k + chunk_size) with (2 + 1397 * S k)
      by (unfold chunk_size; nia).
    change false with (S k =? 0).
    rewrite IH by (assumption || nia || lia).
    rewrite <- app_assoc. do 2 f_equal.
    replace (n - k) with (S (n - S k)) by lia. reflexivity.
Qed.

(** [packetize_nal] in closed form. *)
Lemma packetize_nal_explicit (self : RTPPacketizer) (nal_data : list byte)
    (is_last : bool) :
  (0 <= ssrc self < 2 ^ 32)%Z ->
  payload_type self = 96%Z ->
  packetize_nal self nal_data is_last
  = if length nal_data <=? 1400
    then Ok ([rtp_header self (sequence self) is_last ++ nal_data], after_packets self 1)
    else Ok (map (fu_packet self nal_data is_last (fu_count (length nal_data)))
               (seq 0 (fu_count (length nal_data))),
             after_packets self (fu_count (length nal_data))).
Proof.
  intros Hs Hp. unfold packetize_nal, max_payload.
  destruct (Nat.leb_spec (length nal_data) 1400) as [Hl|Hl].
  - rewrite make_rtp_packet_explicit by assumption. cbn [bind].
    unfold after_packets. now rewrite Hp.
  - destruct (@fu_count_bounds (length nal_data)) as [Hn1 Hn]; [lia|].
    pose proof (@fu_loop_explicit self nal_data is_last (fu_count (length nal_data))
                  (length nal_data) Hs Hp Hn1 Hn 0 [] (sequence self)) as E.
    cbn [app Nat.eqb] in E. rewrite Nat.mul_0_r, Nat.add_0_r, Nat.sub_0_r in E.
    rewrite <- Hp in E at 1.
    destruct self as [ss sq ts pt]. cbn [ssrc sequence timestamp payload_type] in *.
    apply E; [lia | lia | f_equal; lia].
Qed.

Lemma nth_map_seq {A : Type} (f : nat -> A) (n i : nat) (d : A) :
  i < n -> nth i (map f (seq 0 n)) d = f i.
Proof.
  intro H. rewrite (nth_indep _ d (f 0)) by (now rewrite length_map, length_seq).
  rewrite map_nth, seq_nth by assumption. reflexivity.
Qed.

Lemma be_value_be_bytes_2 (z : Z) : be_value (be_bytes 2 z) = (z mod 65536)%Z.
Proof.
  unfold be_value, be_bytes. rewrite rev_involutive, le_value_le_bytes. reflexivity.
Qed.

Lemma rtp_sequence_header (self : RTPPacketizer) (q : Z) (marker : bool)
    (payload : list byte) :
  rtp_sequence (rtp_header self q marker ++ payload) = (q mod 65536)%Z.
Proof.
  unfold rtp_sequence.
  rewrite slice_app_l by (rewrite length_rtp_header; lia).
  unfold rtp_header.
  rewrite (@slice_app_skip' _ [x80; if marker then xe0 else x60] _ 2 0 2) by reflexivity.
  rewrite slice_app_l by (rewrite length_be_bytes; lia).
  rewrite slice_all by (rewrite length_be_bytes; lia).
  rewrite be_value_be_bytes_2. apply Z.mod_mod. lia.
Qed.

Lemma rtp_marker_header (self : RTPPacketizer) (q : Z) (marker : bool)
    (payload : list byte) :
  rtp_marker (rtp_header self q marker ++ payload) = marker.
Proof. destruct marker; reflexivity. Qed.

Lemma rtp_payload_header (self : RTPPacketizer) (q : Z) (marker : bool)
    (payload : list byte) :
  rtp_payload (rtp_header self q marker ++ payload) = payload.
Proof. apply RtspFacts.rtp_payload_app, length_rtp_header. Qed.

(** The packets of one call, whatever the branch. *)
Lemma packetize_nal_packets (self : RTPPacketizer) (nal_data : list byte)
    (is_last : bool) :
  (0 <= ssrc self < 2 ^ 32)%Z ->
  payload_type self = 96%Z ->
  exists n payload_of,
    1 <= n
    /\ (1400 < length nal_data -> n = fu_count (length nal_data))
    /\ packetize_nal self nal_data is_last
       = Ok (map (fun k => rtp_header self (sequence self + Z.of_nat k)
                             (is_last && (k =? n - 1)) ++ payload_of k)
               (seq 0 n),
             after_packets self n).
Proof.
  intros Hs Hp. rewrite packetize_nal_explicit by assumption.
  destruct (Nat.leb_spec (length nal_data) 1400) as [Hl|Hl].
  - exists 1, (fun _ => nal_data). split; [lia|]. split; [lia|].
    cbn [seq map Nat.eqb Nat.sub]. rewrite Z.add_0_r, andb_true_r. reflexivity.
  - destruct (@fu_count_bounds (length nal_data)) as [Hn1 _]; [lia|].
    eexists (fu_count (length nal_data)), _. split; [assumption|]. split; [reflexivity|].
    unfold fu_packet. cbv zeta. reflexivity.
Qed.

(** X1.  [packetize_nal] numbers its packets consecutively modulo 2^16 from
    the packetizer's sequence number, sends at least one packet, and leaves
    the packetizer advanced by the number of packets sent; ssrc and
    timestamp are untouched. *)
Theorem packetize_nal_sequence_numbers
    (self : RTPPacketizer) (nal_data : list byte) (is_last : bool) :
  (0 <= ssrc self < 2 ^ 32)%Z ->
  payload_type self = 96%Z ->
  exists packets self',
    packetize_nal self nal_data is_last = Ok (packets, self')
    /\ 1 <= length packets
    /\ (forall i, i < length packets ->
        rtp_sequence (nth i packets []) = ((sequence self + Z.of_nat i) mod 65536)%Z)
    /\ sequence self' = ((sequence self + Z.of_nat (length packets)) mod 65536)%Z
    /\ ssrc self' = ssrc self
    /\ timestamp self' = timestamp self.
Proof.
  intros Hs Hp.
  destruct (@packetize_nal_packets self nal_data is_last Hs Hp) as (n & pl & Hn & _ & ->).
  do 2 eexists. split; [reflexivity|].
  rewrite length_map, length_seq.
  split; [assumption|]. split.
  - intros i Hi. rewrite nth_map_seq by assumption. apply rtp_sequence_header.
  - destruct n; [lia|]. repeat split.
Qed.

Lemma packetize_nal_sequence_numbers_witness :
  exists packets self',
    packetize_nal {| ssrc := 1; sequence := 65535; timestamp := 7; payload_type := 96 |}
      (x40 :: x01 :: repeat x02 2900) true = Ok (packets, self')
    /\ sequence self' = ((65535 + Z.of_nat (length packets)) mod 65536)%Z.
Proof.
  destruct (@packetize_nal_sequence_numbers
              {| ssrc := 1; sequence := 65535; timestamp := 7; payload_type := 96 |}
              (x40 :: x01 :: repeat x02 2900) true
              (conj (proj1 (Z.leb_le 0 1) eq_refl) eq_refl) eq_refl)
    as (packets & self' & H & _ & _ & Hq & _).
  exists packets, self'. split; assumption.
Defined.

(** X2.  The RTP marker bit is set on the last packet of the call when
    [is_last] is set, and on no other packet. *)
Theorem packetize_nal_marker
    (self : RTPPacketizer) (nal_data : list byte) (is_last : bool) :
  (0 <= ssrc self < 2 ^ 32)%Z ->
  payload_type self = 96%Z ->
  exists packets self',
    packetize_nal self nal_data is_last = Ok (packets, self')
    /\ forall i, i < length packets ->
       rtp_marker (nth i packets []) = is_last && (i =? length packets - 1).
Proof.
  intros Hs Hp.
  destruct (@packetize_nal_packets self nal_data is_last Hs Hp) as (n & pl & Hn & _ & ->).
  do 2 eexists. split; [reflexivity|].
  rewrite length_map, length_seq. intros i Hi.
  rewrite nth_map_seq by assumption. apply rtp_marker_header.
Qed.

Lemma packetize_nal_marker_witness :
  exists packets self',
    packetize_nal {| ssrc := 1; sequence := 0; timestamp := 7; payload_type := 96 |}
      (x40 :: x01 :: repeat x02 2900) true = Ok (packets, self')
    /\ rtp_marker (nth 0 packets []) = false.
Proof.
  destruct (@packetize_nal_marker
              {| ssrc := 1; sequence := 0; timestamp := 7; payload_type := 96 |}
              (x40 :: x01 :: repeat x02 2900) true
              (conj (proj1 (Z.leb_le 0 1) eq_refl) eq_refl) eq_refl)
    as (packets & self' & H & Hm).
  exists packets, self'. split; [exact H|].
  assert (L : length packets = 3).
  { rewrite packetize_nal_explicit in H
      by (cbn [ssrc payload_type]; (lia || reflexivity)).
    vm_compute in H. injection H as <- _. reflexivity. }
  rewrite Hm by lia. rewrite L. reflexivity.
Defined.

(** The S and E bits of the three kinds of FU header, for each of the 256
    values of the first NAL byte. *)
Lemma fu_header_bits (b0 : byte) :
  let nal_type := Z.land (Z.shiftr (int_of_byte b0) 1) 0x3F in
  Z.testbit (int_of_byte (byte_of_int (Z.lor 0x80 nal_type))) 7 = true
  /\ Z.testbit (int_of_byte (byte_of_int (Z.lor 0x80 nal_type))) 6 = false
  /\ Z.testbit (int_of_byte (byte_of_int (Z.lor 0x40 nal_type))) 7 = false
  /\ Z.testbit (int_of_byte (byte_of_int (Z.lor 0x40 nal_type))) 6 = true
  /\ Z.testbit (int_of_byte (byte_of_int nal_type)) 7 = false
  /\ Z.testbit (int_of_byte (byte_of_int nal_type)) 6 = false.
Proof.
  destruct b0; vm_compute; repeat split; reflexivity.
Qed.

(** X3.  A NAL unit of more than 1400 bytes is sent in
    [ceil((len - 2) / 1397)] fragments, at least two; only the first
    fragment has the S bit of the FU header, only the last one the E bit;
    every fragment but the last carries exactly 1397 bytes of data after the
    three FU bytes and the last one carries the rest. *)
Theorem packetize_nal_fragments
    (self : RTPPacketizer) (nal_data : list byte) (is_last : bool) :
  (0 <= ssrc self < 2 ^ 32)%Z ->
  payload_type self = 96%Z ->
  1400 < length nal_data ->
  exists packets self',
    packetize_nal self nal_data is_last = Ok (packets, self')
    /\ length packets = fu_count (length nal_data)
    /\ 2 <= length packets
    /\ forall i, i < length packets ->
       fu_start_bit (nth i packets []) = (i =? 0)
       /\ fu_end_bit (nth i packets []) = (i =? length packets - 1)
       /\ length (rtp_payload (nth i packets []))
          = 3 + (if i <? length packets - 1
                 then 1397
                 else length nal_data - 2 - 1397 * (length packets - 1)).
Proof.
  intros Hs Hp Hl. rewrite packetize_nal_explicit by assumption.
  destruct (Nat.leb_spec (length nal_data) 1400); [lia|].
  destruct (@fu_count_bounds (length nal_data)) as [Hn1 Hn]; [lia|].
  set (n := fu_count (length nal_data)) in *.
  do 2 eexists. split; [reflexivity|].
  rewrite length_map, length_seq.
  split; [reflexivity|]. split; [nia|].
  intros i Hi. rewrite nth_map_seq by assumption.
  destruct (fu_header_bits (get nal_data 0)) as (S1 & E1 & S2 & E2 & S3 & E3).
  unfold fu_start_bit, fu_end_bit, fu_packet. cbv zeta.
  rewrite rtp_payload_header.
  match goal with
  | |- context [get ([?a; ?b; ?c] ++ ?x) 2] =>
      change (get ([a; b; c] ++ x) 2) with c
  end.
  assert (Hn2 : 2 <= n) by nia.
  split; [|split].
  - destruct (Nat.eqb_spec i 0); [assumption|].
    destruct (Nat.eqb_spec i (n - 1)); assumption.
  - destruct (Nat.eqb_spec i 0) as [->|].
    + destruct (Nat.eqb_spec 0 (n - 1)); [lia | assumption].
    + destruct (Nat.eqb_spec i (n - 1)); assumption.
  - rewrite length_app. cbn [length]. f_equal.
    unfold slice. rewrite length_firstn, length_skipn.
    destruct (Nat.ltb_spec i (n - 1)); nia.
Qed.

Lemma packetize_nal_fragments_witness :
  exists packets self',
    packetize_nal {| ssrc := 1; sequence := 0; timestamp := 7; payload_type := 96 |}
      (x40 :: x01 :: repeat x02 2900) true = Ok (packets, self')
    /\ length packets = fu_count 2902.
Proof.
  destruct (@packetize_nal_fragments
              {| ssrc := 1; sequence := 0; timestamp := 7; payload_type := 96 |}
              (x40 :: x01 :: repeat x02 2900) true
              (conj (proj1 (Z.leb_le 0 1) eq_refl) eq_refl) eq_refl)
    as (packets & self' & H & Hn & _).
  - rewrite length_cons, length_cons, repeat_length. lia.
  - exists packets, self'. split; [exact H|].
    rewrite Hn, length_cons, length_cons, repeat_length. reflexivity.
Defined.

Lemma make_rtp_packet_raises (self : RTPPacketizer) (payload : list byte)
    (marker : bool) :
  payload_type self = 96%Z ->
  ~ (0 <= ssrc self < 2 ^ 32)%Z ->
  _make_rtp_packet self payload marker = Raise StructError.
Proof.
  intros Hp Hs. unfold _make_rtp_packet. rewrite Hp, !land_ffff, land_ffffffff.
  rewrite (pack_unsigned_ok true 1) by (cbn; lia). cbn [bind].
  rewrite (pack_unsigned_ok true 1) by (destruct marker; cbn; lia). cbn [bind].
  rewrite (pack_unsigned_ok true 2)
    by (pose proof (Z.mod_pos_bound (sequence self) 65536); cbn; lia).
  cbn [bind].
  rewrite (pack_unsigned_ok true 4)
    by (pose proof (Z.mod_pos_bound (timestamp self) 4294967296); cbn; lia).
  cbn [bind]. unfold pack_unsigned.
  destruct (Z.leb_spec 0 (ssrc self)), (Z.ltb_spec (ssrc self) (256 ^ Z.of_nat 4));
    cbn [andb bind]; try reflexivity.
  exfalso. apply Hs. cbn in *. lia.
Qed.

(** X4.  A packetizer built with an ssrc outside [0, 2^32) cannot send
    anything: [packetize_nal] raises [struct.error] for every NAL unit, and
    its sequence number is therefore never advanced. *)
Theorem packetize_nal_bad_ssrc
    (self : RTPPacketizer) (nal_data : list byte) (is_last : bool) :
  payload_type self = 96%Z ->
  ~ (0 <= ssrc self < 2 ^ 32)%Z ->
  packetize_nal self nal_data is_last = Raise StructError.
Proof.
  intros Hp Hs. unfold packetize_nal, max_payload.
  destruct (Nat.leb_spec (length nal_data) 1400) as [Hl|Hl].
  - now rewrite make_rtp_packet_raises.
  - destruct (length nal_data) as [|fuel] eqn:E; [lia|].
    cbn [fu_loop]. rewrite E.
    destruct (Nat.ltb_spec 2 (S fuel)); [|lia].
    destruct (RtspFacts.fu_bytes (get nal_data 0)) as (B1 & B80 & _).
    rewrite B1, RtspFacts.bytes1_of_byte. cbn [bind].
    rewrite B80. cbn [bind].
    now rewrite make_rtp_packet_raises.
Qed.

Lemma packetize_nal_bad_ssrc_witness :
  packetize_nal {| ssrc := 4294967296; sequence := 0; timestamp := 0; payload_type := 96 |}
    [x40; x01] true = Raise StructError.
Proof.
  apply packetize_nal_bad_ssrc; [reflexivity|].
  cbn [ssrc]. intros [_ H]. revert H. apply Z.lt_irrefl.
Defined.

(** X5.  [advance_timestamp] keeps the timestamp a 32-bit value, adds the
    ticks modulo 2^32, composes additively (advancing by [a] and then by [b]
    is advancing by [a + b]) and touches nothing else. *)
Theorem advance_timestamp_adds (self : RTPPacketizer) (a b : Z) :
  advance_timestamp (advance_timestamp self a) b = advance_timestamp self (a + b)
  /\ timestamp (advance_timestamp self a) = ((timestamp self + a) mod 2 ^ 32)%Z
  /\ (0 <= timestamp (advance_timestamp self a) < 2 ^ 32)%Z
  /\ sequence (advance_timestamp self a) = sequence self
  /\ ssrc (advance_timestamp self a) = ssrc self.
Proof.
  unfold advance_timestamp. cbn [timestamp ssrc sequence payload_type].
  rewrite !land_ffffffff. change (2 ^ 32)%Z with 4294967296%Z.
  repeat split.
  - f_equal. rewrite Z.add_mod_idemp_l by lia. f_equal. lia.
  - apply Z.mod_pos_bound. lia.
  - apply Z.mod_pos_bound. lia.
Qed.

End PacketizerFacts.

(** ** rtsp_server.py: [_parse_nal_units] *)

Module AnnexBFacts.

Import Rtsp Spec.

Lemma bytes_eqb_eq (a b : list byte) : bytes_eqb a b = true <-> a = b.
Proof.
  revert b. induction a as [|x a IH]; intros [|y b]; cbn [bytes_eqb];
    try (split; (reflexivity || discriminate)).
  rewrite andb_true_iff, IH. split.
  - intros [H1 H2]. apply Byte.byte_dec_bl in H1. now subst.
  - intros [= -> ->]. split; [now apply Byte.byte_dec_lb | reflexivity].
Qed.

Lemma skipn_get (data : list byte) :
  forall a, a < length data -> skipn a data = get data a :: skipn (S a) data.
Proof.
  unfold get. induction data as [|x data IH]; intros a H; [cbn in H; lia|].
  destruct a as [|a]; [reflexivity|].
  cbn [length] in H. cbn [skipn nth]. apply IH. lia.
Qed.

Lemma slice_cons (data : list byte) (a n : nat) :
  a < length data ->
  slice data a (a + S n) = get data a :: slice data (S a) (S a + n).
Proof.
  intro H. unfold slice.
  replace (a + S n - a) with (S n) by lia.
  replace (S a + n - S a) with n by lia.
  now rewrite skipn_get.
Qed.

Lemma slice_3 (data : list byte) (k : nat) :
  k + 3 <= length data ->
  slice data k (k + 3) = [get data k; get data (k + 1); get data (k + 2)].
Proof.
  intro H.
  rewrite (@slice_cons data k 2) by lia.
  rewrite (@slice_cons data (S k) 1) by lia.
  rewrite (@slice_cons data (S (S k)) 0) by lia.
  replace (k + 1) with (S k) by lia. replace (k + 2) with (S (S k)) by lia.
  do 3 f_equal. unfold slice.
  replace (S (S (S k)) + 0 - S (S (S k))) with 0 by lia. reflexivity.
Qed.

Lemma slice_4 (data : list byte) (k : nat) :
  k + 4 <= length data ->
  slice data k (k + 4)
  = [get data k; get data (k + 1); get data (k + 2); get data (k + 3)].
Proof.
  intro H.
  rewrite (@slice_cons data k 3) by lia.
  replace (S k + 3) with (S k + 3) by lia.
  rewrite (@slice_3 data (S k)) by lia.
  replace (S k + 1) with (k + 2) by lia. replace (S k + 2) with (k + 3) by lia.
  replace (S k) with (k + 1) by lia. reflexivity.
Qed.

Lemma length_slice_le (data : list byte) (a b : nat) :
  length (slice data a b) = Nat.min (b - a) (length data - a).
Proof. unfold slice. now rewrite length_firstn, length_skipn. Qed.

(** What a start code at [k] says about the bytes. *)
Lemma starts_code_bytes (data : list byte) (k : nat) :
  starts_code data k = true ->
  get data k = x00 /\ get data (k + 1) = x00
  /\ ((k + 3 <= length data /\ get data (k + 2) = x01)
      \/ (k + 4 <= length data /\ get data (k + 2) = x00 /\ get data (k + 3) = x01)).
Proof.
  unfold starts_code. rewrite orb_true_iff, !bytes_eqb_eq. intros [H|H].
  - assert (L : k + 4 <= length data).
    { apply (f_equal (@length byte)) in H. rewrite length_slice_le in H.
      cbn [start_code4 length] in H. lia. }
    rewrite slice_4 in H by assumption. injection H as -> -> -> ->. tauto.
  - assert (L : k + 3 <= length data).
    { apply (f_equal (@length byte)) in H. rewrite length_slice_le in H.
      cbn [start_code3 length] in H. lia. }
    rewrite slice_3 in H by assumption. injection H as -> -> ->. tauto.
Qed.

(** The inner loop stops at the first start code at or after [j] that has
    at least four bytes from its start to the end of the data, and at the
    end of the data when there is none. *)
Lemma find_end_first (fuel : nat) :
  forall data j,
    length data - j <= fuel ->
    exists e,
      find_end fuel data j = Ok e
      /\ (e = length data
          \/ (j <= e /\ e + 3 < length data /\ starts_code data e = true))
      /\ (forall k, j <= k -> k < e -> k + 3 < length data ->
          starts_code data k = false).
Proof.
  induction fuel as [|f IH]; intros data j Hf.
  - exists (length data). cbn [find_end].
    destruct (Nat.ltb_spec (j + 3) (length data)); [lia|].
    split; [reflexivity|]. split; [now left|]. intros; lia.
  - cbn [find_end].
    destruct (Nat.ltb_spec (j + 3) (length data)) as [Hj|Hj].
    2:{ exists (length data). split; [reflexivity|]. split; [now left|]. intros; lia. }
    fold (starts_code data j).
    destruct (starts_code data j) eqn:Hs.
    + exists j. split; [reflexivity|]. split; [right; repeat split; (lia || assumption)|].
      intros; lia.
    + destruct (IH data (j + 1)) as (e & He & Hcase & Hno); [lia|].
      exists e. split; [exact He|]. split.
      * destruct Hcase as [->|(H1 & H2 & H3)]; [now left|].
        right. repeat split; (lia || assumption).
      * intros k Hk1 Hk2 Hk3.
        destruct (Nat.eq_dec k j) as [->|]; [assumption|]. apply Hno; lia.
Qed.

(** The outer loop: it returns, and what it appends are non-empty slices of
    the data with no start code inside. *)
Lemma parse_nal_loop_slices (fuel : nat) :
  forall data i nal_units,
    length data - i <= fuel ->
    exists new,
      parse_nal_loop fuel data i nal_units = Ok (nal_units ++ new)
      /\ Forall
           (fun nal =>
              (exists a b, a < b /\ b <= length data /\ nal = slice data a b)
              /\ forall k, k + 3 < length nal -> slice nal k (k + 3) <> start_code3)
           new.
Proof.
  induction fuel as [|f IH]; intros data i nal_units Hf.
  - exists []. cbn [parse_nal_loop].
    destruct (Nat.ltb_spec (i + 4) (length data)); [lia|].
    now rewrite app_nil_r.
  - cbn [parse_nal_loop].
    destruct (Nat.ltb_spec (i + 4) (length data)) as [Hi|Hi].
    2:{ exists []. now rewrite app_nil_r. }
    assert (After : forall start,
               i + 3 <= start -> start <= length data ->
               exists new,
                 (end_ <- find_end (length data) data start ;;
                  parse_nal_loop f data end_
                    (if start <? end_
                     then nal_units ++ [slice data start end_]
                     else nal_units))
                 = Ok (nal_units ++ new)
                 /\ Forall
                      (fun nal =>
                         (exists a b, a < b /\ b <= length data /\ nal = slice data a b)
                         /\ forall k, k + 3 < length nal ->
                            slice nal k (k + 3) <> start_code3)
                      new).
    { intros start Hs1 Hs2.
      destruct (@find_end_first (length data) data start) as (e & -> & Hcase & Hno);
        [lia|].
      cbn [bind].
      assert (He : start <= e /\ e <= length data)
        by (destruct Hcase as [->|(? & ? & _)]; lia).
      destruct (Nat.ltb_spec start e) as [Hlt|Hge].
      - destruct (IH data e (nal_units ++ [slice data start e])) as (new & -> & HF);
          [lia|].
        exists (slice data start e :: new). split; [now rewrite <- app_assoc|].
        constructor; [|exact HF]. split.
        + exists start, e. repeat split; lia.
        + intros k Hk. rewrite length_slice_le in Hk.
          rewrite slice_slice by lia.
          replace (start + (k + 3)) with (start + k + 3) by lia.
          intro E. apply bytes_eqb_eq in E.
          assert (starts_code data (start + k) = false) as Hn by (apply Hno; lia).
          unfold starts_code in Hn. rewrite E, orb_true_r in Hn. discriminate.
      - destruct (IH data e nal_units) as (new & -> & HF); [lia|].
        exists new. split; [reflexivity | exact HF]. }
    destruct (bytes_eqb (slice data i (i + 4)) start_code4).
    { apply After; lia. }
    destruct (bytes_eqb (slice data i (i + 3)) start_code3).
    { apply After; lia. }
    apply IH. lia.
Qed.

(** X6.  [_parse_nal_units] returns for every input, and never returns an
    empty NAL unit: every unit is a non-empty slice of the data, and no
    start code [00 00 01] begins inside it except possibly at its last three
    bytes (the inner scan stops three bytes before the end of the data). *)
Theorem parse_nal_units_slices (data : list byte) :
  exists nal_units,
    _parse_nal_units data = Ok nal_units
    /\ Forall
         (fun nal =>
            nal <> []
            /\ (exists a b, a < b /\ b <= length data /\ nal = slice data a b)
            /\ forall k, k + 3 < length nal -> slice nal k (k + 3) <> start_code3)
         nal_units.
Proof.
  unfold _parse_nal_units.
  destruct (@parse_nal_loop_slices (length data) data 0 []) as (new & -> & HF); [lia|].
  exists new. split; [reflexivity|].
  eapply Forall_impl; [|exact HF].
  intros nal [(a & b & Hab & Hb & ->) Hno]. split; [|split].
  - intro E. apply (f_equal (@length byte)) in E.
    rewrite length_slice_le in E. cbn [length] in E. lia.
  - exists a, b. repeat split; assumption.
  - exact Hno.
Qed.

Lemma get_app (a b : list byte) (i : nat) :
  get (a ++ b) i = if i <? length a then get a i else get b (i - length a).
Proof.
  unfold get. destruct (Nat.ltb_spec i (length a)).
  - now apply app_nth1.
  - now apply app_nth2.
Qed.

Lemma no_start_code_bytes (nal : list byte) (k : nat) :
  has_no_start_code nal = true ->
  k + 3 <= length nal ->
  get nal k = x00 -> get nal (k + 1) = x00 -> get nal (k + 2) = x01 -> False.
Proof.
  unfold has_no_start_code. intros H Hk H0 H1 H2.
  rewrite forallb_forall in H. specialize (H k).
  rewrite slice_3, H0, H1, H2 in H by assumption.
  assert (In k (seq 0 (length nal))) as Hin by (apply in_seq; lia).
  apply H in Hin. discriminate.
Qed.

(** No start code begins inside a NAL unit that contains none, also when a
    four-byte start code follows it. *)
Lemma no_code_inside (pre nal rest : list byte) (x : nat) :
  has_no_start_code nal = true ->
  rest = [] \/ (exists rest', rest = start_code4 ++ rest') ->
  x < length nal ->
  starts_code (pre ++ nal ++ rest) (length pre + x) = false.
Proof.
  intros Hno Hrest Hx.
  destruct (starts_code (pre ++ nal ++ rest) (length pre + x)) eqn:Hs;
    [exfalso | reflexivity].
  apply starts_code_bytes in Hs.
  assert (G : forall d, get (pre ++ nal ++ rest) (length pre + x + d)
                        = if x + d <? length nal then get nal (x + d)
                          else get rest (x + d - length nal)).
  { intro d. rewrite <- Nat.add_assoc.
    unfold get at 1. rewrite app_nth2_plus. apply get_app. }
  rewrite <- (Nat.add_0_r (length pre + x)) in Hs at 1.
  rewrite !G, Nat.add_0_r in Hs. rewrite !length_app in Hs.
  destruct (Nat.ltb_spec x (length nal)) as [_|]; [|lia].
  destruct Hs as (H0 & H1 & Hs).
  assert (R : forall d, d < 3 -> rest <> [] -> get rest d = x00).
  { intros d Hd Hne. destruct Hrest as [->|[rest' ->]]; [congruence|].
    destruct d as [|[|[|d]]]; [reflexivity .. | lia]. }
  assert (L : rest = [] -> length rest = 0) by (now intros ->).
  destruct (Nat.ltb_spec (x + 1) (length nal)) as [I1|I1].
  2:{ destruct Hs as [(Hl & H2)|(Hl & H2 & H3)].
      - destruct (Nat.ltb_spec (x + 2) (length nal)); [lia|].
        rewrite R in H2; [discriminate | lia |]. intro E. apply L in E. lia.
      - destruct (Nat.ltb_spec (x + 3) (length nal)); [lia|].
        rewrite R in H3; [discriminate | lia |]. intro E. apply L in E. lia. }
  destruct (Nat.ltb_spec (x + 2) (length nal)) as [I2|I2].
  2:{ destruct Hs as [(Hl & H2)|(Hl & H2 & H3)].
      - rewrite R in H2; [discriminate | lia |]. intro E. apply L in E. lia.
      - destruct (Nat.ltb_spec (x + 3) (length nal)); [lia|].
        rewrite R in H3; [discriminate | lia |]. intro E. apply L in E. lia. }
  destruct Hs as [(Hl & H2)|(Hl & H2 & H3)].
  - apply (@no_start_code_bytes nal x); (assumption || lia).
  - destruct (Nat.ltb_spec (x + 3) (length nal)) as [I3|I3].
    + apply (@no_start_code_bytes nal (x + 1)); try assumption; try lia.
      * now rewrite <- Nat.add_assoc.
      * now rewrite <- Nat.add_assoc.
    + rewrite R in H3; [discriminate | lia |]. intro E. apply L in E. lia.
Qed.

(** The inner loop, started at the first byte of such a NAL unit, stops
    exactly at its end. *)
Lemma find_end_nal (pre nal rest : list byte) (fuel : nat) :
  has_no_start_code nal = true ->
  rest = [] \/ (exists rest', rest = start_code4 ++ rest') ->
  length (nal ++ rest) <= fuel ->
  find_end fuel (pre ++ nal ++ rest) (length pre) = Ok (length pre + length nal).
Proof.
  intros Hno Hrest Hf.
  destruct (@find_end_first fuel (pre ++ nal ++ rest) (length pre))
    as (e & -> & Hcase & Hfirst).
  { rewrite length_app. lia. }
  f_equal.
  assert (Inside : forall k, length pre <= k -> k < length pre + length nal ->
                     starts_code (pre ++ nal ++ rest) k = false).
  { intros k H1 H2. replace k with (length pre + (k - length pre)) by lia.
    apply no_code_inside; (assumption || lia). }
  rewrite !length_app in Hcase, Hfirst.
  destruct Hrest as [->|[rest' ->]].
  - cbn [length] in Hcase. destruct Hcase as [->|(H1 & H2 & H3)]; [lia|].
    rewrite Inside in H3; [discriminate | lia | lia].
  - assert (Hq : starts_code (pre ++ nal ++ start_code4 ++ rest')
                   (length pre + length nal) = true).
    { unfold starts_code.
      rewrite app_assoc, <- length_app.
      rewrite <- (Nat.add_0_r (length (pre ++ nal))) at 1.
      rewrite slice_app_skip.
      rewrite slice_app_l by (cbn; lia). reflexivity. }
    rewrite length_app in Hcase, Hfirst. cbn [start_code4 length] in Hcase, Hfirst.
    destruct (Nat.lt_trichotomy e (length pre + length nal)) as [Hlt|[->|Hgt]];
      [|reflexivity|].
    + destruct Hcase as [->|(H1 & H2 & H3)]; [lia|].
      rewrite Inside in H3; [discriminate | lia | lia].
    + rewrite Hfirst in Hq; [discriminate | lia | lia | lia].
Qed.

Lemma annexb_cases (nals : list (list byte)) :
  annexb nals = [] \/ exists rest', annexb nals = start_code4 ++ rest'.
Proof.
  destruct nals as [|nal nals]; [now left|].
  right. unfold annexb. cbn [map concat]. rewrite <- app_assoc. eauto.
Qed.

Lemma parse_nal_loop_annexb (nals : list (list byte)) :
  Forall (fun nal => nal <> [] /\ has_no_start_code nal = true) nals ->
  forall pre fuel nal_units,
    length nals <= fuel ->
    parse_nal_loop fuel (pre ++ annexb nals) (length pre) nal_units
    = Ok (nal_units ++ nals).
Proof.
  induction 1 as [|nal nals [Hne Hno] HF IH]; intros pre fuel nal_units Hf.
  - unfold annexb. cbn [map concat]. rewrite !app_nil_r.
    destruct fuel; cbn [parse_nal_loop];
      destruct (Nat.ltb_spec (length pre + 4) (length pre)); (lia || reflexivity).
  - destruct fuel as [|f]; [cbn in Hf; lia|].
    assert (Hlen : 0 < length nal) by (destruct nal; [congruence | cbn; lia]).
    assert (E : pre ++ annexb (nal :: nals)
                = (pre ++ start_code4) ++ nal ++ annexb nals).
    { unfold annexb. cbn [map concat]. now rewrite <- !app_assoc. }
    cbn [parse_nal_loop].
    destruct (Nat.ltb_spec (length pre + 4) (length (pre ++ annexb (nal :: nals))))
      as [_|Hge].
    2:{ rewrite E, !length_app in Hge. cbn [start_code4 length] in Hge. lia. }
    assert (S4 : slice (pre ++ annexb (nal :: nals)) (length pre) (length pre + 4)
                 = start_code4).
    { unfold annexb. cbn [map concat].
      rewrite <- (Nat.add_0_r (length pre)) at 1. rewrite slice_app_skip.
      rewrite <- app_assoc. rewrite slice_app_l by (cbn; lia). reflexivity. }
    rewrite S4. change (bytes_eqb start_code4 start_code4) with true. cbv iota.
    rewrite E.
    replace (length pre + 4) with (length (pre ++ start_code4))
      by (rewrite length_app; reflexivity).
    rewrite find_end_nal; [|assumption | apply annexb_cases |].
    2:{ rewrite !length_app. lia. }
    cbn [bind].
    destruct (Nat.ltb_spec (length (pre ++ start_code4))
                (length (pre ++ start_code4) + length nal)); [|lia].
    assert (SN : slice ((pre ++ start_code4) ++ nal ++ annexb nals)
                   (length (pre ++ start_code4))
                   (length (pre ++ start_code4) + length nal) = nal).
    { rewrite <- (Nat.add_0_r (length (pre ++ start_code4))) at 1.
      rewrite slice_app_skip, slice_app_l by lia. now apply slice_all. }
    rewrite SN.
    rewrite app_assoc, <- length_app.
    rewrite IH by (cbn [length] in Hf; lia).
    now rewrite <- app_assoc.
Qed.

(** X7.  Parsing is a left inverse of Annex B framing with four-byte start
    codes: when every NAL unit is non-empty and contains no [00 00 01],
    [_parse_nal_units] of their framed concatenation returns exactly these
    units, in order. *)
Theorem parse_nal_units_annexb (nals : list (list byte)) :
  Forall (fun nal => nal <> [] /\ has_no_start_code nal = true) nals ->
  _parse_nal_units (annexb nals) = Ok nals.
Proof.
  intro H. unfold _parse_nal_units.
  apply (@parse_nal_loop_annexb nals H [] (length (annexb nals)) []).
  clear H. induction nals as [|nal nals IH]; [cbn; lia|].
  unfold annexb in *. cbn [map concat length]. rewrite !length_app.
  cbn [start_code4 length]. lia.
Qed.

Lemma parse_nal_units_annexb_witness :
  _parse_nal_units (annexb [[x67; x42; x00; x00]; [x65; x00; x01; x00]])
  = Ok [[x67; x42; x00; x00]; [x65; x00; x01; x00]].
Proof.
  apply parse_nal_units_annexb.
  repeat constructor; (discriminate || reflexivity).
Defined.

End AnnexBFacts.

(** ** stream.py: [_process_stream_data] on every buffer *)

Module DemuxFacts.

Import Crypto Stream Spec.

Lemma to_nat_lt (b : byte) : Byte.to_nat b < 256.
Proof.
  destruct (Nat.lt_ge_cases (Byte.to_nat b) 256) as [H|H]; [exact H|].
  assert (E : Byte.of_nat (Byte.to_nat b) = None) by (apply Byte.of_nat_None_iff; lia).
  rewrite Byte.of_to_nat in E. discriminate.
Qed.

Lemma skipn_two (data : list byte) (p : nat) :
  p + 1 < length data ->
  skipn p data = get data p :: get data (p + 1) :: skipn (p + 2) data.
Proof.
  intro H. rewrite AnnexBFacts.skipn_get by lia.
  rewrite (@AnnexBFacts.skipn_get data (S p)) by lia.
  replace (p + 1) with (S p) by lia. replace (p + 2) with (S (S p)) by lia.
  reflexivity.
Qed.

Lemma truncated_video_eq (tl : list byte) :
  2 <= length tl ->
  truncated_video tl
  = Byte.eqb (get tl 0) x7f && is_video_kind (get tl 1)
    && ((length tl <? 12)
        || (length tl <? 12 + (Byte.to_nat (get tl 7) + 256 * Byte.to_nat (get tl 8)))).
Proof. destruct tl as [|b0 [|b1 tl]]; cbn [length]; intro H; (lia || reflexivity). Qed.

Lemma truncated_audio_header_eq (tl : list byte) :
  2 <= length tl ->
  truncated_audio_header tl
  = Byte.eqb (get tl 0) x7f && Byte.eqb (get tl 1) x18 && (length tl <? 12).
Proof. destruct tl as [|b0 [|b1 tl]]; cbn [length]; intro H; (lia || reflexivity). Qed.

Lemma get_skipn (data : list byte) (p i : nat) :
  get (skipn p data) i = get data (p + i).
Proof. unfold get. apply nth_skipn. Qed.

Section WithCipher.

Variable cipher_decrypt : list byte -> list byte.

(** *** One iteration, in full *)

(** An iteration either stops at the start of a video packet or of an audio
    header that runs past the end of the buffer, or moves the cursor forward
    within the buffer; the recorder and the video bytes change only through
    [video_packet], the audio bytes only grow. *)
Lemma loop_body_inv (data : list byte) (ra : bool) (c : cursor) :
  pos c < length data ->
  (loop_body cipher_decrypt data ra c = Ok (Break c)
   /\ (truncated_video (skipn (pos c) data) = true
       \/ truncated_audio_header (skipn (pos c) data) = true))
  \/ exists c',
       loop_body cipher_decrypt data ra c = Ok (Next c')
       /\ pos c < pos c' /\ pos c' <= length data
       /\ (exists more, audio_result c' = audio_result c ++ more)
       /\ ((self c' = self c /\ video_result c' = video_result c)
           \/ exists is_iframe total cur pl,
                video_packet cipher_decrypt (self c) (video_result c) (pos c)
                  is_iframe total cur pl
                = Ok (self c', video_result c')).
Proof.
  intro Hpos. unfold loop_body, HEADER_SIZE. cbv zeta.
  set (p := pos c) in *.
  destruct (Byte.eqb (get data p) x7f && (p + 1 <? length data)
            && is_video_kind (get data (p + 1))) eqn:Hv.
  { rewrite !andb_true_iff in Hv. destruct Hv as [[H0 H1] Hk].
    apply Nat.ltb_lt in H1.
    assert (Tr : truncated_video (skipn p data)
                 = (length data - p <? 12)
                   || (length data - p <?
                       12 + (Byte.to_nat (get data (p + 7))
                             + 256 * Byte.to_nat (get data (p + 8))))).
    { rewrite truncated_video_eq by (rewrite length_skipn; lia).
      rewrite !get_skipn, length_skipn, Nat.add_0_r, H0, Hk. reflexivity. }
    destruct (Nat.ltb_spec (length data) (p + 12)) as [Hh|Hh].
    { left. split; [reflexivity|]. left. rewrite Tr.
      destruct (Nat.ltb_spec (length data - p) 12); [reflexivity | lia]. }
    destruct (StreamFacts.header_fields data p Hh) as (t & cf & l & Et & Ec & El).
    rewrite Et, Ec. cbn [bind].
    assert (El' : unpack_H (slice data (p + 7) (p + 9))
                  = Ok (Byte.to_nat (get data (p + 7))
                        + 256 * Byte.to_nat (get data (p + 8)))).
    { replace (p + 9) with (p + 7 + 2) by lia.
      rewrite StreamFacts.slice_two by lia.
      replace (p + 7 + 1) with (p + 8) by lia. reflexivity. }
    rewrite El' in El. injection El as <-. rewrite El'. cbn [bind].
    set (l := Byte.to_nat (get data (p + 7)) + 256 * Byte.to_nat (get data (p + 8)))
      in *.
    destruct (Nat.ltb_spec (length data) (p + 12 + l)) as [Hl|Hl].
    { left. split; [reflexivity|]. left. rewrite Tr.
      destruct (Nat.ltb_spec (length data - p) (12 + l)); [|lia].
      apply orb_true_r. }
    destruct (StreamFacts.video_packet_total cipher_decrypt (self c) (video_result c) p
                (Byte.eqb (get data (p + 1)) x28) t cf
                (slice data (p + 12) (p + 12 + l))) as (r' & v' & E).
    rewrite E. cbn [bind]. right. eexists. split; [reflexivity|].
    cbn [pos self video_result audio_result].
    split; [lia|]. split; [lia|]. split; [exists []; now rewrite app_nil_r|].
    right. eauto. }
  destruct (Byte.eqb (get data p) x7f && (p + 1 <? length data)
            && Byte.eqb (get data (p + 1)) x18) eqn:Ha.
  { rewrite !andb_true_iff in Ha. destruct Ha as [[H0 H1] Hk].
    apply Nat.ltb_lt in H1.
    destruct (Nat.ltb_spec (length data) (p + 12)) as [Hh|Hh].
    { left. split; [reflexivity|]. right.
      rewrite truncated_audio_header_eq by (rewrite length_skipn; lia).
      rewrite !get_skipn, length_skipn, Nat.add_0_r, H0, Hk.
      destruct (Nat.ltb_spec (length data - p) 12); [reflexivity | lia]. }
    destruct (StreamFacts.header_fields data p Hh) as (t & cf & l & -> & -> & ->).
    cbn [bind].
    destruct ((1000 <? l) || (10 <? t)) eqn:Hs; cbn [orb].
    { right. eexists. split; [reflexivity|].
      cbn [pos self video_result audio_result].
      split; [lia|]. split; [lia|]. split; [exists []; now rewrite app_nil_r|].
      now left. }
    destruct (Nat.ltb_spec (length data) (p + 12 + l)).
    { right. eexists. split; [reflexivity|].
      cbn [pos self video_result audio_result].
      split; [lia|]. split; [lia|]. split; [exists []; now rewrite app_nil_r|].
      now left. }
    destruct ra; cbn [negb]; right; eexists; (split; [reflexivity|]);
      cbn [pos self video_result audio_result];
      (split; [lia|]); (split; [lia|]);
      (split; [eexists; try reflexivity; now rewrite app_nil_r|]); now left. }
  right. eexists. split; [reflexivity|].
  cbn [pos self video_result audio_result].
  split; [lia|]. split; [lia|]. split; [exists []; now rewrite app_nil_r|].
  now left.
Qed.

(** The loop returns, with the cursor at the end of the buffer or at the
    start of a truncated packet. *)
Lemma process_loop_stops (fuel : nat) :
  forall data ra c,
    length data - pos c <= fuel ->
    pos c <= length data ->
    exists c',
      process_loop cipher_decrypt fuel data ra c = Ok c'
      /\ pos c' <= length data
      /\ (pos c' = length data
          \/ truncated_video (skipn (pos c') data) = true
          \/ truncated_audio_header (skipn (pos c') data) = true).
Proof.
  induction fuel as [|f IH]; intros data ra c Hf Hle.
  - rewrite StreamFacts.process_loop_done by lia.
    exists c. split; [reflexivity|]. split; [lia|]. left. lia.
  - destruct (Nat.le_gt_cases (length data) (pos c)) as [H|H].
    { rewrite StreamFacts.process_loop_done by lia.
      exists c. split; [reflexivity|]. split; [lia|]. left. lia. }
    rewrite StreamFacts.process_loop_S by assumption.
    destruct (loop_body_inv data ra c H)
      as [[-> Hshape]|(c' & -> & Hlt & Hle' & _)]; cbn [bind].
    + exists c. split; [reflexivity|]. split; [lia|]. now right.
    + apply IH; lia.
Qed.

(** *** The recorder's invariant *)

Lemma video_packet_consistent (r r' : recorder) (video video' : list byte)
    (p : nat) (is_iframe : bool) (total cur : nat) (pl : list byte) :
  consistent r ->
  video_packet cipher_decrypt r video p is_iframe total cur pl = Ok (r', video') ->
  consistent r'.
Proof.
  intros Hc E.
  destruct (Nat.eq_dec cur 0) as [->|Hcur].
  - rewrite StreamFacts.video_packet_first in E. injection E as <- _.
    unfold consistent. cbn [frame_chunks current_frame_start]. eauto.
  - unfold video_packet in E.
    destruct (Nat.eqb_spec cur 0); [contradiction|].
    unfold consistent in Hc.
    destruct (frame_chunks r) as [acc|] eqn:Ha.
    + destruct (current_frame_start r) as [s|] eqn:Hs; [|contradiction].
      destruct Hc as (pl0 & rest & -> & HF).
      rewrite StreamFacts._decrypt_frame_emit in E. cbn [bind] in E.
      match type of E with
      | context [Nat.leb ?a ?b] => destruct (Nat.leb a b)
      end.
      * injection E as <- _. exact I.
      * injection E as <- _. unfold consistent.
        cbn [frame_chunks current_frame_start].
        exists pl0, (rest ++ [(cur, pl)]). split; [reflexivity|].
        apply Forall_app. split; [exact HF|]. constructor; [exact Hcur | constructor].
    + injection E as <- _. unfold consistent. now rewrite Ha.
Qed.

Lemma process_loop_consistent (fuel : nat) :
  forall data ra c c',
    length data - pos c <= fuel ->
    consistent (self c) ->
    process_loop cipher_decrypt fuel data ra c = Ok c' ->
    consistent (self c').
Proof.
  induction fuel as [|f IH]; intros data ra c c' Hf Hc E.
  - rewrite StreamFacts.process_loop_done in E by lia. now injection E as <-.
  - destruct (Nat.le_gt_cases (length data) (pos c)) as [H|H].
    { rewrite StreamFacts.process_loop_done in E by lia. now injection E as <-. }
    rewrite StreamFacts.process_loop_S in E by assumption.
    destruct (loop_body_inv data ra c H)
      as [[Eb _]|(c1 & Eb & Hlt & Hle & _ & Hself)]; rewrite Eb in E; cbn [bind] in E.
    + now injection E as <-.
    + apply (IH data ra c1 c'); [lia | | exact E].
      destruct Hself as [[-> _]|(i & t & cf & pl & Ev)]; [exact Hc|].
      eapply video_packet_consistent; eassumption.
Qed.

(** *** Whole items under the cursor *)

Lemma loop_body_skip (data : list byte) (ra : bool) (c : cursor) :
  get data (pos c) <> x7f ->
  loop_body cipher_decrypt data ra c
  = Ok (Next {| pos := pos c + 1; self := self c;
                video_result := video_result c; audio_result := audio_result c |}).
Proof.
  intro H. unfold loop_body.
  destruct (Byte.eqb (get data (pos c)) x7f) eqn:E;
    [apply Byte.byte_dec_bl in E; contradiction | reflexivity].
Qed.

Lemma process_loop_junk (ra : bool) (fuel : nat) (post g : list byte) :
  forall pre c,
    Forall (fun b => b <> x7f) g ->
    pos c = length pre ->
    length (pre ++ g ++ post) - pos c <= fuel ->
    process_loop cipher_decrypt fuel (pre ++ g ++ post) ra c
    = process_loop cipher_decrypt fuel (pre ++ g ++ post) ra
        {| pos := length pre + length g; self := self c;
           video_result := video_result c; audio_result := audio_result c |}.
Proof.
  induction g as [|b g IH]; intros pre c HF Hp Hf.
  - cbn [length]. rewrite Nat.add_0_r, <- Hp. now destruct c.
  - inversion HF as [|? ? Hb HF']; subst.
    assert (D : pre ++ (b :: g) ++ post = (pre ++ [b]) ++ g ++ post)
      by (now rewrite <- app_assoc).
    erewrite StreamFacts.process_loop_next.
    2:{ rewrite !length_app. cbn [length]. lia. }
    2:{ exact Hf. }
    2:{ apply loop_body_skip. rewrite Hp.
        rewrite <- (Nat.add_0_r (length pre)), StreamFacts.get_app_skip. exact Hb. }
    rewrite D in *.
    rewrite (IH (pre ++ [b])); [| exact HF' | | ].
    + cbn [self video_result audio_result]. do 2 f_equal.
      rewrite length_app. cbn [length]. lia.
    + cbn [pos]. rewrite length_app. cbn [length]. lia.
    + cbn [pos]. lia.
Qed.

(** A whole frame under the cursor: fragment 0 closes the frame that was
    open, the last fragment emits the new one (a frame of one fragment stays
    open, complete, until the next fragment 0 or the end of the call). *)
Lemma process_loop_frame (ra : bool) (fuel : nat) (pre post : list byte)
    (first : packet) (others : list packet) (c : cursor) :
  item_ok (Frame first others) ->
  pos c = length pre ->
  length (pre ++ item_bytes (Frame first others) ++ post) - pos c <= fuel ->
  exists c',
    process_loop cipher_decrypt fuel (pre ++ item_bytes (Frame first others) ++ post) ra c
    = process_loop cipher_decrypt fuel
        (pre ++ item_bytes (Frame first others) ++ post) ra c'
    /\ pos c' = length pre + length (item_bytes (Frame first others))
    /\ video_result c' ++ pending cipher_decrypt (self c')
       = (video_result c ++ pending cipher_decrypt (self c))
           ++ item_video cipher_decrypt (Frame first others)
    /\ audio_result c' = audio_result c.
Proof.
  intros (Hv & H0 & Ht & HF & HP) Hp Hf.
  assert (HF' : Forall (fun p => is_video p = true /\ fragment_index p <> 0) others).
  { rewrite Forall_forall in *. intros q Hq. split; [now apply HF|].
    assert (Hi : In (fragment_index q) (seq 1 (length others))).
    { eapply Permutation_in; [exact HP | now apply in_map]. }
    apply in_seq in Hi. lia. }
  cbn [item_bytes item_video map concat] in *.
  rewrite <- (@StreamFacts.reassemble_frame first others H0 HP).
  set (c1 := {| pos := length pre + 12 + length (payload first);
                self := {| frame_chunks := Some [(0, payload first)];
                           current_frame_start := Some (length pre);
                           current_total := total_fragments first;
                           current_is_iframe := Byte.eqb (kind first) x28 |};
                video_result := video_result c ++ pending cipher_decrypt (self c);
                audio_result := audio_result c |}).
  assert (Len : length (pre ++ (encode first ++ concat (map encode others)) ++ post)
                = length pre + 12 + length (payload first)
                  + length (concat (map encode others)) + length post).
  { rewrite !length_app, StreamFacts.length_encode. lia. }
  assert (E1 : process_loop cipher_decrypt fuel
                 (pre ++ (encode first ++ concat (map encode others)) ++ post) ra c
               = process_loop cipher_decrypt fuel
                   (pre ++ (encode first ++ concat (map encode others)) ++ post) ra c1).
  { apply StreamFacts.process_loop_next; [lia | exact Hf |].
    rewrite <- app_assoc.
    rewrite StreamFacts.loop_body_video_at by assumption.
    rewrite H0, StreamFacts.video_packet_first. reflexivity. }
  destruct others as [|o others'].
  - exists c1. split; [exact E1|]. unfold c1.
    cbn [pos self video_result audio_result map concat length].
    rewrite app_nil_r, StreamFacts.length_encode.
    split; [lia|]. split; [|reflexivity].
    f_equal. unfold pending.
    cbn [current_frame_start frame_chunks current_total current_is_iframe].
    rewrite Ht. reflexivity.
  - set (others := o :: others') in *.
    rewrite E1.
    assert (D : pre ++ (encode first ++ concat (map encode others)) ++ post
                = (pre ++ encode first) ++ concat (map encode others) ++ post)
      by (now rewrite <- !app_assoc).
    rewrite D in *.
    erewrite (@StreamFacts.process_loop_collect cipher_decrypt ra fuel post others
                (pre ++ encode first) c1 [(0, payload first)]).
    + eexists. split; [reflexivity|]. unfold c1.
      cbn [pos self video_result audio_result current_total current_is_iframe].
      split; [rewrite !length_app; lia|]. split; [|reflexivity].
      unfold pending at 1, closed. cbn [current_frame_start].
      now rewrite app_nil_r.
    + discriminate.
    + exact HF'.
    + unfold c1. cbn [pos]. rewrite length_app, StreamFacts.length_encode. lia.
    + reflexivity.
    + unfold c1. cbn [self current_total length]. rewrite Ht. cbn [length]. lia.
    + unfold c1. cbn [pos]. lia.
Qed.

Lemma process_loop_item (ra : bool) (fuel : nat) (pre post : list byte)
    (i : item) (c : cursor) :
  item_ok i ->
  pos c = length pre ->
  length (pre ++ item_bytes i ++ post) - pos c <= fuel ->
  exists c',
    process_loop cipher_decrypt fuel (pre ++ item_bytes i ++ post) ra c
    = process_loop cipher_decrypt fuel (pre ++ item_bytes i ++ post) ra c'
    /\ pos c' = length pre + length (item_bytes i)
    /\ video_result c' ++ pending cipher_decrypt (self c')
       = (video_result c ++ pending cipher_decrypt (self c))
           ++ item_video cipher_decrypt i
    /\ audio_result c'
       = audio_result c ++ (if ra then item_audio cipher_decrypt i else []).
Proof.
  intros Hok Hp Hf. destruct i as [first others|p|g].
  - destruct (@process_loop_frame ra fuel pre post first others c Hok Hp Hf)
      as (c' & E & P & V & A).
    exists c'. repeat split; try assumption.
    cbn [item_audio]. rewrite A. destruct ra; now rewrite app_nil_r.
  - cbn [item_ok item_bytes item_video item_audio] in *.
    eexists. split.
    + apply StreamFacts.process_loop_next; [| exact Hf |].
      * rewrite !length_app, StreamFacts.length_encode. lia.
      * now apply StreamFacts.loop_body_audio_at.
    + cbn [pos self video_result audio_result].
      rewrite StreamFacts.length_encode, app_nil_r.
      split; [lia|]. split; [reflexivity|].
      destruct ra; [reflexivity | now rewrite app_nil_r].
  - cbn [item_ok item_bytes item_video item_audio] in *.
    eexists. split; [now apply process_loop_junk|].
    cbn [pos self video_result audio_result]. rewrite !app_nil_r.
    split; [reflexivity|]. split; [reflexivity|].
    destruct ra; now rewrite app_nil_r.
Qed.

Lemma process_loop_items (ra : bool) (fuel : nat) (post : list byte)
    (items : list item) :
  forall pre c,
    Forall item_ok items ->
    pos c = length pre ->
    length (pre ++ concat (map item_bytes items) ++ post) - pos c <= fuel ->
    exists c',
      process_loop cipher_decrypt fuel (pre ++ concat (map item_bytes items) ++ post) ra c
      = process_loop cipher_decrypt fuel
          (pre ++ concat (map item_bytes items) ++ post) ra c'
      /\ pos c' = length pre + length (concat (map item_bytes items))
      /\ video_result c' ++ pending cipher_decrypt (self c')
         = (video_result c ++ pending cipher_decrypt (self c))
             ++ concat (map (item_video cipher_decrypt) items)
      /\ audio_result c'
         = audio_result c
             ++ (if ra then concat (map (item_audio cipher_decrypt) items) else []).
Proof.
  induction items as [|i items IH]; intros pre c HF Hp Hf.
  - cbn [map concat length] in *.
    exists c. rewrite !app_nil_r. repeat split; try lia.
    destruct ra; now rewrite app_nil_r.
  - inversion HF as [|? ? Hi HF']; subst.
    cbn [map concat] in *.
    rewrite <- app_assoc in *.
    destruct (@process_loop_item ra fuel pre (concat (map item_bytes items) ++ post)
                i c Hi Hp Hf) as (c1 & E & P & V & A).
    rewrite E.
    rewrite (app_assoc pre) in *.
    destruct (IH (pre ++ item_bytes i) c1 HF') as (c' & E' & P' & V' & A').
    { rewrite length_app. exact P. }
    { rewrite P. rewrite !length_app in *. lia. }
    exists c'. split; [exact E'|]. split; [|split].
    + rewrite P', !length_app. lia.
    + rewrite V', V. now rewrite <- !app_assoc.
    + rewrite A', A. destruct ra; now rewrite <- !app_assoc.
Qed.

(** The start of an audio packet whose payload is cut by the end of the
    buffer fails the sanity check: the cursor steps over its first byte. *)
Lemma loop_body_cut_audio (pre : list byte) (p : packet) (n : nat) (ra : bool)
    (c : cursor) :
  is_audio p = true ->
  n < length (payload p) ->
  pos c = length pre ->
  loop_body cipher_decrypt (pre ++ firstn (12 + n) (encode p)) ra c
  = Ok (Next {| pos := length pre + 1; self := self c;
                video_result := video_result c; audio_result := audio_result c |}).
Proof.
  intros Ha Hn Hp. unfold is_audio in Ha. rewrite !andb_true_iff in Ha.
  destruct Ha as [[[Hfits Hkind] Hlen] Htot].
  apply Byte.byte_dec_bl in Hkind.
  apply Nat.leb_le in Hlen. apply Nat.leb_le in Htot.
  apply StreamFacts.fits_true in Hfits. destruct Hfits as (Ft & Fi & Fl).
  set (cut := firstn (12 + n) (encode p)).
  assert (Lc : length (pre ++ cut) = length pre + 12 + n).
  { unfold cut. rewrite length_app, length_firstn, StreamFacts.length_encode. lia. }
  assert (G0 : get (pre ++ cut) (length pre) = x7f).
  { rewrite <- (Nat.add_0_r (length pre)), StreamFacts.get_app_skip. reflexivity. }
  assert (G1 : get (pre ++ cut) (length pre + 1) = x18).
  { rewrite StreamFacts.get_app_skip. rewrite <- Hkind. reflexivity. }
  unfold loop_body, HEADER_SIZE. cbv zeta.
  rewrite Hp, G0, G1, Lc, !slice_app_skip.
  change (slice cut 3 5) with (pack_H (total_fragments p)).
  change (slice cut 5 7) with (pack_H (fragment_index p)).
  change (slice cut 7 9) with (pack_H (length (payload p))).
  rewrite !StreamFacts.unpack_pack_H by assumption.
  cbn [bind is_video_kind Byte.eqb orb andb].
  rewrite andb_false_r.
  change (Byte.eqb x7f x7f) with true. change (Byte.eqb x18 x18) with true.
  destruct (Nat.ltb_spec (length pre + 1) (length pre + 12 + n)); [|lia].
  cbn [andb].
  destruct (Nat.ltb_spec (length pre + 12 + n) (length pre + 12)); [lia|].
  destruct (Nat.ltb_spec (length pre + 12 + n)
              (length pre + 12 + length (payload p))); [|lia].
  rewrite orb_true_r. reflexivity.
Qed.

End WithCipher.

(** X8.  [_process_stream_data] returns for every recorder and every
    buffer.  What it hands back as unconsumed is a suffix of the buffer, and
    is either empty, or the start of a video packet whose header or payload
    runs past the end of the buffer, or the start of an audio packet with
    fewer than 12 bytes; so it is never a single byte and always shorter
    than one header plus the largest payload. *)
Theorem process_stream_data_remainder
    (cipher_decrypt : list byte -> list byte) (r : recorder)
    (data : list byte) (record_audio : bool) :
  exists video audio remaining r',
    _process_stream_data cipher_decrypt r data record_audio
    = Ok ((video, audio, remaining), r')
    /\ (exists n, n <= length data /\ remaining = skipn n data)
    /\ (remaining = []
        \/ truncated_video remaining = true
        \/ truncated_audio_header remaining = true)
    /\ length remaining <> 1
    /\ length remaining < 12 + 256 * 256.
Proof.
  unfold _process_stream_data.
  destruct (@process_loop_stops cipher_decrypt (length data) data record_audio
              {| pos := 0; self := r; video_result := []; audio_result := [] |})
    as (c & -> & Hle & Hshape); [cbn [pos]; lia | cbn [pos]; lia |].
  cbn [bind].
  destruct (StreamFacts.final_flush_pending cipher_decrypt (self c) (video_result c))
    as (r' & ->).
  cbn [bind]. do 4 eexists. split; [reflexivity|].
  split; [exists (pos c); split; [exact Hle | reflexivity]|].
  set (rest := skipn (pos c) data) in *.
  assert (Shape : rest = [] \/ truncated_video rest = true
                  \/ truncated_audio_header rest = true).
  { destruct Hshape as [E|H]; [left | right; exact H].
    unfold rest. apply skipn_all2. lia. }
  split; [exact Shape|].
  destruct Shape as [->|[H|H]]; [cbn [length]; lia | |].
  - unfold truncated_video in H.
    destruct rest as [|b0 [|b1 tl]]; try discriminate.
    rewrite !andb_true_iff, orb_true_iff, !Nat.ltb_lt in H.
    destruct H as [_ H].
    pose proof (to_nat_lt (get (b0 :: b1 :: tl) 7)).
    pose proof (to_nat_lt (get (b0 :: b1 :: tl) 8)).
    split; [cbn [length]; lia | lia].
  - unfold truncated_audio_header in H.
    destruct rest as [|b0 [|b1 tl]]; try discriminate.
    rewrite !andb_true_iff, Nat.ltb_lt in H.
    split; [cbn [length]; lia | lia].
Qed.

(** X9.  The recorder's invariant.  On a recorder where the two tests
    [_current_frame_start is not None] and ['current' in _frame_chunks] agree
    and the open frame, if any, begins with its fragment 0 and holds no other
    fragment 0, every call leaves such a recorder again, and leaves no frame
    open that already has all its fragments.  The recorder made by
    [__init__] is one. *)
Theorem process_stream_data_consistent
    (cipher_decrypt : list byte -> list byte) (r r' : recorder)
    (data : list byte) (record_audio : bool) (out : list byte * list byte * list byte) :
  consistent r ->
  _process_stream_data cipher_decrypt r data record_audio = Ok (out, r') ->
  consistent r' /\ open_complete r' = false
  /\ pending cipher_decrypt r' = [] /\ consistent init.
Proof.
  intros Hc E. unfold _process_stream_data in E.
  destruct (process_loop cipher_decrypt (length data) data record_audio
              {| pos := 0; self := r; video_result := []; audio_result := [] |})
    as [c| |] eqn:El; try discriminate.
  cbn [bind] in E.
  assert (Hc' : consistent (self c)).
  { eapply process_loop_consistent; [| | exact El]; [cbn [pos]; lia | exact Hc]. }
  assert (G : forall v rr,
             final_flush cipher_decrypt (self c) (video_result c) = Ok (rr, v) ->
             consistent rr /\ open_complete rr = false).
  { unfold final_flush, open_complete. intros v rr Ef.
    unfold consistent in Hc'.
    destruct (frame_chunks (self c)) as [cur|] eqn:Hcur;
      destruct (current_frame_start (self c)) as [s|] eqn:Hs; try contradiction.
    - destruct (current_total (self c) <=? length cur) eqn:Ht.
      + rewrite StreamFacts._decrypt_frame_emit in Ef. cbn [bind] in Ef.
        injection Ef as <- _. split; [exact I | reflexivity].
      + injection Ef as <- _. unfold consistent. rewrite Hcur, Hs, Ht. now split.
    - injection Ef as <- _. unfold consistent. rewrite Hcur, Hs. now split. }
  destruct (final_flush cipher_decrypt (self c) (video_result c))
    as [[rr v]| |] eqn:Ef; try discriminate.
  cbn [bind] in E. injection E as _ <-.
  destruct (G v rr eq_refl) as [G1 G2].
  split; [exact G1|]. split; [exact G2|]. split; [|exact I].
  unfold pending. unfold open_complete in G2.
  destruct (current_frame_start rr), (frame_chunks rr); try reflexivity.
  now rewrite G2.
Qed.

Lemma process_stream_data_consistent_witness :
  consistent {| frame_chunks := Some [(0, payload example_fragment_0)];
                current_frame_start := Some 0;
                current_total := 2;
                current_is_iframe := false |}.
Proof.
  exact (proj1 (@process_stream_data_consistent demo_cipher init _
                  (encode example_fragment_0) true ([], [], []) I eq_refl)).
Defined.

(** X10.  A buffer made of whole frames (fragment 0 first, the other
    fragments in any order), audio packets that pass the sanity check, and
    runs of bytes without 0x7F between them is consumed entirely: the video
    output is the frame that was pending in the recorder followed by the
    frames of the buffer in order, each decrypted by the frame rule, and the
    audio output is the decrypted audio payloads in order (nothing when
    [record_audio] is unset). *)
Theorem process_stream_data_items
    (cipher_decrypt : list byte -> list byte) (r : recorder)
    (items : list item) (record_audio : bool) :
  Forall item_ok items ->
  exists r',
    _process_stream_data cipher_decrypt r (concat (map item_bytes items)) record_audio
    = Ok ((pending cipher_decrypt r ++ concat (map (item_video cipher_decrypt) items),
           (if record_audio
            then concat (map (item_audio cipher_decrypt) items)
            else []),
           []), r').
Proof.
  intro HF. unfold _process_stream_data.
  rewrite <- (app_nil_r (concat (map item_bytes items))).
  destruct (@process_loop_items cipher_decrypt record_audio
              (length (concat (map item_bytes items) ++ [])) [] items []
              {| pos := 0; self := r; video_result := []; audio_result := [] |}
              HF eq_refl) as (c & E & P & V & A).
  { cbn [app pos]. lia. }
  cbn [app pos self video_result audio_result length] in *.
  rewrite E, StreamFacts.process_loop_done by (rewrite P, length_app; cbn [length]; lia).
  cbn [bind].
  destruct (StreamFacts.final_flush_pending cipher_decrypt (self c) (video_result c))
    as (r' & ->).
  cbn [bind]. exists r'. rewrite V, A, P.
  rewrite skipn_all2 by (rewrite length_app; cbn [length]; lia).
  reflexivity.
Qed.

Lemma process_stream_data_items_witness :
  exists r',
    _process_stream_data demo_cipher init
      (concat (map item_bytes
                 [Junk [x00; x28]; Frame example_fragment_0 [example_fragment_1];
                  Audio example_audio_16; Junk [xff]])) true
    = Ok ((pending demo_cipher init
             ++ concat (map (item_video demo_cipher)
                          [Junk [x00; x28]; Frame example_fragment_0 [example_fragment_1];
                           Audio example_audio_16; Junk [xff]]),
           concat (map (item_audio demo_cipher)
                     [Junk [x00; x28]; Frame example_fragment_0 [example_fragment_1];
                      Audio example_audio_16; Junk [xff]]),
           []), r').
Proof.
  apply (@process_stream_data_items demo_cipher init
           [Junk [x00; x28]; Frame example_fragment_0 [example_fragment_1];
            Audio example_audio_16; Junk [xff]] true).
  repeat constructor; try discriminate.
Defined.

(** X11.  An audio packet whose payload is cut by the end of the buffer is
    not kept for the next call (unlike a video packet): when the bytes after
    its first contain no 0x7F, the call consumes the whole buffer, and
    returns what the items before the cut packet give and an empty
    remainder. *)
Theorem truncated_audio_packet_is_dropped
    (cipher_decrypt : list byte -> list byte) (r : recorder)
    (items : list item) (p : packet) (n : nat) (record_audio : bool) :
  Forall item_ok items ->
  is_audio p = true ->
  n < length (payload p) ->
  Forall (fun b => b <> x7f) (skipn 1 (firstn (12 + n) (encode p))) ->
  exists r',
    _process_stream_data cipher_decrypt r
      (concat (map item_bytes items) ++ firstn (12 + n) (encode p)) record_audio
    = Ok ((pending cipher_decrypt r ++ concat (map (item_video cipher_decrypt) items),
           (if record_audio
            then concat (map (item_audio cipher_decrypt) items)
            else []),
           []), r').
Proof.
  intros HF Ha Hn Hj. unfold _process_stream_data.
  set (cut := firstn (12 + n) (encode p)) in *.
  set (data := concat (map item_bytes items) ++ cut).
  assert (Lcut : length cut = 12 + n).
  { unfold cut. rewrite length_firstn, StreamFacts.length_encode. lia. }
  destruct (@process_loop_items cipher_decrypt record_audio (length data) cut items []
              {| pos := 0; self := r; video_result := []; audio_result := [] |}
              HF eq_refl) as (c & E & P & V & A).
  { cbn [app pos]. fold data. lia. }
  cbn [app pos self video_result audio_result length] in *.
  fold data in E. rewrite E.
  erewrite StreamFacts.process_loop_next.
  2:{ unfold data. rewrite length_app. lia. }
  2:{ lia. }
  2:{ unfold data, cut. now apply loop_body_cut_audio. }
  assert (D : data = (concat (map item_bytes items) ++ [x7f]) ++ skipn 1 cut ++ []).
  { unfold data. rewrite app_nil_r, <- app_assoc. reflexivity. }
  rewrite D.
  rewrite process_loop_junk.
  2:{ exact Hj. }
  2:{ cbn [pos]. rewrite length_app. reflexivity. }
  2:{ rewrite <- D. cbn [pos]. lia. }
  rewrite StreamFacts.process_loop_done.
  2:{ cbn [pos]. rewrite !length_app. cbn [length]. lia. }
  cbn [bind self video_result audio_result pos].
  destruct (StreamFacts.final_flush_pending cipher_decrypt (self c) (video_result c))
    as (r' & ->).
  cbn [bind]. exists r'. rewrite V, A.
  rewrite skipn_all2 by (rewrite !length_app; cbn [length]; lia).
  reflexivity.
Qed.

Lemma truncated_audio_packet_is_dropped_witness :
  exists r',
    _process_stream_data demo_cipher init
      (concat (map item_bytes [Audio example_audio_16])
         ++ firstn (12 + 5) (encode example_audio_16)) true
    = Ok ((pending demo_cipher init
             ++ concat (map (item_video demo_cipher) [Audio example_audio_16]),
           concat (map (item_audio demo_cipher) [Audio example_audio_16]),
           []), r').
Proof.
  apply (@truncated_audio_packet_is_dropped demo_cipher init
           [Audio example_audio_16] example_audio_16 5 true).
  - repeat constructor.
  - reflexivity.
  - cbn. lia.
  - repeat constructor; discriminate.
Defined.

End DemuxFacts.

(** ** crypto.py: errors, block structure and sizes *)

Module CipherFacts.

Import Crypto Spec.

(** X12.  [generate_aes_key] raises [struct.error] exactly for the handles
    outside [0, 2^32), and returns a key for all the others: it raises
    nothing else. *)
Theorem generate_aes_key_errors (h : Z) :
  (generate_aes_key h = Raise StructError <-> ~ (0 <= h < 2 ^ 32)%Z)
  /\ ((exists key, generate_aes_key h = Ok key) <-> (0 <= h < 2 ^ 32)%Z).
Proof.
  assert (D : (0 <= h < 2 ^ 32)%Z \/ ~ (0 <= h < 2 ^ 32)%Z) by lia.
  destruct D as [Hin|Hout].
  - assert (E : exists key, generate_aes_key h = Ok key).
    { unfold generate_aes_key. rewrite pack_unsigned_ok by (cbn; lia).
      cbn [bind]. eexists. reflexivity. }
    split; split; try tauto.
    destruct E as [key ->]. discriminate.
  - assert (E : generate_aes_key h = Raise StructError).
    { unfold generate_aes_key, pack_unsigned at 1.
      change (256 ^ Z.of_nat 4)%Z with (2 ^ 32)%Z.
      destruct (Z.leb_spec 0 h); destruct (Z.ltb_spec h (2 ^ 32));
        cbn [andb bind]; (lia || reflexivity). }
    split; split; try tauto.
    rewrite E. intros [key Hk]. discriminate.
Qed.

Section WithCipher.

Variable cipher_decrypt : list byte -> list byte.

Lemma fold_left_app_concat (f : nat -> list byte) (l : list nat) :
  forall acc,
    fold_left (fun result i => result ++ f i) l acc = acc ++ concat (map f l).
Proof.
  induction l as [|i l IH]; intro acc; cbn [fold_left map concat].
  - now rewrite app_nil_r.
  - rewrite IH. now rewrite <- app_assoc.
Qed.

(** [decrypt_audio] in closed form: the whole 16-byte blocks, each through
    the cipher, then the bytes after the last whole block as they are. *)
Lemma decrypt_audio_blocks (data : list byte) :
  decrypt_audio cipher_decrypt data
  = concat (map (fun k => cipher_decrypt (slice data (k * 16) (k * 16 + 16)))
              (seq 0 (length data / 16)))
      ++ skipn (16 * (length data / 16)) data.
Proof.
  unfold decrypt_audio, range0.
  replace ((length data - 15 + 16 - 1) / 16) with (length data / 16).
  2:{ destruct (Nat.le_gt_cases 15 (length data)) as [H|H].
      - f_equal. lia.
      - rewrite !Nat.div_small; lia. }
  rewrite fold_left_app_concat. cbn [app]. rewrite map_map.
  pose proof (Nat.div_mod_eq (length data) 16) as Hdm.
  destruct (Nat.ltb_spec 0 (length data mod 16)) as [Hr|Hr].
  - f_equal. f_equal. lia.
  - rewrite (@skipn_all2 _ (16 * (length data / 16))) by lia.
    now rewrite app_nil_r.
Qed.

Lemma windows_fuel_enough (f1 : nat) :
  forall d f2,
    length d <= f1 -> length d <= f2 ->
    windows_fuel cipher_decrypt f1 d = windows_fuel cipher_decrypt f2 d.
Proof.
  induction f1 as [|f1 IH]; intros d f2 H1 H2.
  - destruct d; [|cbn in H1; lia]. now rewrite !DecryptFacts.windows_fuel_nil.
  - destruct (Nat.le_gt_cases 64 (length d)) as [H|H].
    + destruct f2 as [|f2]; [lia|].
      rewrite !DecryptFacts.windows_fuel_long by assumption.
      do 2 f_equal. apply IH; rewrite length_skipn; lia.
    + now rewrite !DecryptFacts.windows_fuel_short.
Qed.

Lemma windows_fuel_app (m : nat) :
  forall a b f1 f2 f3,
    length a = 80 * m ->
    length (a ++ b) <= f1 -> length a <= f2 -> length b <= f3 ->
    windows_fuel cipher_decrypt f1 (a ++ b)
    = windows_fuel cipher_decrypt f2 a ++ windows_fuel cipher_decrypt f3 b.
Proof.
  induction m as [|m IH]; intros a b f1 f2 f3 Ha H1 H2 H3.
  - destruct a; [|cbn in Ha; lia].
    rewrite DecryptFacts.windows_fuel_nil. cbn [app] in *.
    now apply windows_fuel_enough.
  - rewrite length_app in H1.
    destruct f1 as [|f1]; [lia|]. destruct f2 as [|f2]; [lia|].
    rewrite !DecryptFacts.windows_fuel_long by (rewrite ?length_app; lia).
    rewrite <- !app_assoc.
    assert (F64 : firstn 64 (a ++ b) = firstn 64 a).
    { rewrite firstn_app. replace (64 - length a) with 0 by lia.
      now rewrite firstn_O, app_nil_r. }
    assert (S64 : skipn 64 (a ++ b) = skipn 64 a ++ b).
    { rewrite skipn_app. replace (64 - length a) with 0 by lia.
      now rewrite skipn_O. }
    assert (S80 : skipn 80 (a ++ b) = skipn 80 a ++ b).
    { rewrite skipn_app. replace (80 - length a) with 0 by lia.
      now rewrite skipn_O. }
    assert (F16 : firstn 16 (skipn 64 a ++ b) = firstn 16 (skipn 64 a)).
    { rewrite firstn_app, length_skipn.
      replace (16 - (length a - 64)) with 0 by lia.
      now rewrite firstn_O, app_nil_r. }
    rewrite F64, S64, S80, F16.
    do 2 f_equal.
    apply IH; rewrite ?length_app, ?length_skipn; lia.
Qed.

End WithCipher.

Lemma map_seq_from {A : Type} (f : nat -> A) (q : nat) :
  forall m s, map f (seq (m + s) q) = map (fun j => f (m + j)) (seq s q).
Proof.
  induction q as [|q IH]; intros m s; cbn [seq map]; [reflexivity|].
  f_equal. rewrite <- Nat.add_succ_r. apply IH.
Qed.

(** X13.  [decrypt_audio] works block by block: after a prefix that is a
    whole number of 16-byte blocks the rest is decrypted as if it stood
    alone, and a rest shorter than one block is copied as it is. *)
Theorem decrypt_audio_block_aligned
    (cipher_decrypt : list byte -> list byte) (a b : list byte) :
  length a mod 16 = 0 ->
  decrypt_audio cipher_decrypt (a ++ b)
  = decrypt_audio cipher_decrypt a ++ decrypt_audio cipher_decrypt b
  /\ (length b < 16 ->
      decrypt_audio cipher_decrypt (a ++ b) = decrypt_audio cipher_decrypt a ++ b).
Proof.
  intro Ha.
  assert (Short : forall d, length d < 16 -> decrypt_audio cipher_decrypt d = d).
  { intros d Hd. rewrite decrypt_audio_blocks.
    rewrite Nat.div_small by assumption. reflexivity. }
  enough (E : decrypt_audio cipher_decrypt (a ++ b)
              = decrypt_audio cipher_decrypt a ++ decrypt_audio cipher_decrypt b).
  { split; [exact E|]. intro Hb. now rewrite E, (Short b). }
  pose proof (Nat.div_mod_eq (length a) 16) as Hdm. rewrite Ha in Hdm.
  set (m := length a / 16) in *.
  rewrite !decrypt_audio_blocks. fold m.
  assert (Hq : length (a ++ b) / 16 = m + length b / 16).
  { rewrite length_app.
    replace (length a + length b) with (length b + m * 16) by lia.
    rewrite Nat.div_add by lia. lia. }
  rewrite Hq, seq_app, map_app, concat_app. cbn [Nat.add].
  rewrite (@skipn_all2 _ (16 * m) a) by lia. rewrite app_nil_r.
  rewrite <- app_assoc. f_equal.
  - f_equal. apply map_ext_in. intros k Hk. apply in_seq in Hk.
    rewrite slice_app_l by lia. reflexivity.
  - f_equal.
    + f_equal. rewrite <- (Nat.add_0_r m) at 1. rewrite map_seq_from.
      apply map_ext. intro k.
      replace ((m + k) * 16) with (length a + k * 16) by lia.
      rewrite <- Nat.add_assoc. now rewrite slice_app_skip.
    + rewrite skipn_app.
      rewrite (@skipn_all2 _ (16 * (m + length b / 16)) a) by lia.
      cbn [app]. f_equal. lia.
Qed.

Lemma decrypt_audio_block_aligned_witness :
  decrypt_audio demo_cipher (repeat x41 32 ++ [x01; x02; x03])
  = decrypt_audio demo_cipher (repeat x41 32) ++ [x01; x02; x03].
Proof.
  apply (proj2 (@decrypt_audio_block_aligned demo_cipher (repeat x41 32)
                  [x01; x02; x03] eq_refl)).
  cbn. lia.
Defined.

(** X14.  [decrypt_64_80] works window by window: after a prefix that is a
    whole number of 80-byte windows the rest is processed as if it stood
    alone. *)
Theorem decrypt_64_80_window_aligned
    (cipher_decrypt : list byte -> list byte) (a b : list byte) :
  length a mod 80 = 0 ->
  exists out_a out_b,
    decrypt_64_80 cipher_decrypt a = Ok out_a
    /\ decrypt_64_80 cipher_decrypt b = Ok out_b
    /\ decrypt_64_80 cipher_decrypt (a ++ b) = Ok (out_a ++ out_b).
Proof.
  intro Ha. rewrite !DecryptFacts.decrypt_64_80_windows.
  do 2 eexists. split; [reflexivity|]. split; [reflexivity|].
  f_equal. unfold windows.
  pose proof (Nat.div_mod_eq (length a) 80) as Hdm. rewrite Ha in Hdm.
  apply (@windows_fuel_app cipher_decrypt (length a / 80)); lia.
Qed.

Lemma decrypt_64_80_window_aligned_witness :
  exists out_a out_b,
    decrypt_64_80 demo_cipher (map byte_of_nat (seq 0 80)) = Ok out_a
    /\ decrypt_64_80 demo_cipher (map byte_of_nat (seq 80 70)) = Ok out_b
    /\ decrypt_64_80 demo_cipher (map byte_of_nat (seq 0 80) ++ map byte_of_nat (seq 80 70))
       = Ok (out_a ++ out_b).
Proof.
  exact (@decrypt_64_80_window_aligned demo_cipher (map byte_of_nat (seq 0 80))
           (map byte_of_nat (seq 80 70)) eq_refl).
Defined.

(** *** [encrypt_password] *)

Lemma length_pad (d : list byte) : length (pad d 16) = 16 * (length d / 16 + 1).
Proof.
  unfold pad. cbv zeta. rewrite length_app, repeat_length.
  pose proof (Nat.div_mod_eq (length d) 16).
  pose proof (Nat.mod_upper_bound (length d) 16). lia.
Qed.

Lemma pad_whole (d : list byte) : length (pad d 16) mod 16 = 0.
Proof.
  rewrite length_pad, Nat.mul_comm. apply Nat.Div0.mod_mul.
Qed.

Lemma length_b64encode_bounded (n : nat) :
  forall l, length l <= n -> length (b64encode l) = 4 * ((length l + 2) / 3).
Proof.
  induction n as [|n IH]; intros l Hl.
  - destruct l; [reflexivity | cbn in Hl; lia].
  - destruct l as [|a [|b [|c l]]]; try reflexivity.
    cbn [b64encode length]. rewrite IH by (cbn [length] in Hl; lia).
    replace (S (S (S (length l))) + 2) with ((length l + 2) + 1 * 3) by lia.
    rewrite Nat.div_add by lia. lia.
Qed.

Lemma length_b64encode (l : list byte) :
  length (b64encode l) = 4 * ((length l + 2) / 3).
Proof. now apply (@length_b64encode_bounded (length l)). Qed.

Lemma length_string_of_list_byte (l : list byte) :
  String.length (string_of_list_byte l) = length l.
Proof.
  induction l as [|b l IH]; [reflexivity|].
  cbn [string_of_list_byte map string_of_list_ascii String.length length].
  f_equal. exact IH.
Qed.

Section WithAES.

Variable aes_encrypt_block : list byte -> list byte -> list byte.

Lemma ecb_encrypt_whole (key data : list byte) :
  length data mod 16 = 0 ->
  ecb_encrypt aes_encrypt_block key data
  = Ok (concat (map (aes_encrypt_block key) (blocks 16 data))).
Proof. intro H. unfold ecb_encrypt. now rewrite H. Qed.

(** The first layer always succeeds; the second one fails exactly on the
    key. *)
Lemma encrypt_password_cases (password random_key : string) :
  encrypt_password aes_encrypt_block password random_key
  = (cipher2 <- AES_new (list_byte_of_string random_key) ;;
     Ok (string_of_list_byte
           (b64encode
              (concat
                 (map (aes_encrypt_block cipher2)
                    (blocks 16
                       (pad (concat
                               (map (aes_encrypt_block V380_KEY)
                                  (blocks 16 (pad (list_byte_of_string password) 16))))
                          16))))))).
Proof.
  unfold encrypt_password. cbv zeta.
  change (AES_new V380_KEY) with (Ok (A := list byte) V380_KEY). cbn [bind].
  rewrite ecb_encrypt_whole by apply pad_whole. cbn [bind].
  destruct (AES_new (list_byte_of_string random_key)) as [cipher2| |];
    cbn [bind]; try reflexivity.
  rewrite ecb_encrypt_whole by apply pad_whole. reflexivity.
Qed.

End WithAES.

(** X15.  [encrypt_password] succeeds exactly when the random key encodes
    to 16, 24 or 32 bytes, whatever the password, and raises [ValueError]
    otherwise: nothing else in it can fail, since both layers are padded to
    whole blocks. *)
Theorem encrypt_password_key_length
    (aes_encrypt_block : list byte -> list byte -> list byte)
    (password random_key : string) :
  let n := length (list_byte_of_string random_key) in
  ((exists encrypted,
      encrypt_password aes_encrypt_block password random_key = Ok encrypted)
   <-> (n = 16 \/ n = 24 \/ n = 32))
  /\ (encrypt_password aes_encrypt_block password random_key = Raise ValueError
      <-> ~ (n = 16 \/ n = 24 \/ n = 32)).
Proof.
  intro n. rewrite encrypt_password_cases. unfold AES_new. cbv zeta. fold n.
  destruct (Nat.eqb_spec n 16) as [E16|E16];
    [|destruct (Nat.eqb_spec n 24) as [E24|E24];
      [|destruct (Nat.eqb_spec n 32) as [E32|E32]]];
    cbn [orb bind].
  1-3: split; split; try discriminate; try (intros; eexists; reflexivity);
       try tauto; try (intro H; exfalso; apply H; tauto).
  split; split; try reflexivity; try tauto.
  intros [e E]. discriminate.
Qed.

(** X16.  The size of the encrypted password: a password of [n] bytes
    gives [16 * (n / 16 + 2)] cipher bytes (each layer adds a padding block
    or completes one), written as [4 * ceil(bytes / 3)] base64 characters;
    44 characters for every password shorter than 16 bytes. *)
Theorem encrypt_password_length
    (aes_encrypt_block : list byte -> list byte -> list byte)
    (aes_block_length :
       forall key block,
         length block = 16 -> length (aes_encrypt_block key block) = 16)
    (password random_key encrypted : string) :
  encrypt_password aes_encrypt_block password random_key = Ok encrypted ->
  String.length encrypted
  = 4 * ((16 * (String.length password / 16 + 2) + 2) / 3)
  /\ (String.length password < 16 -> String.length encrypted = 44).
Proof.
  intro E. rewrite encrypt_password_cases in E.
  destruct (AES_new (list_byte_of_string random_key)) as [cipher2| |];
    cbn [bind] in E; try discriminate.
  injection E as <-.
  assert (Enc : forall key data,
             length data mod 16 = 0 ->
             length (concat (map (aes_encrypt_block key) (blocks 16 data)))
             = length data).
  { intros key data Hm.
    destruct (@PasswordFacts.blocks_fuel_whole (length data) data (le_n _) Hm)
      as [HF HC].
    fold (blocks 16 data) in HF, HC.
    rewrite PasswordFacts.length_concat_blocks.
    - rewrite length_map.
      rewrite <- HC at 2. now rewrite PasswordFacts.length_concat_blocks.
    - apply Forall_map. eapply Forall_impl; [|exact HF].
      intros b Hb. now apply aes_block_length. }
  assert (L : String.length
                (string_of_list_byte
                   (b64encode
                      (concat
                         (map (aes_encrypt_block cipher2)
                            (blocks 16
                               (pad (concat
                                       (map (aes_encrypt_block V380_KEY)
                                          (blocks 16
                                             (pad (list_byte_of_string password) 16))))
                                  16))))))
              = 4 * ((16 * (String.length password / 16 + 2) + 2) / 3)).
  { rewrite length_string_of_list_byte, length_b64encode.
    rewrite Enc by apply pad_whole. rewrite length_pad.
    rewrite Enc by apply pad_whole. rewrite length_pad.
    rewrite PasswordFacts.length_list_byte_of_string.
    replace (16 * (String.length password / 16 + 1) / 16)
      with (String.length password / 16 + 1)
      by (rewrite Nat.mul_comm, Nat.div_mul; lia).
    do 3 f_equal. lia. }
  split; [exact L|].
  intro Hs. rewrite L. rewrite (Nat.div_small (String.length password)) by assumption.
  reflexivity.
Qed.

Lemma encrypt_password_length_witness :
  String.length
    (match encrypt_password demo_block "secret" "abcdefghijklmnop" with
     | Ok encrypted => encrypted
     | _ => EmptyString
     end) = 44.
Proof.
  destruct (encrypt_password demo_block "secret" "abcdefghijklmnop")
    as [encrypted| |] eqn:E; try discriminate E.
  apply (proj2 (@encrypt_password_length demo_block
                  (fun key block H => eq_trans (length_rev block) H)
                  "secret" "abcdefghijklmnop" encrypted E)).
  cbn. lia.
Defined.

End CipherFacts.

(** ** client.py: requests and the checks on the responses *)

Module ClientFacts.

Import Crypto Client Spec.

Lemma pack_unsigned_raises (be : bool) (width : nat) (z : Z) :
  ~ (0 <= z < 256 ^ Z.of_nat width)%Z ->
  pack_unsigned be width z = Raise StructError.
Proof.
  intro H. unfold pack_unsigned.
  destruct (Z.leb_spec 0 z); destruct (Z.ltb_spec z (256 ^ Z.of_nat width));
    cbn [andb]; (lia || reflexivity).
Qed.

Lemma le_bytes_le_value (s : list byte) : le_bytes (length s) (le_value s) = s.
Proof.
  induction s as [|b s IH]; [reflexivity|].
  cbn [length le_bytes le_value].
  pose proof (int_of_byte_range b) as Hb.
  f_equal.
  - unfold byte_of_int.
    replace ((int_of_byte b + 256 * le_value s) mod 256)%Z with (int_of_byte b).
    + fold (byte_of_int (int_of_byte b)).
      rewrite <- (byte_of_int_of_byte b) at 2. unfold byte_of_int.
      now rewrite Z.mod_small by lia.
    + Z.to_euclidean_division_equations; lia.
  - replace ((int_of_byte b + 256 * le_value s) / 256)%Z with (le_value s); [exact IH|].
    Z.to_euclidean_division_equations; lia.
Qed.

(** A little-endian field has a given value exactly when it is the bytes of
    that value. *)
Lemma le_value_bytes (s : list byte) (v : Z) :
  (0 <= v < 256 ^ Z.of_nat (length s))%Z ->
  le_value s = v <-> s = le_bytes (length s) v.
Proof.
  intro Hv. split.
  - intros <-. symmetry. apply le_bytes_le_value.
  - intro E. rewrite E, le_value_le_bytes. now apply Z.mod_small.
Qed.

(** *** The domain name *)

Lemma digits_fuel_length (fuel : nat) :
  forall n k,
    (n < 10 ^ N.of_nat k)%N -> 1 <= k -> length (digits_fuel fuel n) <= k.
Proof.
  induction fuel as [|f IH]; intros n k Hn Hk; [cbn; lia|].
  cbn [digits_fuel].
  destruct (N.ltb_spec n 10) as [H|H]; [cbn [length]; lia|].
  rewrite length_app. cbn [length].
  destruct k as [|[|k]]; [lia | cbn in Hn; lia |].
  enough (length (digits_fuel f (n / 10)) <= S k) by lia.
  apply IH; [|lia].
  apply N.Div0.div_lt_upper_bound.
  replace (N.of_nat (S (S k))) with (N.succ (N.of_nat (S k))) in Hn by lia.
  now rewrite N.pow_succ_r' in Hn.
Qed.

(** The fuel of [str_of_int] is enough: the digits read back as the
    number. *)
Lemma digits_fuel_value (fuel : nat) :
  forall n,
    (n < 2 ^ N.of_nat fuel)%N ->
    digits_value (digits_fuel (S fuel) n) = n.
Proof.
  assert (D : forall d, (d < 10)%N ->
                Byte.to_N (byte_of_int (48 + Z.of_N d)) = (48 + d)%N).
  { intros d Hd. pose proof (int_of_byte_of_int (48 + Z.of_N d)) as E.
    unfold int_of_byte in E. rewrite Z.mod_small in E by lia. lia. }
  induction fuel as [|f IH]; intros n Hn.
  - cbn [digits_fuel]. destruct (N.ltb_spec n 10); [|cbn in Hn; lia].
    unfold digits_value. cbn [fold_left]. rewrite D by assumption. lia.
  - change (digits_fuel (S (S f)) n)
      with (if (n <? 10)%N then [byte_of_int (48 + Z.of_N n)]
            else digits_fuel (S f) (n / 10) ++ [byte_of_int (48 + Z.of_N (n mod 10))]).
    destruct (N.ltb_spec n 10) as [H|H].
    + unfold digits_value. cbn [fold_left]. rewrite D by assumption. lia.
    + unfold digits_value. rewrite fold_left_app. cbn [fold_left].
      fold (digits_value (digits_fuel (S f) (n / 10))).
      rewrite IH.
      * rewrite D by (apply N.mod_lt; lia).
        pose proof (N.div_mod n 10 ltac:(lia)) as Hdm.
        rewrite (N.add_comm 48), N.add_sub. lia.
      * replace (N.of_nat (S f)) with (N.succ (N.of_nat f)) in Hn by lia.
        rewrite N.pow_succ_r' in Hn.
        apply N.Div0.div_lt_upper_bound. lia.
Qed.

Lemma str_of_int_value (z : Z) :
  (0 <= z)%Z -> Z.of_N (digits_value (str_of_int z)) = z.
Proof.
  intro H. unfold str_of_int. destruct (Z.ltb_spec z 0); [lia|].
  rewrite digits_fuel_value.
  - lia.
  - rewrite N2Nat.id. apply N.size_gt.
Qed.

Lemma length_domain (self : V380Client) :
  (0 <= device_id self < 2 ^ 32)%Z -> length (domain self) <= 20.
Proof.
  intro H. unfold domain, str_of_int.
  destruct (Z.ltb_spec (device_id self) 0); [lia|].
  rewrite length_app.
  change (length (list_byte_of_string ".nvdvr.net")) with 10.
  enough (length (digits_fuel (S (N.to_nat (N.size (Z.to_N (device_id self)))))
                    (Z.to_N (device_id self))) <= 10) by lia.
  apply digits_fuel_length; [|lia].
  change (10 ^ N.of_nat 10)%N with 10000000000%N. lia.
Qed.

Lemma ljust_short (b : list byte) (width : nat) :
  width <= length b -> ljust b width = b.
Proof.
  intro H. unfold ljust. replace (width - length b) with 0 by lia.
  apply app_nil_r.
Qed.

Lemma length_ljust (b : list byte) (width : nat) :
  length b <= width -> length (ljust b width) = width.
Proof. intro H. unfold ljust. rewrite length_app, repeat_length. lia. Qed.

(** *** [register] *)

Lemma register_packet_explicit (self : V380Client) :
  (0 <= device_id self < 2 ^ 32)%Z ->
  (0 <= stream_port self < 2 ^ 32)%Z ->
  register_packet self
  = Ok ((([xac; x00; x00; x00; xf4; x03; x00; x00] ++ ljust (domain self) 48)
           ++ le_bytes 4 (stream_port self))
          ++ le_bytes 4 (device_id self)).
Proof.
  intros Hd Hp. pose proof (length_domain self Hd) as Hl.
  unfold register_packet. cbv zeta.
  rewrite !pack_unsigned_ok by (cbn; lia). cbn [bind].
  assert (L48 : length (ljust (domain self) 48) = 48) by (apply length_ljust; lia).
  rewrite ljust_short
    by (rewrite !length_app, L48, !length_le_bytes; cbn [length]; lia).
  reflexivity.
Qed.



Lemma register_reply_accepts (response : list byte) :
  exists b,
    register_reply response = Ok b
    /\ (b = true <->
        8 <= length response /\ slice response 4 8 = [x01; x00; x00; x00]).
Proof.
  unfold register_reply.
  destruct (Nat.leb_spec 8 (length response)) as [H|H].
  - assert (L : length (slice response 4 8) = 4) by (rewrite length_slice; lia).
    unfold unpack_I. rewrite L. cbn [Nat.eqb bind].
    assert (V : le_value (slice response 4 8) = 1%Z
                <-> slice response 4 8 = [x01; x00; x00; x00]).
    { rewrite le_value_bytes by (rewrite L; cbn; lia). rewrite L. reflexivity. }
    destruct (Z.eqb_spec (le_value (slice response 4 8)) 1) as [E|E];
      eexists; (split; [reflexivity|]).
    + split; [intros _; split; [exact H | now apply V] | reflexivity].
    + split; [discriminate | intros [_ E']; apply V in E'; contradiction].
  - exists false. split; [reflexivity|]. split; [discriminate | lia].
Qed.

(** X18.  [register] returns [True] exactly when the device id and the
    stream port fit 32 bits, the response has at least 8 bytes and its bytes
    4..8 are 01 00 00 00; every other byte of the response is ignored.  When
    the device id or the port does not fit, nothing is sent. *)
Theorem register_accepts (self : V380Client) (response : list byte) :
  (snd (register self response) = true
   <-> (0 <= device_id self < 2 ^ 32)%Z /\ (0 <= stream_port self < 2 ^ 32)%Z
       /\ 8 <= length response /\ slice response 4 8 = [x01; x00; x00; x00])
  /\ (fst (register self response) = None
      <-> ~ ((0 <= device_id self < 2 ^ 32)%Z /\ (0 <= stream_port self < 2 ^ 32)%Z)).
Proof.
  unfold register.
  assert (D : ((0 <= device_id self < 2 ^ 32)%Z /\ (0 <= stream_port self < 2 ^ 32)%Z)
              \/ ~ ((0 <= device_id self < 2 ^ 32)%Z
                    /\ (0 <= stream_port self < 2 ^ 32)%Z)) by lia.
  destruct D as [[Hd Hp]|Hout].
  - rewrite register_packet_explicit by assumption.
    destruct (register_reply_accepts response) as (b & -> & Hb).
    cbn [fst snd]. split; split; try tauto; try discriminate.
  - assert (E : exists e, register_packet self = Raise e).
    { unfold register_packet. cbv zeta.
      rewrite !(@pack_unsigned_ok false 4 172), (@pack_unsigned_ok false 4 1012)
        by (cbn; lia).
      cbn [bind].
      assert (Dp : (0 <= stream_port self < 2 ^ 32)%Z
                   \/ ~ (0 <= stream_port self < 2 ^ 32)%Z) by lia.
      destruct Dp as [Hp|Hp].
      - rewrite (@pack_unsigned_ok false 4 (stream_port self)) by (cbn; lia).
        cbn [bind]. rewrite pack_unsigned_raises by (cbn; lia). cbn [bind]. eauto.
      - rewrite pack_unsigned_raises by (cbn; lia). cbn [bind]. eauto. }
    destruct E as [e ->]. cbn [fst snd].
    split; split; try tauto; try discriminate.
Qed.

(** *** [set_handle] *)

(** X19.  [set_handle] fails only with [struct.error], exactly for the
    handles outside [0, 2^32): the derived key always has 16 bytes, so
    [AES.new] never raises [ValueError] on it.  Otherwise the client holds
    the handle, the key [handle (LE32) ++ 5C 79 14 2C 46 23 81 61 ++
    F0 0D 80 82] and a cipher made from it, and keeps its session. *)
Theorem set_handle_result (self : V380Client) (h : Z) :
  set_handle self h
  = if ((0 <=? h) && (h <? 2 ^ 32))%Z
    then
      let key := le_bytes 4 h ++ [x5c; x79; x14; x2c; x46; x23; x81; x61]
                   ++ [xf0; x0d; x80; x82] in
      Ok {| device_id := device_id self; stream_port := stream_port self;
            session := session self; handle := Some h;
            aes_key := Some key; cipher := Some key |}
    else Raise StructError.
Proof.
  unfold set_handle, generate_aes_key.
  destruct (Z.leb_spec 0 h) as [H0|H0]; destruct (Z.ltb_spec h (2 ^ 32)) as [H1|H1];
    cbn [andb]; try (rewrite pack_unsigned_raises by (cbn; lia); reflexivity).
  rewrite pack_unsigned_ok by (cbn; lia). cbn [bind].
  change (pack_unsigned false 8 MAGIC_1)
    with (Ok (A := list byte) [x5c; x79; x14; x2c; x46; x23; x81; x61]).
  change (pack_unsigned false 4 MAGIC_2)
    with (Ok (A := list byte) [xf0; x0d; x80; x82]).
  cbn [bind].
  assert (K : slice_assign
                (slice_assign (firstn 16 (ljust (le_bytes 4 h) 16)) 4 12
                   [x5c; x79; x14; x2c; x46; x23; x81; x61]) 12 16
                [xf0; x0d; x80; x82]
              = le_bytes 4 h ++ [x5c; x79; x14; x2c; x46; x23; x81; x61]
                  ++ [xf0; x0d; x80; x82]) by reflexivity.
  rewrite K. unfold AES_new. cbv zeta.
  rewrite !length_app, length_le_bytes. reflexivity.
Qed.

(** *** [_send_json_rpc] *)

(** X20.  The frame around a JSON request: [struct.error] exactly when the
    request has 65536 bytes or more; otherwise the packet is the request
    after 8 bytes, which start with 00 03 00 FE and carry the length of the
    request as a little-endian u16 in bytes 4..6. *)
Theorem json_rpc_packet_frame (json_bytes : list byte) :
  (json_rpc_packet json_bytes = Raise StructError <-> 256 * 256 <= length json_bytes)
  /\ forall packet,
       json_rpc_packet json_bytes = Ok packet ->
       length packet = 8 + length json_bytes
       /\ slice packet 0 4 = [x00; x03; x00; xfe]
       /\ unpack_H (slice packet 4 6) = Ok (length json_bytes)
       /\ slice packet 6 8 = [x00; x00]
       /\ skipn 8 packet = json_bytes.
Proof.
  unfold json_rpc_packet. cbv zeta.
  destruct (Nat.lt_ge_cases (length json_bytes) (256 * 256)) as [H|H].
  - rewrite pack_unsigned_ok by (cbn; lia). cbn [bind].
    split; [split; [discriminate | lia]|].
    intros packet [= <-].
    split; [cbn [length app]; lia|]. split; [reflexivity|].
    split; [|split; reflexivity].
    cbn [le_bytes app].
    change (unpack_H
              [byte_of_int (Z.of_nat (length json_bytes));
               byte_of_int (Z.of_nat (length json_bytes) / 256)]
            = Ok (length json_bytes)).
    cbn [unpack_H]. f_equal.
    pose proof (int_of_byte_of_int (Z.of_nat (length json_bytes))) as E0.
    pose proof (int_of_byte_of_int (Z.of_nat (length json_bytes) / 256)) as E1.
    unfold int_of_byte in E0, E1. rewrite !Byte.to_nat_via_N.
    Z.to_euclidean_division_equations; lia.
  - rewrite pack_unsigned_raises by (cbn; lia). cbn [bind].
    split; [split; [lia | reflexivity]|]. discriminate.
Qed.

Lemma find_open_first (text : list N) :
  forall i start,
    find_open text i = Some start ->
    exists pre rest,
      text = pre ++ open_brace :: rest
      /\ ~ In open_brace pre
      /\ start = i + length pre.
Proof.
  induction text as [|c text IH]; intros i start E; [discriminate|].
  cbn [find_open] in E.
  destruct (N.eqb_spec c open_brace) as [->|Hc].
  - injection E as <-. exists [], text. cbn [app length In]. repeat split; [tauto | lia].
  - destruct (IH _ _ E) as (pre & rest & -> & Hpre & ->).
    exists (c :: pre), rest. cbn [app length In]. repeat split; [|lia].
    intros [H|H]; [now apply Hc | now apply Hpre].
Qed.

Lemma find_open_none (text : list N) :
  forall i, find_open text i = None -> ~ In open_brace text.
Proof.
  induction text as [|c text IH]; intros i E; [tauto|].
  cbn [find_open] in E.
  destruct (N.eqb_spec c open_brace) as [->|Hc]; [discriminate|].
  intros [H|H]; [now apply Hc | exact (IH _ E H)].
Qed.

(** The scan stops at the first closing brace that brings the depth back
    to 0; up to there the depth stays positive. *)
Lemma match_brace_first (rest : list N) :
  forall i depth j,
    (1 <= depth)%Z ->
    match_brace rest i depth = Some j ->
    exists n,
      j = i + n /\ n < length rest
      /\ nth n rest 0%N = close_brace
      /\ (depth + balance (firstn (S n) rest) = 0)%Z
      /\ forall k, k <= n -> (0 < depth + balance (firstn k rest))%Z.
Proof.
  induction rest as [|c rest IH]; intros i depth j Hd E; [discriminate|].
  cbn [match_brace] in E.
  assert (P0 : forall k, k <= 0 -> (0 < depth + balance (firstn k (c :: rest)))%Z).
  { intros k Hk. replace k with 0 by lia. cbn. lia. }
  destruct (N.eqb_spec c open_brace) as [Ho|Ho].
  - apply IH in E; [|lia]. destruct E as (n & -> & Hn & Hc & Hb & Hp).
    exists (S n). cbn [length nth]. repeat split; try lia; try assumption.
    + change (firstn (S (S n)) (c :: rest)) with (c :: firstn (S n) rest).
      cbn [balance]. destruct (N.eqb_spec c open_brace); [lia | contradiction].
    + intros [|k] Hk; [apply P0; lia|].
      cbn [firstn balance]. destruct (N.eqb_spec c open_brace); [|contradiction].
      specialize (Hp k ltac:(lia)). lia.
  - destruct (N.eqb_spec c close_brace) as [Hc|Hc].
    + destruct (Z.eqb_spec (depth - 1) 0) as [Hz|Hz].
      * injection E as <-. exists 0. cbn [length nth].
        repeat split; try lia; try assumption.
        cbn [firstn balance].
        destruct (N.eqb_spec c open_brace); [contradiction|].
        destruct (N.eqb_spec c close_brace); [lia | contradiction].
      * apply IH in E; [|lia]. destruct E as (n & -> & Hn & Hc' & Hb & Hp).
        exists (S n). cbn [length nth]. repeat split; try lia; try assumption.
        -- change (firstn (S (S n)) (c :: rest)) with (c :: firstn (S n) rest).
           cbn [balance].
           destruct (N.eqb_spec c open_brace); [contradiction|].
           destruct (N.eqb_spec c close_brace); [lia | contradiction].
        -- intros [|k] Hk; [apply P0; lia|].
           cbn [firstn balance].
           destruct (N.eqb_spec c open_brace); [contradiction|].
           destruct (N.eqb_spec c close_brace); [|contradiction].
           specialize (Hp k ltac:(lia)). lia.
    + destruct (IH _ _ _ Hd E) as (n & -> & Hn & Hc' & Hb & Hp).
      exists (S n). cbn [length nth]. repeat split; try lia; try assumption.
      * change (firstn (S (S n)) (c :: rest)) with (c :: firstn (S n) rest).
        cbn [balance].
        destruct (N.eqb_spec c open_brace); [contradiction|].
        destruct (N.eqb_spec c close_brace); [contradiction | lia].
      * intros [|k] Hk; [apply P0; lia|].
        cbn [firstn balance].
        destruct (N.eqb_spec c open_brace); [contradiction|].
        destruct (N.eqb_spec c close_brace); [contradiction|].
        specialize (Hp k ltac:(lia)). lia.
Qed.

Lemma last_firstn (rest : list N) :
  forall n, n < length rest -> last (firstn (S n) rest) 0%N = nth n rest 0%N.
Proof.
  induction rest as [|c rest IH]; intros n Hn; [cbn in Hn; lia|].
  destruct n as [|n]; [reflexivity|].
  cbn [length] in Hn.
  change (firstn (S (S n)) (c :: rest)) with (c :: firstn (S n) rest).
  cbn [nth]. rewrite <- IH by lia.
  destruct rest; [cbn in Hn; lia | reflexivity].
Qed.

(** X21.  The text that [_send_json_rpc] hands to [json.loads] starts at
    the first opening brace of the response and is the shortest piece from
    there whose braces balance: it ends with a closing brace, and every
    shorter non-empty piece has more opening than closing braces.  Braces
    are counted wherever they stand, inside JSON strings too. *)
Theorem json_text_balanced (text s : list N) :
  json_text text = Some s ->
  exists pre post,
    text = pre ++ s ++ post
    /\ ~ In open_brace pre
    /\ hd_error s = Some open_brace
    /\ last s 0%N = close_brace
    /\ balance s = 0%Z
    /\ forall k, 0 < k < length s -> (0 < balance (firstn k s))%Z.
Proof.
  unfold json_text. intro E.
  destruct (find_open text 0) as [start|] eqn:Ef; [|discriminate].
  destruct (find_open_first _ _ Ef) as (pre & rest & -> & Hpre & ->).
  cbn [Nat.add] in E.
  rewrite skipn_app, skipn_all, Nat.sub_diag in E. cbn [skipn app match_brace] in E.
  change (open_brace =? open_brace)%N with true in E. cbv iota in E.
  destruct (match_brace rest 1 (0 + 1)) as [j|] eqn:Em; [|discriminate].
  injection E as <-.
  apply match_brace_first in Em; [|lia].
  destruct Em as (n & -> & Hn & Hc & Hb & Hp).
  assert (S1 : slice (pre ++ open_brace :: rest) (length pre) (length pre + (1 + n) + 1)
               = open_brace :: firstn (S n) rest).
  { rewrite <- (Nat.add_0_r (length pre)) at 1. rewrite <- Nat.add_assoc.
    rewrite slice_app_skip, slice_0.
    replace (1 + n + 1) with (S (S n)) by lia. reflexivity. }
  rewrite S1.
  exists pre, (skipn (S n) rest).
  split; [cbn [app]; now rewrite firstn_skipn|].
  split; [exact Hpre|]. split; [reflexivity|]. split; [|split].
  - rewrite <- Hc, <- (last_firstn rest Hn).
    destruct rest; [cbn in Hn; lia | reflexivity].
  - cbn [balance]. change (open_brace =? open_brace)%N with true. cbv iota. lia.
  - intros k Hk. cbn [length] in Hk. rewrite length_firstn in Hk.
    destruct k as [|k]; [lia|].
    change (firstn (S k) (open_brace :: firstn (S n) rest))
      with (open_brace :: firstn k (firstn (S n) rest)).
    cbn [balance]. change (open_brace =? open_brace)%N with true. cbv iota.
    rewrite firstn_firstn.
    replace (Nat.min k (S n)) with k by lia.
    specialize (Hp k ltac:(lia)). lia.
Qed.

Lemma json_text_balanced_witness :
  exists pre post,
    [0; 3; 123; 34; 97; 34; 58; 123; 125; 125; 10]%N
    = pre ++ [123; 34; 97; 34; 58; 123; 125; 125]%N ++ post
    /\ ~ In open_brace pre.
Proof.
  destruct (@json_text_balanced
              [0; 3; 123; 34; 97; 34; 58; 123; 125; 125; 10]%N
              [123; 34; 97; 34; 58; 123; 125; 125]%N eq_refl)
    as (pre & post & H1 & H2 & _).
  exists pre, post. split; assumption.
Defined.

(** *** [create_stream_socket] *)

Lemma stream_request_explicit (self : V380Client) (h s : Z) :
  handle self = Some h ->
  session self = Some s ->
  (0 <= device_id self < 2 ^ 32)%Z ->
  (0 <= h < 2 ^ 32)%Z ->
  (0 <= s < 2 ^ 32)%Z ->
  let raw :=
    (([x2d; x01; x00; x00; xea; x03; x00; x00] ++ ljust (domain self) 48)
       ++ [x00; x00; xba; x13; x00; x00])
      ++ le_bytes 4 (device_id self) ++ le_bytes 4 h ++ le_bytes 4 s in
  stream_request self = Ok (ljust raw 256) /\ length raw = 74.
Proof.
  intros Eh Es Hd Hh Hs raw. pose proof (length_domain self Hd) as Hl.
  unfold stream_request. rewrite Eh, Es. cbv zeta.
  rewrite !pack_unsigned_ok by (cbn; lia). cbn [bind].
  split; [reflexivity|].
  unfold raw. rewrite !length_app, length_ljust, !length_le_bytes by lia.
  reflexivity.
Qed.

(** X22.  For a logged-in client whose device id, handle and session fit
    32 bits the device request is exactly 256 bytes: 2D 01 00 00 and
    EA 03 00 00, the domain name padded with zeros to 48 bytes, the three
    u16 00 00, BA 13, 00 00, then device id, handle and session as
    little-endian u32, then 182 zero bytes. *)
Theorem stream_request_layout (self : V380Client) (h s : Z) :
  handle self = Some h ->
  session self = Some s ->
  (0 <= device_id self < 2 ^ 32)%Z ->
  (0 <= h < 2 ^ 32)%Z ->
  (0 <= s < 2 ^ 32)%Z ->
  exists packet,
    stream_request self = Ok packet
    /\ length packet = 256
    /\ packet
       = [x2d; x01; x00; x00; xea; x03; x00; x00]
           ++ (domain self ++ repeat x00 (48 - length (domain self)))
           ++ [x00; x00; xba; x13; x00; x00]
           ++ le_bytes 4 (device_id self) ++ le_bytes 4 h ++ le_bytes 4 s
           ++ repeat x00 182.
Proof.
  intros Eh Es Hd Hh Hs.
  destruct (@stream_request_explicit self h s Eh Es Hd Hh Hs) as [E L].
  eexists. split; [exact E|].
  split; [apply length_ljust; lia|].
  unfold ljust at 1. rewrite L. change (256 - 74) with 182.
  unfold ljust. now rewrite <- !app_assoc.
Qed.

Lemma stream_request_layout_witness :
  exists packet,
    stream_request {| device_id := 12345678; stream_port := 8800;
                      session := Some 77%Z; handle := Some 222%Z;
                      aes_key := None; cipher := None |} = Ok packet
    /\ length packet = 256.
Proof.
  destruct (@stream_request_layout
              {| device_id := 12345678; stream_port := 8800;
                 session := Some 77%Z; handle := Some 222%Z;
                 aes_key := None; cipher := None |} 222%Z 77%Z eq_refl eq_refl)
    as (packet & H1 & H2 & _); try (cbn; lia).
  exists packet. split; assumption.
Defined.

Lemma stream_reply_accepts (response : list byte) :
  exists b,
    stream_reply response = Ok b
    /\ (b = true <->
        12 <= length response
        /\ slice response 0 2 = [x91; x01]
        /\ slice response 8 12 = [x04; x00; x00; x00]).
Proof.
  unfold stream_reply.
  destruct (Nat.ltb_spec (length response) 12) as [H|H]; cbn [orb].
  { exists false. split; [reflexivity|]. split; [discriminate | lia]. }
  destruct (Rtsp.bytes_eqb (slice response 0 2) [x91; x01]) eqn:Eb; cbn [negb].
  2:{ exists false. split; [reflexivity|]. split; [discriminate|].
      intros (_ & E & _). apply AnnexBFacts.bytes_eqb_eq in E. congruence. }
  apply AnnexBFacts.bytes_eqb_eq in Eb.
  assert (L : length (slice response 8 12) = 4) by (rewrite length_slice; lia).
  unfold unpack_i. rewrite L. cbn [Nat.eqb bind].
  assert (V : le_value (slice response 8 12) = 4%Z
              <-> slice response 8 12 = [x04; x00; x00; x00]).
  { rewrite le_value_bytes by (rewrite L; cbn; lia). rewrite L. reflexivity. }
  assert (R : (0 <= le_value (slice response 8 12))%Z).
  { rewrite <- (le_bytes_le_value (slice response 8 12)), le_value_le_bytes.
    apply Z.mod_pos_bound. rewrite L. cbn. lia. }
  set (v := le_value (slice response 8 12)) in *.
  destruct (Z.ltb_spec v (2 ^ 31)) as [Hv|Hv].
  - destruct (Z.eqb_spec v 4) as [E|E]; cbn [negb];
      eexists; (split; [reflexivity|]).
    + split; [intros _; repeat split; [exact H | exact Eb | now apply V] | reflexivity].
    + split; [discriminate | intros (_ & _ & E'); apply V in E'; contradiction].
  - assert (R32 : (v < 2 ^ 32)%Z).
    { unfold v. rewrite <- (le_bytes_le_value (slice response 8 12)), le_value_le_bytes.
      rewrite L. apply Z.mod_pos_bound. cbn. lia. }
    destruct (Z.eqb_spec (v - 2 ^ 32) 4) as [E|E]; [lia|]. cbn [negb].
    exists false. split; [reflexivity|]. split; [discriminate|].
    intros (_ & _ & E'). apply V in E'. lia.
Qed.

(** X23.  [create_stream_socket] returns a socket exactly when the client
    is logged in, its device id, handle and session fit 32 bits, and the
    response has at least 12 bytes, starts with 91 01 and has 04 00 00 00 in
    bytes 8..12 (a status of 4; the other bytes are ignored).  It has then
    sent the device request, the 256-byte init packet and the 16-byte
    keepalive, in this order; a client that is not logged in sends
    nothing. *)
Theorem create_stream_socket_accepts (self : V380Client) (response : list byte) :
  (snd (create_stream_socket self response) = true
   <-> (exists h s,
          handle self = Some h /\ session self = Some s
          /\ (0 <= device_id self < 2 ^ 32)%Z
          /\ (0 <= h < 2 ^ 32)%Z /\ (0 <= s < 2 ^ 32)%Z)
       /\ 12 <= length response
       /\ slice response 0 2 = [x91; x01]
       /\ slice response 8 12 = [x04; x00; x00; x00])
  /\ (snd (create_stream_socket self response) = true ->
      exists packet,
        stream_request self = Ok packet
        /\ fst (create_stream_socket self response) = [packet; init_packet; keepalive]
        /\ length packet = 256 /\ length init_packet = 256 /\ length keepalive = 16)
  /\ (is_connected self = false -> fst (create_stream_socket self response) = []).
Proof.
  unfold create_stream_socket, is_connected.
  destruct (handle self) as [h|] eqn:Eh; destruct (session self) as [s|] eqn:Es;
    cbn [negb fst snd];
    try (split; [split; [discriminate | intros [(h' & s' & E1 & E2 & _) _]; congruence]|];
         split; [discriminate | reflexivity]).
  assert (D : ((0 <= device_id self < 2 ^ 32)%Z
               /\ (0 <= h < 2 ^ 32)%Z /\ (0 <= s < 2 ^ 32)%Z)
              \/ ~ ((0 <= device_id self < 2 ^ 32)%Z
                    /\ (0 <= h < 2 ^ 32)%Z /\ (0 <= s < 2 ^ 32)%Z)) by lia.
  destruct D as [(Hd & Hh & Hs)|Hout].
  - destruct (@stream_request_explicit self h s Eh Es Hd Hh Hs) as [Ep L74].
    rewrite Ep.
    match type of Ep with _ = Ok ?x => set (packet := x) in * end.
    assert (Lp : length packet = 256) by (apply length_ljust; lia).
    destruct (stream_reply_accepts response) as (b & -> & Hb).
    destruct b; cbn [fst snd].
    + split; [split; [intros _; split; [eauto 10 | now apply Hb] | reflexivity]|].
      split; [|discriminate].
      intros _. exists packet. repeat split; (reflexivity || assumption).
    + split; [split; [discriminate | intros [_ H]; apply Hb in H; discriminate]|].
      split; discriminate.
  - assert (E : exists e, stream_request self = Raise e).
    { unfold stream_request. rewrite Eh, Es. cbv zeta.
      rewrite (@pack_unsigned_ok false 4 301), (@pack_unsigned_ok false 4 1002),
        (@pack_unsigned_ok false 2 0), (@pack_unsigned_ok false 2 5050)
        by (cbn; lia).
      cbn [bind].
      assert (Dd : (0 <= device_id self < 2 ^ 32)%Z
                   \/ ~ (0 <= device_id self < 2 ^ 32)%Z) by lia.
      destruct Dd as [Hd|Hd];
        [rewrite (@pack_unsigned_ok false 4 (device_id self)) by (cbn; lia)
        |rewrite pack_unsigned_raises by (cbn; lia); cbn [bind]; eauto].
      cbn [bind].
      assert (Dh : (0 <= h < 2 ^ 32)%Z \/ ~ (0 <= h < 2 ^ 32)%Z) by lia.
      destruct Dh as [Hh|Hh];
        [rewrite (@pack_unsigned_ok false 4 h) by (cbn; lia)
        |rewrite pack_unsigned_raises by (cbn; lia); cbn [bind]; eauto].
      cbn [bind].
      rewrite pack_unsigned_raises by (cbn; lia). cbn [bind]. eauto. }
    destruct E as [e ->]. cbn [fst snd].
    split; [split; [discriminate|]|split; discriminate].
    intros [(h' & s' & E1 & E2 & H) _].
    injection E1 as <-. injection E2 as <-. tauto.
Qed.

End ClientFacts.

(** ** stream.py: the loop of [record] *)

Module RecordFacts.

Import Crypto Stream Spec.

Lemma norm_norm (r : recorder) : norm (norm r) = norm r.
Proof. unfold norm. cbn. now destruct (current_frame_start r). Qed.

Lemma norm_fields (r r' : recorder) :
  norm r = norm r' ->
  frame_chunks r = frame_chunks r'
  /\ current_total r = current_total r'
  /\ current_is_iframe r = current_is_iframe r'
  /\ (current_frame_start r = None <-> current_frame_start r' = None).
Proof.
  intro E.
  pose proof (f_equal frame_chunks E) as E1.
  pose proof (f_equal current_total E) as E2.
  pose proof (f_equal current_is_iframe E) as E3.
  pose proof (f_equal current_frame_start E) as E4.
  cbn in E1, E2, E3, E4.
  repeat split; try assumption;
    destruct (current_frame_start r), (current_frame_start r');
    congruence.
Qed.

Lemma open_complete_norm (r : recorder) : open_complete (norm r) = open_complete r.
Proof. unfold open_complete, norm. cbn. now destruct (current_frame_start r). Qed.

Section WithCipher.

Variable cipher_decrypt : list byte -> list byte.

Lemma pending_norm (r : recorder) :
  pending cipher_decrypt (norm r) = pending cipher_decrypt r.
Proof. unfold pending, norm. cbn. now destruct (current_frame_start r). Qed.

(** [video_packet] does not depend on where the open frame started nor on
    the position of the packet, and only appends to the video bytes. *)
Lemma video_packet_norm (r r' r1 : recorder) (v v1 V : list byte) (p p' : nat)
    (is_iframe : bool) (total cur : nat) (pl : list byte) :
  norm r = norm r' ->
  video_packet cipher_decrypt r v p is_iframe total cur pl = Ok (r1, v1) ->
  exists dv r1',
    v1 = v ++ dv
    /\ video_packet cipher_decrypt r' V p' is_iframe total cur pl = Ok (r1', V ++ dv)
    /\ norm r1 = norm r1'.
Proof.
  intros En E.
  destruct (norm_fields En) as (Ec & Et & Ei & Es).
  destruct (Nat.eq_dec cur 0) as [->|Hcur].
  - rewrite StreamFacts.video_packet_first in E |- *. injection E as <- <-.
    exists (pending cipher_decrypt r),
      {| frame_chunks := Some [(0, pl)]; current_frame_start := Some p';
         current_total := total; current_is_iframe := is_iframe |}.
    split; [reflexivity|]. split; [|reflexivity].
    rewrite <- (pending_norm r'), <- En, pending_norm. reflexivity.
  - destruct (frame_chunks r) as [acc|] eqn:Ha.
    + destruct (Nat.le_gt_cases (current_total r) (S (length acc))) as [Hl|Hl].
      * rewrite (@StreamFacts.video_packet_last cipher_decrypt r v p is_iframe total
                   cur pl acc Hcur Ha Hl) in E.
        injection E as <- <-.
        rewrite (@StreamFacts.video_packet_last cipher_decrypt r' V p' is_iframe total
                   cur pl acc Hcur) by congruence.
        do 2 eexists. split; [reflexivity|].
        rewrite <- Et, <- Ei. split; reflexivity.
      * rewrite (@StreamFacts.video_packet_more cipher_decrypt r v p is_iframe total
                   cur pl acc Hcur Ha Hl) in E.
        injection E as <- <-.
        rewrite (@StreamFacts.video_packet_more cipher_decrypt r' V p' is_iframe total
                   cur pl acc Hcur) by congruence.
        exists [], {| frame_chunks := Some (acc ++ [(cur, pl)]);
                      current_frame_start := current_frame_start r';
                      current_total := current_total r';
                      current_is_iframe := current_is_iframe r' |}.
        rewrite !app_nil_r. split; [reflexivity|]. split; [reflexivity|].
        unfold norm. cbn. rewrite Et, Ei.
        destruct (current_frame_start r), (current_frame_start r');
          try reflexivity; exfalso;
          [assert (Some n = None) by (now apply Es) | assert (Some n = None) by (now apply Es)];
          discriminate.
    + unfold video_packet in E |- *. rewrite <- Ec, Ha in *.
      destruct (Nat.eqb_spec cur 0); [contradiction|].
      injection E as <- <-. exists [], r'. rewrite !app_nil_r. auto.
Qed.

(** *** Packet by packet *)

Lemma feed_video (ra : bool) (r r1 : recorder) (v v1 a : list byte) (p : packet)
    (at_pos : nat) :
  is_video p = true ->
  video_packet cipher_decrypt r v at_pos (Byte.eqb (kind p) x28)
    (total_fragments p) (fragment_index p) (payload p) = Ok (r1, v1) ->
  feed cipher_decrypt ra (norm r, v, a) p = (norm r1, v1, a).
Proof.
  intros Hv E. unfold is_video in Hv. apply andb_true_iff in Hv.
  destruct Hv as [_ Hk]. unfold feed. rewrite Hk.
  destruct (@video_packet_norm r (norm r) r1 v v1 v at_pos 0 _ _ _ _
              (eq_sym (norm_norm r)) E) as (dv & r1' & -> & -> & En).
  now rewrite En.
Qed.

Lemma feed_audio (ra : bool) (r : recorder) (v a : list byte) (p : packet) :
  is_audio p = true ->
  feed cipher_decrypt ra (r, v, a) p
  = (r, v, if ra then a ++ decrypt_audio cipher_decrypt (audio_payload p) else a).
Proof.
  intro Ha. unfold is_audio in Ha. rewrite !andb_true_iff in Ha.
  destruct Ha as [[[_ Hk] _] _]. apply Byte.byte_dec_bl in Hk.
  unfold feed. rewrite Hk. reflexivity.
Qed.



(** With frames of two fragments or more, no packet leaves a complete
    frame open. *)
Lemma feed_open_complete (ra : bool) (r : recorder) (v a : list byte) (p : packet) :
  long_frame p ->
  is_video p = true \/ is_audio p = true ->
  open_complete r = false ->
  open_complete (fst (fst (feed cipher_decrypt ra (r, v, a) p))) = false.
Proof.
  intros Hlong Hok Hr. destruct Hok as [Hv|Ha].
  2:{ rewrite feed_audio by assumption. exact Hr. }
  unfold feed. pose proof Hv as Hv'. unfold is_video in Hv'.
  apply andb_true_iff in Hv'. destruct Hv' as [_ Hk]. rewrite Hk.
  destruct (Nat.eq_dec (fragment_index p) 0) as [E0|E0].
  - rewrite E0, StreamFacts.video_packet_first. cbn [fst].
    unfold open_complete, norm. cbn.
    specialize (Hlong Hv E0).
    destruct (total_fragments p) as [|[|t]]; [lia | lia | reflexivity].
  - destruct (frame_chunks r) as [acc|] eqn:Hacc.
    + destruct (Nat.le_gt_cases (current_total r) (S (length acc))) as [Hl|Hl].
      * erewrite StreamFacts.video_packet_last by eassumption. reflexivity.
      * erewrite StreamFacts.video_packet_more by eassumption. cbn [fst].
        rewrite open_complete_norm. unfold open_complete. cbn.
        destruct (current_frame_start r); [|reflexivity].
        rewrite length_app. cbn [length].
        destruct (Nat.leb_spec (current_total r) (length acc + 1)); [lia | reflexivity].
    + unfold video_packet. rewrite Hacc.
      destruct (Nat.eqb_spec (fragment_index p) 0); [contradiction|].
      cbn [fst]. now rewrite open_complete_norm.
Qed.

Lemma feed_all_open_complete (ra : bool) (pkts : list packet) :
  forall r v a,
    Forall long_frame pkts ->
    Forall (fun p => is_video p = true \/ is_audio p = true) pkts ->
    open_complete r = false ->
    open_complete (fst (fst (feed_all cipher_decrypt ra (r, v, a) pkts))) = false.
Proof.
  unfold feed_all.
  induction pkts as [|p pkts IH]; intros r v a HL HF Hr; [exact Hr|].
  inversion HL; inversion HF; subst. cbn [fold_left].
  pose proof (@feed_open_complete ra r v a p) as H.
  destruct (feed cipher_decrypt ra (r, v, a) p) as [[r1 v1] a1].
  apply IH; try assumption. now apply H.
Qed.

Lemma final_flush_incomplete (r : recorder) (video : list byte) :
  open_complete r = false ->
  final_flush cipher_decrypt r video = Ok (r, video).
Proof.
  unfold open_complete, final_flush. intro H.
  destruct (current_frame_start r), (frame_chunks r); try reflexivity.
  now rewrite H.
Qed.

(** The loop over whole packets is the fold of [feed]. *)
Lemma process_loop_feed (ra : bool) (fuel : nat) (post : list byte)
    (pkts : list packet) :
  forall pre c,
    Forall (fun p => is_video p = true \/ is_audio p = true) pkts ->
    pos c = length pre ->
    length (pre ++ concat (map encode pkts) ++ post) - pos c <= fuel ->
    exists c',
      process_loop cipher_decrypt fuel (pre ++ concat (map encode pkts) ++ post) ra c
      = process_loop cipher_decrypt fuel (pre ++ concat (map encode pkts) ++ post) ra c'
      /\ pos c' = length pre + length (concat (map encode pkts))
      /\ (norm (self c'), video_result c', audio_result c')
         = feed_all cipher_decrypt ra
             (norm (self c), video_result c, audio_result c) pkts.
Proof.
  induction pkts as [|p rest IH]; intros pre c HF Hp Hf.
  - exists c. split; [reflexivity|]. cbn [map concat length]. split; [lia | reflexivity].
  - inversion HF as [|? ? Hk HF']; subst.
    cbn [map concat] in *.
    assert (D : pre ++ (encode p ++ concat (map encode rest)) ++ post
                = pre ++ encode p ++ (concat (map encode rest) ++ post))
      by now rewrite <- app_assoc.
    assert (D' : pre ++ (encode p ++ concat (map encode rest)) ++ post
                 = (pre ++ encode p) ++ concat (map encode rest) ++ post)
      by now rewrite <- !app_assoc.
    assert (Len : length (pre ++ (encode p ++ concat (map encode rest)) ++ post)
                  = length pre + 12 + length (payload p)
                    + length (concat (map encode rest) ++ post)).
    { rewrite !length_app, StreamFacts.length_encode. lia. }
    assert (Step : exists c1,
               loop_body cipher_decrypt
                 (pre ++ (encode p ++ concat (map encode rest)) ++ post) ra c
               = Ok (Next c1)
               /\ pos c1 = length (pre ++ encode p)
               /\ (norm (self c1), video_result c1, audio_result c1)
                  = feed cipher_decrypt ra
                      (norm (self c), video_result c, audio_result c) p).
    { rewrite D. destruct Hk as [Hv|Ha].
      - rewrite StreamFacts.loop_body_video_at by assumption.
        destruct (StreamFacts.video_packet_total cipher_decrypt (self c)
                    (video_result c) (length pre)
                    (Byte.eqb (kind p) x28) (total_fragments p) (fragment_index p)
                    (payload p)) as (r' & v' & E).
        rewrite E. cbn [bind]. eexists. split; [reflexivity|].
        cbn [pos self video_result audio_result].
        split; [rewrite length_app, StreamFacts.length_encode; lia|].
        symmetry. eapply feed_video; eassumption.
      - rewrite StreamFacts.loop_body_audio_at by assumption.
        eexists. split; [reflexivity|].
        cbn [pos self video_result audio_result].
        split; [rewrite length_app, StreamFacts.length_encode; lia|].
        rewrite feed_audio by assumption. unfold audio_payload.
        now destruct ra. }
    destruct Step as (c1 & Hb & Hp1 & Hfeed).
    erewrite StreamFacts.process_loop_next; [| lia | lia | exact Hb].
    rewrite D' in *.
    destruct (IH (pre ++ encode p) c1 HF' Hp1) as (c' & E & Hp' & Hfeed');
      [rewrite length_app in Hp1; lia|].
    exists c'. split; [exact E|]. split.
    + rewrite Hp', !length_app. lia.
    + rewrite Hfeed'. unfold feed_all. cbn [fold_left]. now rewrite Hfeed.
Qed.

End WithCipher.

(** Whole packets, then possibly the start of a video packet: the loop
    stops at the cut packet, with what the packets give one by one. *)
Lemma process_loop_feed_stop
    (cipher_decrypt : list byte -> list byte) (r : recorder)
    (pkts : list packet) (cut : list byte) (record_audio : bool) :
  open_complete r = false ->
  Forall (fun p => is_video p = true \/ is_audio p = true) pkts ->
  Forall long_frame pkts ->
  cut = [] \/ truncated_video cut = true ->
  exists c,
    process_loop cipher_decrypt (length (concat (map encode pkts) ++ cut))
      (concat (map encode pkts) ++ cut) record_audio
      {| pos := 0; self := r; video_result := []; audio_result := [] |} = Ok c
    /\ skipn (pos c) (concat (map encode pkts) ++ cut) = cut
    /\ (norm (self c), video_result c, audio_result c)
       = feed_all cipher_decrypt record_audio (norm r, [], []) pkts
    /\ open_complete (self c) = false.
Proof.
  intros Hr HF HL Hcut.
  set (data := concat (map encode pkts) ++ cut).
  destruct (@process_loop_feed cipher_decrypt record_audio (length data) cut pkts []
              {| pos := 0; self := r; video_result := []; audio_result := [] |}
              HF eq_refl) as (c & E & P & Hfeed).
  { cbn [app pos]. fold data. lia. }
  cbn [app pos self video_result audio_result length] in *.
  fold data in E. rewrite E.
  exists c. split; [|split; [|split]].
  - destruct Hcut as [->|Ht].
    + apply StreamFacts.process_loop_done. unfold data. rewrite app_nil_r. lia.
    + apply StreamFacts.process_loop_break; [lia|].
      unfold data. now apply StreamFacts.loop_body_truncated.
  - unfold data. rewrite P. cbn [Nat.add].
    rewrite skipn_app, skipn_all, Nat.sub_diag. reflexivity.
  - exact Hfeed.
  - rewrite <- open_complete_norm.
    pose proof (@feed_all_open_complete cipher_decrypt record_audio pkts (norm r) [] []
                  HL HF) as H.
    rewrite <- Hfeed in H. cbn [fst] in H. apply H. now rewrite open_complete_norm.
Qed.

(** X24.  Parsing recovers the packets.  On a recorder with no complete
    frame open, a buffer made of whole packets (video fragments in any
    arrangement, with frames of at least two fragments, and audio packets
    that pass the sanity check), possibly followed by the start of a video
    packet that runs past the end, gives what the packets give one by one
    through [video_packet] and [decrypt_audio]; the cut packet comes back
    as the remainder and no complete frame stays open. *)
Theorem process_stream_data_packets
    (cipher_decrypt : list byte -> list byte) (r : recorder)
    (pkts : list packet) (cut : list byte) (record_audio : bool) :
  open_complete r = false ->
  Forall (fun p => is_video p = true \/ is_audio p = true) pkts ->
  Forall long_frame pkts ->
  cut = [] \/ truncated_video cut = true ->
  exists video audio r',
    _process_stream_data cipher_decrypt r (concat (map encode pkts) ++ cut) record_audio
    = Ok ((video, audio, cut), r')
    /\ (norm r', video, audio)
       = feed_all cipher_decrypt record_audio (norm r, [], []) pkts
    /\ open_complete r' = false.
Proof.
  intros Hr HF HL Hcut. unfold _process_stream_data.
  destruct (@process_loop_feed_stop cipher_decrypt r pkts cut record_audio
              Hr HF HL Hcut) as (c & -> & Hrest & Hfeed & Hopen).
  cbn [bind].
  rewrite RecordFacts.final_flush_incomplete by exact Hopen. cbn [bind].
  rewrite Hrest.
  exists (video_result c), (audio_result c), (self c).
  split; [reflexivity|]. split; [exact Hfeed | exact Hopen].
Qed.

Lemma process_stream_data_packets_witness :
  exists video audio r',
    _process_stream_data demo_cipher init
      (concat (map encode [example_fragment_1; example_fragment_0; example_audio_16])
         ++ [x7f; x29; x00]) true
    = Ok ((video, audio, [x7f; x29; x00]), r')
    /\ (norm r', video, audio)
       = feed_all demo_cipher true (norm init, [], [])
           [example_fragment_1; example_fragment_0; example_audio_16]
    /\ open_complete r' = false.
Proof.
  apply (@process_stream_data_packets demo_cipher init
           [example_fragment_1; example_fragment_0; example_audio_16]
           [x7f; x29; x00] true).
  - reflexivity.
  - repeat constructor; (now left) || (now right).
  - apply Forall_cons; [intros _ H; discriminate H|].
    apply Forall_cons; [intros _ _; cbn; lia|].
    apply Forall_cons; [intros H; discriminate H | apply Forall_nil].
  - right. reflexivity.
Defined.



End RecordFacts.

(** ** rtsp_server.py: [send_frame] *)

Module ServerFacts.

Import Rtsp Spec.

Lemma after_packets_valid (p : RTPPacketizer) (k : nat) :
  ssrc (after_packets p k) = ssrc p
  /\ payload_type (after_packets p k) = payload_type p
  /\ timestamp (after_packets p k) = timestamp p
  /\ (sequence (after_packets p k) mod 65536 = (sequence p + Z.of_nat k) mod 65536)%Z.
Proof.
  destruct k as [|k]; cbn [after_packets ssrc payload_type timestamp sequence].
  - repeat split. f_equal. lia.
  - repeat split. apply Z.mod_mod. lia.
Qed.

Lemma after_packets_add (p : RTPPacketizer) (a b : nat) :
  after_packets (after_packets p a) b = after_packets p (a + b).
Proof.
  destruct b as [|b]; [now rewrite Nat.add_0_r|].
  destruct a as [|a]; [reflexivity|].
  replace (S a + S b) with (S (a + S b)) by lia.
  cbn [after_packets ssrc payload_type timestamp sequence]. f_equal.
  rewrite Zplus_mod_idemp_l. f_equal. lia.
Qed.

Lemma rtp_timestamp_header (self : RTPPacketizer) (q : Z) (marker : bool)
    (payload : list byte) :
  rtp_timestamp (rtp_header self q marker ++ payload)
  = (timestamp self mod 4294967296)%Z.
Proof.
  unfold rtp_timestamp.
  rewrite slice_app_l by (rewrite PacketizerFacts.length_rtp_header; lia).
  unfold rtp_header.
  rewrite app_assoc.
  rewrite (@slice_app_skip' _ ([x80; if marker then xe0 else x60]
                                 ++ be_bytes 2 (q mod 65536)) _ 4 0 4)
    by (rewrite length_app, length_be_bytes; reflexivity).
  rewrite slice_app_l by (rewrite length_be_bytes; lia).
  rewrite slice_all by (rewrite length_be_bytes; lia).
  unfold be_value, be_bytes. rewrite rev_involutive, le_value_le_bytes.
  apply Z.mod_mod. lia.
Qed.

(** The packets of one NAL unit: their number depends on its length only,
    and they are numbered from the packetizer's sequence number on. *)
Lemma packetize_nal_numbered (p : RTPPacketizer) (nal : list byte) (is_last : bool) :
  (0 <= ssrc p < 2 ^ 32)%Z ->
  payload_type p = 96%Z ->
  exists packets,
    packetize_nal p nal is_last = Ok (packets, after_packets p (nal_packet_count nal))
    /\ length packets = nal_packet_count nal
    /\ forall m, m < nal_packet_count nal ->
         rtp_sequence (nth m packets []) = ((sequence p + Z.of_nat m) mod 65536)%Z
         /\ rtp_timestamp (nth m packets []) = (timestamp p mod 4294967296)%Z.
Proof.
  intros Hs Hp. rewrite PacketizerFacts.packetize_nal_explicit by assumption.
  unfold nal_packet_count.
  destruct (length nal <=? 1400).
  - eexists. split; [reflexivity|]. split; [reflexivity|].
    intros m Hm. replace m with 0 by lia. cbn [nth].
    rewrite PacketizerFacts.rtp_sequence_header, rtp_timestamp_header.
    split; [f_equal; lia | reflexivity].
  - eexists. split; [reflexivity|].
    split; [now rewrite length_map, length_seq|].
    intros m Hm. rewrite PacketizerFacts.nth_map_seq by assumption.
    unfold fu_packet. cbv zeta.
    now rewrite PacketizerFacts.rtp_sequence_header, rtp_timestamp_header.
Qed.

Section Network.

Variable client : Type.
Variable sendto : client -> list byte -> bool.

Lemma send_packets_ok (c : client) (packets : list (list byte)) :
  (forall packet, sendto c packet = true) ->
  forall sent,
    send_packets sendto c packets sent = (sent ++ map (pair c) packets, true).
Proof.
  intro Hok. induction packets as [|packet rest IH]; intro sent; cbn [send_packets map].
  - now rewrite app_nil_r.
  - rewrite Hok, IH. now rewrite <- app_assoc.
Qed.

(** One client, no failure: the packets of the frame, numbered on from the
    packetizer's sequence number. *)
Lemma send_nals_ok (c : client) (n : nat) (nal_units : list (list byte)) :
  (forall packet, sendto c packet = true) ->
  forall j p sent,
    (0 <= ssrc p < 2 ^ 32)%Z ->
    payload_type p = 96%Z ->
    exists packets,
      send_nals sendto c n nal_units j p sent
      = (after_packets p (frame_packet_count nal_units),
         sent ++ map (pair c) packets, true)
      /\ length packets = frame_packet_count nal_units
      /\ forall m, m < frame_packet_count nal_units ->
           rtp_sequence (nth m packets []) = ((sequence p + Z.of_nat m) mod 65536)%Z
           /\ rtp_timestamp (nth m packets []) = (timestamp p mod 4294967296)%Z.
Proof.
  intro Hok. unfold frame_packet_count.
  induction nal_units as [|nal rest IH]; intros j p sent Hs Hp;
    cbn [send_nals map].
  - exists []. cbn [map]. rewrite app_nil_r. split; [reflexivity|].
    split; [reflexivity|]. intros m Hm. cbn in Hm. lia.
  - change (list_sum (nal_packet_count nal :: map nal_packet_count rest))
      with (nal_packet_count nal + list_sum (map nal_packet_count rest)).
    destruct (packetize_nal_numbered p nal (j =? n - 1) Hs Hp)
      as (packets & -> & Hlen & Hnum).
    rewrite send_packets_ok by assumption.
    destruct (after_packets_valid p (nal_packet_count nal)) as (Vs & Vp & Vt & Vq).
    destruct (IH (S j) (after_packets p (nal_packet_count nal))
                (sent ++ map (pair c) packets))
      as (packets' & -> & Hlen' & Hnum'); [now rewrite Vs | now rewrite Vp |].
    exists (packets ++ packets').
    rewrite after_packets_add, map_app, app_assoc.
    split; [reflexivity|]. split; [rewrite length_app; lia|].
    intros m Hm.
    destruct (Nat.lt_ge_cases m (nal_packet_count nal)) as [Hlt|Hge].
    + rewrite app_nth1 by lia. now apply Hnum.
    + rewrite app_nth2 by lia. rewrite Hlen.
      destruct (Hnum' (m - nal_packet_count nal)) as [Hq Ht]; [lia|].
      rewrite Hq, Ht, Vt. split; [|reflexivity].
      rewrite <- Zplus_mod_idemp_l, Vq, Zplus_mod_idemp_l. f_equal. lia.
Qed.

Lemma send_clients_ok (nal_units : list (list byte)) (cs : list client) :
  (forall c packet, In c cs -> sendto c packet = true) ->
  forall i p sent dead,
    (0 <= ssrc p < 2 ^ 32)%Z ->
    payload_type p = 96%Z ->
    exists pairs,
      send_clients sendto cs i nal_units p sent dead
      = (after_packets p (length cs * frame_packet_count nal_units),
         sent ++ pairs, dead)
      /\ map fst pairs
         = flat_map (fun c => repeat c (frame_packet_count nal_units)) cs
      /\ forall m, m < length cs * frame_packet_count nal_units ->
           rtp_sequence (nth m (map snd pairs) [])
           = ((sequence p + Z.of_nat m) mod 65536)%Z
           /\ rtp_timestamp (nth m (map snd pairs) [])
              = (timestamp p mod 4294967296)%Z.
Proof.
  set (n := frame_packet_count nal_units).
  induction cs as [|c cs IH]; intros Hok i p sent dead Hs Hp;
    cbn [send_clients length flat_map Nat.mul].
  - exists []. rewrite app_nil_r. split; [reflexivity|].
    split; [reflexivity|]. intros m Hm. lia.
  - destruct (@send_nals_ok c (length nal_units) nal_units
                (fun packet => Hok c packet (or_introl eq_refl)) 0 p sent Hs Hp)
      as (packets & -> & Hlen & Hnum).
    fold n in Hlen, Hnum |- *.
    destruct (after_packets_valid p n) as (Vs & Vp & Vt & Vq).
    destruct (IH (fun c' packet H => Hok c' packet (or_intror H)) (S i)
                (after_packets p n) (sent ++ map (pair c) packets) dead)
      as (pairs & -> & Hfst & Hnum'); [now rewrite Vs | now rewrite Vp |].
    exists (map (pair c) packets ++ pairs).
    rewrite after_packets_add, app_assoc.
    split; [reflexivity|]. split.
    + rewrite map_app, map_map, Hfst. cbn [fst]. f_equal.
      rewrite <- Hlen. clear. induction packets; cbn; congruence.
    + intros m Hm. rewrite map_app, map_map. cbn [snd]. rewrite map_id.
      destruct (Nat.lt_ge_cases m n) as [Hlt|Hge].
      * rewrite app_nth1 by lia. now apply Hnum.
      * rewrite app_nth2 by lia. rewrite Hlen.
        destruct (Hnum' (m - n)) as [Hq Ht]; [lia|].
        rewrite Hq, Ht, Vt. split; [|reflexivity].
        rewrite <- Zplus_mod_idemp_l, Vq, Zplus_mod_idemp_l. f_equal. lia.
Qed.

End Network.

(** X26.  [send_frame] with no streaming client does nothing, and in
    particular does not advance the timestamp.  With [k] clients and no
    failing [sendto], a frame of [n] RTP packets is packetized once per
    client by the one shared packetizer: every client is sent [n] packets,
    the [k * n] packets are numbered consecutively from the packetizer's
    sequence number (so the numbers one client sees jump by [(k - 1) * n]
    from one frame to the next when [k > 1]), all carry the same timestamp,
    and afterwards the sequence number has advanced by [k * n], the timestamp
    by 3600, and the client list is unchanged. *)
Theorem send_frame_numbering
    (client : Type) (sendto : client -> list byte -> bool)
    (self : RTSPServer client) (frame_data : list byte) :
  (0 <= ssrc (packetizer self) < 2 ^ 32)%Z ->
  payload_type (packetizer self) = 96%Z ->
  (forall c packet, In c (clients self) -> sendto c packet = true) ->
  (clients self = [] -> send_frame sendto self frame_data = Ok (self, []))
  /\ (clients self <> [] ->
      exists nal_units sent,
        _parse_nal_units frame_data = Ok nal_units
        /\ send_frame sendto self frame_data
           = Ok ({| clients := clients self;
                    packetizer :=
                      advance_timestamp
                        (after_packets (packetizer self)
                           (length (clients self) * frame_packet_count nal_units))
                        3600 |}, sent)
        /\ map fst sent
           = flat_map (fun c => repeat c (frame_packet_count nal_units)) (clients self)
        /\ forall m, m < length (clients self) * frame_packet_count nal_units ->
             rtp_sequence (nth m (map snd sent) [])
             = ((sequence (packetizer self) + Z.of_nat m) mod 65536)%Z
             /\ rtp_timestamp (nth m (map snd sent) [])
                = (timestamp (packetizer self) mod 4294967296)%Z).
Proof.
  intros Hs Hp Hok. unfold send_frame. split.
  - intros ->. reflexivity.
  - intro Hne.
    destruct (clients self) as [|c0 cs] eqn:Ecs; [contradiction|].
    destruct (@AnnexBFacts.parse_nal_loop_slices (length frame_data) frame_data 0 [])
      as (nal_units & Eparse & _); [lia|].
    fold (_parse_nal_units frame_data) in Eparse. cbn [app] in Eparse.
    rewrite Eparse. cbn [bind].
    destruct (@send_clients_ok client sendto nal_units (c0 :: cs) Hok 0
                (packetizer self) [] [] Hs Hp) as (pairs & -> & Hfst & Hnum).
    cbn [app]. exists nal_units, pairs.
    split; [reflexivity|]. split; [reflexivity|]. split; assumption.
Qed.

Lemma send_frame_numbering_witness :
  exists nal_units sent,
    _parse_nal_units
      [x00; x00; x00; x01; x40; x01; x0c; x00; x00; x00; x01; x42; x01; x01; x60]
    = Ok nal_units
    /\ map fst sent = flat_map (fun c => repeat c (frame_packet_count nal_units)) [7; 9]
    /\ forall m, m < 2 * frame_packet_count nal_units ->
         rtp_sequence (nth m (map snd sent) []) = ((65535 + Z.of_nat m) mod 65536)%Z
         /\ rtp_timestamp (nth m (map snd sent) []) = (0 mod 4294967296)%Z.
Proof.
  destruct (@send_frame_numbering nat (fun _ _ => true)
              {| clients := [7; 9];
                 packetizer := {| ssrc := 1; sequence := 65535; timestamp := 0;
                                  payload_type := 96 |} |}
              [x00; x00; x00; x01; x40; x01; x0c; x00; x00; x00; x01; x42; x01; x01; x60])
    as [_ H].
  - cbn. lia.
  - reflexivity.
  - intros c packet _. reflexivity.
  - destruct H as (nal_units & sent & H1 & _ & H3 & H4); [discriminate|].
    exists nal_units, sent. split; [exact H1|]. split; [exact H3 | exact H4].
Defined.

End ServerFacts.

(** ** rtsp_server.py: [send_frame] when sends fail *)

Module DeadClientFacts.

Import Rtsp Spec.

Section Network.

Variable client : Type.
Variable sendto : client -> list byte -> bool.




End Network.




End DeadClientFacts.

(** ** client.py: the password that [login] sends *)

Module LoginFacts.

Import Crypto Client Spec.

(** X28.  [login] never fails on its key: whatever [secrets.choice] draws,
    [generate_random_key] returns 16 characters of the 62-letter alphabet,
    which encode to a 16-byte AES key, so [encrypt_password] returns for
    every password. *)
Theorem login_password_returns
    (randbelow : nat -> nat -> nat)
    (aes_encrypt_block : list byte -> list byte -> list byte) (password : string) :
  (forall i, randbelow i 62 < 62) ->
  exists encrypted_pass random_key,
    login_password randbelow aes_encrypt_block password
    = Ok (encrypted_pass, random_key)
    /\ random_key = generate_random_key randbelow
    /\ String.length random_key = 16
    /\ Forall (fun b => In b chars) (list_byte_of_string random_key).
Proof.
  intro Hr. unfold login_password. cbv zeta.
  rewrite CipherFacts.encrypt_password_cases.
  assert (L : length (list_byte_of_string (generate_random_key randbelow)) = 16).
  { unfold generate_random_key.
    now rewrite list_byte_of_string_of_list_byte, length_map, length_seq. }
  unfold AES_new. cbv zeta. rewrite L. cbn [Nat.eqb orb bind].
  do 2 eexists. split; [reflexivity|]. split; [reflexivity|]. split.
  - now rewrite <- PasswordFacts.length_list_byte_of_string.
  - unfold generate_random_key. rewrite list_byte_of_string_of_list_byte.
    apply Forall_map, Forall_forall. intros i _.
    apply nth_In. change (length chars) with 62. apply Hr.
Qed.

Lemma login_password_returns_witness :
  exists encrypted_pass random_key,
    login_password (fun i _ => i mod 62) demo_block "secret"
    = Ok (encrypted_pass, random_key)
    /\ random_key = "abcdefghijklmnop"%string.
Proof.
  destruct (@login_password_returns (fun i _ => i mod 62) demo_block "secret")
    as (encrypted_pass & random_key & H1 & H2 & _).
  - intro i. apply Nat.mod_upper_bound. discriminate.
  - exists encrypted_pass, random_key. split; [exact H1 | exact H2].
Defined.

End LoginFacts.
